(** * N-body demo of the ComputeCpp SDK: double buffer and simulation engine

    Shallow embedding of [demos/include/double_buf.hpp] and
    [demos/nbody/sim.hpp].

    Conventions of the embedding.
    - [num_t] (the template parameter of [GravSim], [float] in the demo) is
      read as the real numbers: rounding, overflow, infinities and NaN are
      outside the model.
    - [size_t] is [nat].
    - A returned reference [T&] of [DoubleBuf] is the name of the data
      member it designates ([member]); reading and writing through it are
      [deref] and [assign].
    - A device or host accessor [acc[i]] is list lookup / list update at
      index [i].  Every loop and kernel of the source indexes below the
      buffer length; out of range the model reads the default vector and
      writes nothing.
    - [std::mt19937] is a stream of canonical draws with a cursor; one call
      of a [std::uniform_real_distribution] consumes one draw.
    - Members left without initialiser by the source (buffer contents,
      [m_integrator]) are arguments of the constructors. *)

From Stdlib Require Import Reals Lra Lia List.
From stdpp Require Import base list gmap.

Open Scope R_scope.

Abbreviation num_t := R (only parsing).

(** ** Generic helpers *)

(** [for (size_t i = 0; i < n; i++) body] over a threaded state. *)
Definition for_loop {S : Type} (n : nat) (body : nat -> S -> S) (init : S) : S :=
  fold_left (fun st i => body i st) (seq 0 n) init.

(** [num_t(b)] for a [bool] [b]. *)
Definition num_of_bool (b : bool) : num_t := if b then 1 else 0.

(** ** The parts of [cl::sycl] the demo uses *)

Module sycl.

Definition sqrt : num_t -> num_t := R_sqrt.sqrt.
Definition sin : num_t -> num_t := Rtrigo_def.sin.
Definition cos : num_t -> num_t := Rtrigo_def.cos.

(** [sycl::pow(x, y)].  On a positive base it is [exp (y * ln x)]; on
    base zero it is [0], [1] or the reciprocal of zero as [y] is
    positive, zero or negative.  A negative base (NaN in the source
    unless [y] is an integer) is never reached by the engine. *)
Definition pow (x y : num_t) : num_t :=
  if Req_dec_T x 0 then
    if Rlt_dec 0 y then 0 else if Req_dec_T y 0 then 1 else / 0
  else Rpower x y.

(** [sycl::vec<num_t, 2>] *)
Module vec2.
Record t : Type := make { x : num_t; y : num_t }.
End vec2.

(** [sycl::vec<num_t, 3>] with its component-wise operators. *)
Module vec3.
Record t : Type := make { x : num_t; y : num_t; z : num_t }.

(** [vec3<num_t> v(k)] *)
Definition splat (k : num_t) : t := make k k k.

Definition add (a b : t) : t := make (x a + x b) (y a + y b) (z a + z b).
Definition sub (a b : t) : t := make (x a - x b) (y a - y b) (z a - z b).

(** scalar [*] vector, vector [*] scalar, vector [/] scalar *)
Definition scale (k : num_t) (a : t) : t := make (k * x a) (k * y a) (k * z a).
Definition times (a : t) (k : num_t) : t := make (x a * k) (y a * k) (z a * k).
Definition over (a : t) (k : num_t) : t := make (x a / k) (y a / k) (z a / k).
End vec3.

End sycl.

Abbreviation vec2 := sycl.vec2.t.
Abbreviation vec3 := sycl.vec3.t.

Declare Scope vec3_scope.
Delimit Scope vec3_scope with V.
Bind Scope vec3_scope with sycl.vec3.t.
Infix "+" := sycl.vec3.add : vec3_scope.
Infix "-" := sycl.vec3.sub : vec3_scope.
Notation "k *^ a" := (sycl.vec3.scale k a) (at level 40, left associativity).
Notation "a ^* k" := (sycl.vec3.times a k) (at level 40, left associativity).
Notation "a ^/ k" := (sycl.vec3.over a k) (at level 40, left associativity).

#[global] Instance vec3_inhabited : Inhabited vec3 := populate (sycl.vec3.splat 0).

(** ** double_buf.hpp *)

Inductive Buffer : Type := USE_A | USE_B.

(** The data member a returned [T&] designates. *)
Inductive member : Type := M_a | M_b.

Definition member_eq_dec (m m' : member) : {m = m'} + {m <> m'}.
Proof. decide equality. Defined.

(** Double-buffers any kind of value. *)
Module DoubleBuf.
Section DoubleBuf.
Context {T : Type}.

(** [USE_A]: read a, write b; [USE_B]: read b, write a. *)
Record t : Type := make { buffer : Buffer; m_a : T; m_b : T }.

(** [DoubleBuf(U&&... vals)]: both members are built from the same
    forwarded arguments; [a] and [b] are the two built instances. *)
Definition ctor (a b : T) : t :=
  {| buffer := USE_A; m_a := a; m_b := b |}.

Definition swap (d : t) : t :=
  match buffer d with
  | USE_A => {| buffer := USE_B; m_a := m_a d; m_b := m_b d |}
  | USE_B => {| buffer := USE_A; m_a := m_a d; m_b := m_b d |}
  end.

Definition read (d : t) : member :=
  match buffer d with
  | USE_A => M_a
  | USE_B => M_b
  end.

Definition write (d : t) : member :=
  match buffer d with
  | USE_A => M_b
  | USE_B => M_a
  end.

(** Reading and writing through a returned reference. *)
Definition deref (d : t) (m : member) : T :=
  match m with
  | M_a => m_a d
  | M_b => m_b d
  end.

Definition assign (d : t) (m : member) (v : T) : t :=
  match m with
  | M_a => {| buffer := buffer d; m_a := v; m_b := m_b d |}
  | M_b => {| buffer := buffer d; m_a := m_a d; m_b := v |}
  end.

End DoubleBuf.
Arguments t : clear implicits.
End DoubleBuf.

(** ** Body storage: [SyclBufs<vec3<num_t>, vec3<num_t>>] *)

Module SyclBufs.

(** Modelled from the spec: [sycl_bufs.hpp] is not among the sources.  Per
    spec section 3 (BodySet) and the comment at [m_bufs], it bundles two
    equal-length arrays, buffer 0 the velocities and buffer 1 the
    positions, both of the length given at construction. *)
Record t : Type := make { vel : list vec3; pos : list vec3 }.

(** [SyclBufs(n)]: [n] elements per buffer, contents not initialised;
    [raw i] is what the storage of element [i] happens to hold. *)
Definition ctor (n : nat) (raw : nat -> vec3 * vec3) : t :=
  {| vel := map (fun i => fst (raw i)) (seq 0 n);
     pos := map (fun i => snd (raw i)) (seq 0 n) |}.

(** [std::get<0>(accs)[i] = v] and [std::get<1>(accs)[i] = p] *)
Definition set_vel (i : nat) (v : vec3) (s : t) : t :=
  {| vel := <[i := v]> (vel s); pos := pos s |}.

Definition set_pos (i : nat) (p : vec3) (s : t) : t :=
  {| vel := vel s; pos := <[i := p]> (pos s) |}.

End SyclBufs.

(** ** Integrator *)

(** Modelled from the spec: [integrator.hpp] is not among the sources.
    Spec section 4.4, Explicit Euler:
    [v1 = v0 + dt * force_fn(v0, p0, t0)], [p1 = p0 + dt * v1] (the
    position update uses the newly computed velocity), [t1 = t0 + dt]. *)
Definition integrate_step_euler
    (force_fn : vec3 -> vec3 -> num_t -> vec3) (dt : num_t)
    (v0 p0 : vec3) (t0 : num_t) : vec3 * vec3 * num_t :=
  let v1 := (v0 + dt *^ force_fn v0 p0 t0)%V in
  let p1 := (p0 + dt *^ v1)%V in
  (v1, p1, t0 + dt).

(** ** Random numbers *)

(** [std::mt19937]: the canonical values in [[0,1)] the engine will
    deliver, and how many were taken so far. *)
Module mt19937.
Record t : Type := make { draws : nat -> num_t; consumed : nat }.

Definition generate_canonical (g : t) : num_t * t :=
  (draws g (consumed g), {| draws := draws g; consumed := S (consumed g) |}).
End mt19937.

(** [std::uniform_real_distribution<num_t>(a, b)]; the standard requires
    [a <= b].  A call scales one canonical draw into the range. *)
Module uniform_real_distribution.
Record t : Type := make { a : num_t; b : num_t }.

Definition call (d : t) (g : mt19937.t) : num_t * mt19937.t :=
  let '(u, g) := mt19937.generate_canonical g in
  (u * (b d - a d) + a d, g).
End uniform_real_distribution.

(** ** sim.hpp *)

(** Initial cylinder distribution parameters *)
Module distrib_cylinder.
Record t : Type := make {
  radius : vec2;
  angle : vec2;
  height : vec2;
  speed : num_t
}.
End distrib_cylinder.

(** Initial sphere distribution parameters *)
Module distrib_sphere.
Record t : Type := make { radius : vec2 }.
End distrib_sphere.

(** The kind of force to simulate *)
Inductive force_t : Type := GRAVITY | LENNARD_JONES.

(** Which integration method to use *)
Inductive integrator_t : Type := EULER | RK4.

Module GravSim.

Import sycl.

Record grav_params_t : Type := { G : num_t; damping : num_t }.
Record lj_params_t : Type := { eps : num_t; sigma : num_t }.

(** The members of [GravSim<num_t>].  The queue [m_q] carries no
    simulation state and is left out.  [m_integrator] has no initialiser
    in any constructor: [None] is a stored value equal to neither
    enumerator. *)
Record t : Type := make {
  m_bufs : DoubleBuf.t SyclBufs.t;
  m_n_bodies : nat;
  m_time : num_t;
  m_force : force_t;
  m_grav_params : grav_params_t;
  m_lj_params : lj_params_t;
  m_integrator : option integrator_t
}.

(** The size of a single timestep *)
Definition STEP_SIZE : num_t := 0.5.

(** Member assignments. *)
Definition with_bufs (this : t) (v : DoubleBuf.t SyclBufs.t) : t :=
  make v (m_n_bodies this) (m_time this) (m_force this)
       (m_grav_params this) (m_lj_params this) (m_integrator this).
Definition with_time (this : t) (v : num_t) : t :=
  make (m_bufs this) (m_n_bodies this) v (m_force this)
       (m_grav_params this) (m_lj_params this) (m_integrator this).

(** What a constructor finds in the storage it does not initialise: the
    contents of the two generations and the value of [m_integrator]. *)
Record uninit_t : Type := {
  raw_a : nat -> vec3 * vec3;
  raw_b : nat -> vec3 * vec3;
  raw_integrator : option integrator_t
}.

(** Base constructor, does not initialize simulation values *)
Definition base (n_bodies : nat) (u : uninit_t) : t :=
  {| m_bufs := DoubleBuf.ctor (SyclBufs.ctor n_bodies (raw_a u))
                              (SyclBufs.ctor n_bodies (raw_b u));
     m_n_bodies := n_bodies;
     m_time := 0;
     m_force := GRAVITY;
     m_grav_params := {| G := 1e-5; damping := 1e-5 |};
     m_lj_params := {| eps := 1; sigma := 1e-3 |};
     m_integrator := raw_integrator u |}.

(** One iteration of the filling loop of the cylinder constructor, on the
    generator and the host accessors. *)
Definition cylinder_body (params : distrib_cylinder.t)
    (unifr unifp unify : uniform_real_distribution.t)
    (i : nat) (st : mt19937.t * SyclBufs.t) : mt19937.t * SyclBufs.t :=
  let '(rng, accs) := st in
  let '(u, rng) := uniform_real_distribution.call unifr rng in
  let r := sqrt u in
  let '(phi, rng) := uniform_real_distribution.call unifp rng in
  let accs :=
    SyclBufs.set_vel i (vec3.make (- r * sin phi) 0 (r * cos phi)) accs in
  let accs :=
    SyclBufs.set_vel i
      (SyclBufs.vel accs !!! i
         ^* (distrib_cylinder.speed params
             / vec2.y (distrib_cylinder.radius params))) accs in
  let '(h, rng) := uniform_real_distribution.call unify rng in
  let accs :=
    SyclBufs.set_pos i (vec3.make (r * cos phi) h (r * sin phi)) accs in
  (rng, accs).

(** Initialize the simulation with a cylinder body distribution.  [rng] is
    the generator as seeded from [std::random_device]. *)
Definition ctor_cylinder (n_bodies : nat) (params : distrib_cylinder.t)
    (rng : mt19937.t) (u : uninit_t) : t :=
  let this := base n_bodies u in
  let rmin := vec2.x (distrib_cylinder.radius params) in
  let rmax := vec2.y (distrib_cylinder.radius params) in
  let unifr := uniform_real_distribution.make (rmin * rmin) (rmax * rmax) in
  let unifp :=
    uniform_real_distribution.make (vec2.x (distrib_cylinder.angle params))
                                   (vec2.y (distrib_cylinder.angle params)) in
  let unify :=
    uniform_real_distribution.make (vec2.x (distrib_cylinder.height params))
                                   (vec2.y (distrib_cylinder.height params)) in
  let w := DoubleBuf.write (m_bufs this) in
  let '(_, accs) :=
    for_loop (m_n_bodies this) (cylinder_body params unifr unifp unify)
             (rng, DoubleBuf.deref (m_bufs this) w) in
  let this := with_bufs this (DoubleBuf.assign (m_bufs this) w accs) in
  let this := with_bufs this (DoubleBuf.swap (m_bufs this)) in
  with_time this 0.

(** One iteration of the filling loop of the sphere constructor. *)
Definition sphere_body (unifp unifcost unifu : uniform_real_distribution.t)
    (i : nat) (st : mt19937.t * SyclBufs.t) : mt19937.t * SyclBufs.t :=
  let '(rng, accs) := st in
  let '(u, rng) := uniform_real_distribution.call unifu rng in
  let r := pow u (1 / 3) in
  let '(cost, rng) := uniform_real_distribution.call unifcost rng in
  let sint := sqrt (1 - cost * cost) in
  let '(phi, rng) := uniform_real_distribution.call unifp rng in
  let x := r * sint * cos phi in
  let y := r * sint * sin phi in
  let z := r * cost in
  let accs := SyclBufs.set_vel i (vec3.make 0 0 0) accs in
  let accs := SyclBufs.set_pos i (vec3.make x y z) accs in
  (rng, accs).

(** Initialize the simulation with a sphere body distribution *)
Definition ctor_sphere (n_bodies : nat) (params : distrib_sphere.t)
    (rng : mt19937.t) (u : uninit_t) : t :=
  let this := base n_bodies u in
  let unifp := uniform_real_distribution.make 0 (2 * 3.141592) in
  let unifcost := uniform_real_distribution.make (-1) 1 in
  let rmin := vec2.x (distrib_sphere.radius params) in
  let rmax := vec2.y (distrib_sphere.radius params) in
  let unifu :=
    uniform_real_distribution.make (rmin * rmin * rmin) (rmax * rmax * rmax) in
  let w := DoubleBuf.write (m_bufs this) in
  let '(_, accs) :=
    for_loop (m_n_bodies this) (sphere_body unifp unifcost unifu)
             (rng, DoubleBuf.deref (m_bufs this) w) in
  let this := with_bufs this (DoubleBuf.assign (m_bufs this) w accs) in
  let this := with_bufs this (DoubleBuf.swap (m_bufs this)) in
  with_time this 0.

(** The setters. *)
Definition set_force_type (force : force_t) (this : t) : t :=
  make (m_bufs this) (m_n_bodies this) (m_time this) force
       (m_grav_params this) (m_lj_params this) (m_integrator this).

Definition set_integrator (integrator : integrator_t) (this : t) : t :=
  make (m_bufs this) (m_n_bodies this) (m_time this) (m_force this)
       (m_grav_params this) (m_lj_params this) (Some integrator).

Definition set_grav_damping (damping' : num_t) (this : t) : t :=
  make (m_bufs this) (m_n_bodies this) (m_time this) (m_force this)
       {| G := G (m_grav_params this); damping := damping' |}
       (m_lj_params this) (m_integrator this).

Definition set_grav_G (G' : num_t) (this : t) : t :=
  make (m_bufs this) (m_n_bodies this) (m_time this) (m_force this)
       {| G := G'; damping := damping (m_grav_params this) |}
       (m_lj_params this) (m_integrator this).

Definition set_lj_eps (eps' : num_t) (this : t) : t :=
  make (m_bufs this) (m_n_bodies this) (m_time this) (m_force this)
       (m_grav_params this)
       {| eps := eps'; sigma := sigma (m_lj_params this) |}
       (m_integrator this).

Definition set_lj_sigma (sigma' : num_t) (this : t) : t :=
  make (m_bufs this) (m_n_bodies this) (m_time this) (m_force this)
       (m_grav_params this)
       {| eps := eps (m_lj_params this); sigma := sigma' |}
       (m_integrator this).

(** The lambda [grav] of the gravity kernel of work item [id]; [pos] is
    the read accessor of the positions.  The first and third argument
    (velocity, time) are unnamed in the source. *)
Definition grav (n_bodies : nat) (pos : list vec3) (id : nat)
    (G damping : num_t) (_ : vec3) (x : vec3) (_ : num_t) : vec3 :=
  let acc :=
    for_loop n_bodies (fun i acc =>
      let diff := (pos !!! i - x)%V in
      let r := sqrt (vec3.x diff * vec3.x diff + vec3.y diff * vec3.y diff
                     + vec3.z diff * vec3.z diff) in
      (acc + diff ^/ (r * r * r + 1e24 * num_of_bool (i =? id)%nat + damping))%V)
      (vec3.splat 0) in
  G *^ acc.

(** The lambda [force] of the Lennard-Jones kernel of work item [id]. *)
Definition force (n_bodies : nat) (pos : list vec3) (id : nat)
    (A : num_t) (_ : vec3) (x : vec3) (_ : num_t) : vec3 :=
  let acc :=
    for_loop n_bodies (fun i acc =>
      let diff := (pos !!! i - x)%V in
      let r := sqrt (vec3.x diff * vec3.x diff + vec3.y diff * vec3.y diff
                     + vec3.z diff * vec3.z diff)
               + 1e24 * num_of_bool (i =? id)%nat in
      (acc + (pow r (-8) *^ diff - 2 * pow r (-14) *^ diff))%V)
      (vec3.splat 0) in
  A *^ acc.

Section Step.

(** [integrate_step_rk4] of [integrator.hpp], which is not among the
    sources, is a parameter of the step. *)
Variable integrate_step_rk4 :
  (vec3 -> vec3 -> num_t -> vec3) -> num_t -> vec3 -> vec3 -> num_t ->
  vec3 * vec3 * num_t.

(** The integrator dispatch closing both kernels: work item [id] writes
    its new velocity and position, or nothing when [integrator] is
    neither enumerator. *)
Definition integrate (integrator : option integrator_t)
    (f : vec3 -> vec3 -> num_t -> vec3) (vel pos : list vec3) (t : num_t)
    (id : nat) (writes : SyclBufs.t) : SyclBufs.t :=
  match integrator with
  | Some EULER =>
      let '(v1, p1, _) :=
        integrate_step_euler f STEP_SIZE (vel !!! id) (pos !!! id) t in
      SyclBufs.set_pos id p1 (SyclBufs.set_vel id v1 writes)
  | Some RK4 =>
      let '(v1, p1, _) :=
        integrate_step_rk4 f STEP_SIZE (vel !!! id) (pos !!! id) t in
      SyclBufs.set_pos id p1 (SyclBufs.set_vel id v1 writes)
  | None => writes
  end.

(** [cgh.parallel_for(range<1>(n), kernel)]: the work items read only the
    read generation and each writes only its own index of the write
    generation, so they are run in index order. *)
Definition parallel_for (n : nat) (kernel : nat -> SyclBufs.t -> SyclBufs.t)
    (writes : SyclBufs.t) : SyclBufs.t :=
  for_loop n kernel writes.

(** The command group submitted by [internal_step]: the contents of the
    write generation once it has run. *)
Definition submit (this : t) : SyclBufs.t :=
  let reads := DoubleBuf.deref (m_bufs this) (DoubleBuf.read (m_bufs this)) in
  let writes := DoubleBuf.deref (m_bufs this) (DoubleBuf.write (m_bufs this)) in
  let vel := SyclBufs.vel reads in
  let pos := SyclBufs.pos reads in
  let t := m_time this in
  let n_bodies := m_n_bodies this in
  let integrator := m_integrator this in
  match m_force this with
  | GRAVITY =>
      let G := G (m_grav_params this) in
      let damping := damping (m_grav_params this) in
      parallel_for (m_n_bodies this) (fun id =>
        integrate integrator (grav n_bodies pos id G damping) vel pos t id)
        writes
  | LENNARD_JONES =>
      let eps := eps (m_lj_params this) in
      let sigma := sigma (m_lj_params this) in
      let A := 24 * eps * sigma in
      parallel_for (m_n_bodies this) (fun id =>
        integrate integrator (force n_bodies pos id A) vel pos t id)
        writes
  end.

Definition internal_step (this : t) : t :=
  let written := submit this in
  let this :=
    with_bufs this
      (DoubleBuf.assign (m_bufs this) (DoubleBuf.write (m_bufs this)) written) in
  let this := with_bufs this (DoubleBuf.swap (m_bufs this)) in
  with_time this (m_time this + STEP_SIZE).

End Step.

End GravSim.

(** ** Calls as the caller sees them *)

(** Spec section 7 names one error class.  The sources declare no error
    type; [outcome] is how a call ends for its caller. *)
Inductive error_t : Type := ConfigurationError.

Inductive outcome (A : Type) : Type :=
| Returned (a : A)
| Raised (e : error_t).
Arguments Returned {A} a.
Arguments Raised {A} e.

(** Neither constructor checks [n_bodies] or a range, and neither has a
    [throw]: control always reaches the end of the body. *)
Definition construct_cylinder (n_bodies : nat) (params : distrib_cylinder.t)
    (rng : mt19937.t) (u : GravSim.uninit_t) : outcome GravSim.t :=
  Returned (GravSim.ctor_cylinder n_bodies params rng u).

Definition construct_sphere (n_bodies : nat) (params : distrib_sphere.t)
    (rng : mt19937.t) (u : GravSim.uninit_t) : outcome GravSim.t :=
  Returned (GravSim.ctor_sphere n_bodies params rng u).

(** ** Specification-side definitions *)

(** Spec section 7: a range parameter with [min > max]. *)
Definition range_inverted (v : vec2) : Prop := sycl.vec2.x v > sycl.vec2.y v.

Definition cylinder_config_invalid (n_bodies : nat) (p : distrib_cylinder.t) : Prop :=
  n_bodies = 0%nat \/ range_inverted (distrib_cylinder.radius p)
  \/ range_inverted (distrib_cylinder.angle p)
  \/ range_inverted (distrib_cylinder.height p).

Definition sphere_config_invalid (n_bodies : nat) (p : distrib_sphere.t) : Prop :=
  n_bodies = 0%nat \/ range_inverted (distrib_sphere.radius p).

(** The precondition of [std::uniform_real_distribution(a, b)]. *)
Definition distribution_ok (d : uniform_real_distribution.t) : Prop :=
  uniform_real_distribution.a d <= uniform_real_distribution.b d.

(** The body arrays an external reader sees: the read generation. *)
Definition read_bufs (g : GravSim.t) : SyclBufs.t :=
  DoubleBuf.deref (GravSim.m_bufs g) (DoubleBuf.read (GravSim.m_bufs g)).
Definition write_bufs (g : GravSim.t) : SyclBufs.t :=
  DoubleBuf.deref (GravSim.m_bufs g) (DoubleBuf.write (GravSim.m_bufs g)).
Definition velocities (g : GravSim.t) : list vec3 := SyclBufs.vel (read_bufs g).
Definition positions (g : GravSim.t) : list vec3 := SyclBufs.pos (read_bufs g).

(** Euclidean length of a vector, and the radial (x, z) part of it. *)
Definition norm (v : vec3) : num_t :=
  sqrt (sycl.vec3.x v * sycl.vec3.x v + sycl.vec3.y v * sycl.vec3.y v
        + sycl.vec3.z v * sycl.vec3.z v).
Definition radial (v : vec3) : num_t :=
  sqrt (sycl.vec3.x v * sycl.vec3.x v + sycl.vec3.z v * sycl.vec3.z v).
Definition dot (a b : vec3) : num_t :=
  sycl.vec3.x a * sycl.vec3.x b + sycl.vec3.y a * sycl.vec3.y b
  + sycl.vec3.z a * sycl.vec3.z b.

(** The sum of [f j] for [j] from [0] to [n - 1]. *)
Definition vsum (n : nat) (f : nat -> vec3) : vec3 :=
  fold_right sycl.vec3.add (sycl.vec3.splat 0) (map f (seq 0 n)).

Definition HUGE : num_t := 1e24.

(** The bracket [[j == i]]. *)
Definition iverson (j i : nat) : num_t := if decide (j = i) then 1 else 0.

(** Spec section 4.3, Gravity(G, damping), for body [i] of the array [p]. *)
Definition gravity_acc (G damping : num_t) (p : list vec3) (i : nat) : vec3 :=
  G *^ vsum (length p) (fun j =>
    let d := (p !!! j - p !!! i)%V in
    d ^/ (norm d ^ 3 + damping + HUGE * iverson j i)).

(** Spec section 4.3, LennardJones(eps, sigma). *)
Definition lennard_jones_acc (eps sigma : num_t) (p : list vec3) (i : nat) : vec3 :=
  let A := 24 * eps * sigma in
  A *^ vsum (length p) (fun j =>
    let d := (p !!! j - p !!! i)%V in
    let r := norm d + HUGE * iverson j i in
    (/ r ^ 8 - 2 * / r ^ 14) *^ d).

(** The draws of one body in the cylinder constructor, by the draws [d]
    of the generator from position [k] on: radius, angle, height. *)
Definition uniform (a b u : num_t) : num_t := u * (b - a) + a.

Definition cylinder_r (p : distrib_cylinder.t) (d : nat -> num_t) (k : nat) : num_t :=
  let rmin := sycl.vec2.x (distrib_cylinder.radius p) in
  let rmax := sycl.vec2.y (distrib_cylinder.radius p) in
  sqrt (uniform (rmin * rmin) (rmax * rmax) (d k)).
Definition cylinder_phi (p : distrib_cylinder.t) (d : nat -> num_t) (k : nat) : num_t :=
  uniform (sycl.vec2.x (distrib_cylinder.angle p))
          (sycl.vec2.y (distrib_cylinder.angle p)) (d (S k)).
Definition cylinder_h (p : distrib_cylinder.t) (d : nat -> num_t) (k : nat) : num_t :=
  uniform (sycl.vec2.x (distrib_cylinder.height p))
          (sycl.vec2.y (distrib_cylinder.height p)) (d (S (S k))).

Definition cylinder_vel (p : distrib_cylinder.t) (d : nat -> num_t) (k : nat) : vec3 :=
  let r := cylinder_r p d k in
  let phi := cylinder_phi p d k in
  sycl.vec3.make (- r * sin phi) 0 (r * cos phi)
    ^* (distrib_cylinder.speed p / sycl.vec2.y (distrib_cylinder.radius p)).
Definition cylinder_pos (p : distrib_cylinder.t) (d : nat -> num_t) (k : nat) : vec3 :=
  let r := cylinder_r p d k in
  let phi := cylinder_phi p d k in
  sycl.vec3.make (r * cos phi) (cylinder_h p d k) (r * sin phi).

(** The same for the sphere constructor: cubed radius, cosine, angle. *)
Definition sphere_r (p : distrib_sphere.t) (d : nat -> num_t) (k : nat) : num_t :=
  let rmin := sycl.vec2.x (distrib_sphere.radius p) in
  let rmax := sycl.vec2.y (distrib_sphere.radius p) in
  sycl.pow (uniform (rmin * rmin * rmin) (rmax * rmax * rmax) (d k)) (1 / 3).
Definition sphere_cost (d : nat -> num_t) (k : nat) : num_t :=
  uniform (-1) 1 (d (S k)).
Definition sphere_phi (d : nat -> num_t) (k : nat) : num_t :=
  uniform 0 (2 * 3.141592) (d (S (S k))).
Definition sphere_pos (p : distrib_sphere.t) (d : nat -> num_t) (k : nat) : vec3 :=
  let r := sphere_r p d k in
  let cost := sphere_cost d k in
  let sint := sqrt (1 - cost * cost) in
  let phi := sphere_phi d k in
  sycl.vec3.make (r * sint * cos phi) (r * sint * sin phi) (r * cost).

(** Two generators deliver the same next [n] draws. *)
Definition same_draws (n : nat) (g1 g2 : mt19937.t) : Prop :=
  forall k, (k < n)%nat ->
    mt19937.draws g1 (mt19937.consumed g1 + k) =
    mt19937.draws g2 (mt19937.consumed g2 + k).

(** Every draw of the generator is canonical: in [[0, 1)]. *)
Definition canonical (g : mt19937.t) : Prop :=
  forall k, 0 <= mt19937.draws g k < 1.

(** [k] consecutive steps. *)
Definition steps (rk4 : (vec3 -> vec3 -> num_t -> vec3) -> num_t -> vec3 ->
                        vec3 -> num_t -> vec3 * vec3 * num_t)
    (k : nat) (g : GravSim.t) : GravSim.t :=
  Nat.iter k (GravSim.internal_step rk4) g.

(** What a setter must leave alone whatever it sets: the two generations
    with their role flag (all positions and velocities), the number of
    bodies and the time. *)
Definition same_bodies (g g' : GravSim.t) : Prop :=
  GravSim.m_bufs g' = GravSim.m_bufs g
  /\ positions g' = positions g /\ velocities g' = velocities g
  /\ DoubleBuf.buffer (GravSim.m_bufs g') = DoubleBuf.buffer (GravSim.m_bufs g)
  /\ GravSim.m_n_bodies g' = GravSim.m_n_bodies g
  /\ GravSim.m_time g' = GravSim.m_time g.

(** The arrays a filling loop leaves when every iteration takes three
    draws and stores [V] and [P] of the position of its first draw. *)
Definition filled (V P : nat -> vec3) (c n : nat) : SyclBufs.t :=
  {| SyclBufs.vel := map (fun i => V (3 * i + c)%nat) (seq 0 n);
     SyclBufs.pos := map (fun i => P (3 * i + c)%nat) (seq 0 n) |}.

(** ** Concrete inputs for the examples *)

(** Storage that held zeros, or ones, before construction. *)
Definition zeroed : GravSim.uninit_t :=
  {| GravSim.raw_a := fun _ => (sycl.vec3.splat 0, sycl.vec3.splat 0);
     GravSim.raw_b := fun _ => (sycl.vec3.splat 0, sycl.vec3.splat 0);
     GravSim.raw_integrator := None |}.
Definition stale : GravSim.uninit_t :=
  {| GravSim.raw_a := fun _ => (sycl.vec3.splat 1, sycl.vec3.splat 1);
     GravSim.raw_b := fun _ => (sycl.vec3.splat 1, sycl.vec3.splat 1);
     GravSim.raw_integrator := Some RK4 |}.

(** A generator that delivers [u] for ever, and one that does so for its
    first three draws only. *)
Definition constant_rng (u : num_t) : mt19937.t :=
  {| mt19937.draws := fun _ => u; mt19937.consumed := 0 |}.
Definition three_then_zero (u : num_t) : mt19937.t :=
  {| mt19937.draws := fun k => if (k <? 3)%nat then u else 0;
     mt19937.consumed := 0 |}.

(** A ring of radii 1 to 2, all angles, heights -1 to 1, unit speed. *)
Definition ring_cylinder : distrib_cylinder.t :=
  {| distrib_cylinder.radius := sycl.vec2.make 1 2;
     distrib_cylinder.angle := sycl.vec2.make 0 6;
     distrib_cylinder.height := sycl.vec2.make (-1) 1;
     distrib_cylinder.speed := 1 |}.

(** A cylinder whose radius range is ordered but negative. *)
Definition negative_cylinder : distrib_cylinder.t :=
  {| distrib_cylinder.radius := sycl.vec2.make (-1) (-1);
     distrib_cylinder.angle := sycl.vec2.make 0 0;
     distrib_cylinder.height := sycl.vec2.make 0 0;
     distrib_cylinder.speed := 1 |}.

(** The ring with its height range given upside down. *)
Definition inverted_cylinder : distrib_cylinder.t :=
  {| distrib_cylinder.radius := sycl.vec2.make 1 2;
     distrib_cylinder.angle := sycl.vec2.make 0 6;
     distrib_cylinder.height := sycl.vec2.make 1 (-1);
     distrib_cylinder.speed := 1 |}.

Definition shell_sphere : distrib_sphere.t :=
  {| distrib_sphere.radius := sycl.vec2.make 1 2 |}.

(** Two bodies one unit apart on the x axis. *)
Definition two_bodies : list vec3 :=
  [sycl.vec3.make 0 0 0; sycl.vec3.make 1 0 0].

(** Both generations hold [m_n_bodies] velocities and positions. *)
Definition sized (g : GravSim.t) : Prop :=
  forall m,
    length (SyclBufs.vel (DoubleBuf.deref (GravSim.m_bufs g) m)) = GravSim.m_n_bodies g
    /\ length (SyclBufs.pos (DoubleBuf.deref (GravSim.m_bufs g) m)) = GravSim.m_n_bodies g.

(** The force lambda the kernel of work item [id] hands to the
    integrator. *)
Definition force_of (g : GravSim.t) (id : nat) : vec3 -> vec3 -> num_t -> vec3 :=
  match GravSim.m_force g with
  | GRAVITY =>
      GravSim.grav (GravSim.m_n_bodies g) (positions g) id
                   (GravSim.G (GravSim.m_grav_params g))
                   (GravSim.damping (GravSim.m_grav_params g))
  | LENNARD_JONES =>
      GravSim.force (GravSim.m_n_bodies g) (positions g) id
                    (24 * GravSim.eps (GravSim.m_lj_params g)
                     * GravSim.sigma (GravSim.m_lj_params g))
  end.

(** ** Sequences of engine calls *)

(** The calls a user can make on a constructed engine. *)
Inductive call_t : Type :=
| Step
| Set_force_type (force : force_t)
| Set_integrator (integrator : integrator_t)
| Set_grav_damping (damping : num_t)
| Set_grav_G (G : num_t)
| Set_lj_eps (eps : num_t)
| Set_lj_sigma (sigma : num_t).

Definition rk4_t : Type :=
  (vec3 -> vec3 -> num_t -> vec3) -> num_t -> vec3 -> vec3 -> num_t ->
  vec3 * vec3 * num_t.

Definition do_call (rk4 : rk4_t) (g : GravSim.t) (c : call_t) : GravSim.t :=
  match c with
  | Step => GravSim.internal_step rk4 g
  | Set_force_type f => GravSim.set_force_type f g
  | Set_integrator i => GravSim.set_integrator i g
  | Set_grav_damping v => GravSim.set_grav_damping v g
  | Set_grav_G v => GravSim.set_grav_G v g
  | Set_lj_eps v => GravSim.set_lj_eps v g
  | Set_lj_sigma v => GravSim.set_lj_sigma v g
  end.

(** The calls of [cs], first to last, on [g]. *)
Definition do_calls (rk4 : rk4_t) (cs : list call_t) (g : GravSim.t) : GravSim.t :=
  fold_left (do_call rk4) cs g.

Definition is_step (c : call_t) : bool :=
  match c with Step => true | _ => false end.

Definition count_steps (cs : list call_t) : nat :=
  length (List.filter is_step cs).

(** All positions moved by the same vector. *)
Definition shifted (d : vec3) (p : list vec3) : list vec3 :=
  map (fun q => (q + d)%V) p.

(** ** mandel.hpp *)

(** [sycl::cl_uchar4] and [sycl::vec<num_t, 4>] *)
Module uchar4.
Record t : Type := make { x : Z; y : Z; z : Z; w : Z }.
End uchar4.

Module vec4.
Record t : Type := make { x : num_t; y : num_t; z : num_t; w : num_t }.

(** [sycl::vec<num_t, 4>(c)] for a [cl_uchar4] [c] *)
Definition of_uchar4 (c : uchar4.t) : t :=
  make (IZR (uchar4.x c)) (IZR (uchar4.y c)) (IZR (uchar4.z c)) (IZR (uchar4.w c)).

Definition add (a b : t) : t := make (x a + x b) (y a + y b) (z a + z b) (w a + w b).
Definition times (a : t) (k : num_t) : t := make (x a * k) (y a * k) (z a * k) (w a * k).
End vec4.

#[global] Instance uchar4_inhabited : Inhabited uchar4.t :=
  populate (uchar4.make 0 0 0 0).

(** [size_t(m)] for a floating-point [m]: the fraction is dropped; the
    conversion is defined only when the result fits, that is for
    [-1 < m < 2^64].  [None] stands for the undefined case. *)
Definition size_t_of_num (m : num_t) : option nat :=
  if Rlt_dec (-1) m then
    if Rlt_dec m (2 ^ 64) then Some (Z.to_nat (Int_part m)) else None
  else None.

Module MandelbrotCalculator.

(** The members of [MandelbrotCalculator<num_t>] that carry the view;
    the queue and the image buffer are left out. *)
Record t : Type := make {
  m_width : nat;
  m_height : nat;
  m_x : num_t * num_t;
  m_y : num_t * num_t
}.

Definition ctor (width height : nat) : t :=
  {| m_width := width; m_height := height; m_x := (-2, 1); m_y := (-1, 1) |}.

(** Set the boundaries of the viewable region. X is Re, Y is Im. *)
Definition set_bounds (min_x max_x min_y max_y : num_t) (this : t) : t :=
  {| m_width := m_width this; m_height := m_height this;
     m_x := (min_x, max_x); m_y := (min_y, max_y) |}.

Definition MAX_ITERS : nat := 500.
Definition DIVERGENCE_LIMIT : num_t := 256.

(** The loop of the lambda [how_mandel] from iteration [i] on, with
    [fuel] iterations left before [i] reaches [MAX_ITERS]. *)
Fixpoint how_mandel_loop (fuel i : nat) (re im z_re z_im : num_t) : num_t :=
  match fuel with
  | O => 1
  | S fuel' =>
      let z_re2 := z_re * z_re - z_im * z_im + re in
      let z_im := 2 * z_re * z_im + im in
      let z_re := z_re2 in
      let abs_sq := z_re * z_re + z_im * z_im in
      if Rge_dec abs_sq DIVERGENCE_LIMIT then
        let log_2 := ln 2 in
        let log_zn := ln abs_sq / 2 in
        let nu := ln (log_zn / log_2) / log_2 in
        INR i + 1 - nu
      else how_mandel_loop fuel' (S i) re im z_re z_im
  end.

Definition how_mandel (re im : num_t) : num_t :=
  how_mandel_loop MAX_ITERS 0 re im 0 0.

(** The point of the complex plane that work item [(row, col)] samples. *)
Definition sample_point (this : t) (row col : nat) : num_t * num_t :=
  let x := INR col / INR (m_width this) in
  let y := INR row / INR (m_height this) in
  let x := x * (snd (m_x this) - fst (m_x this)) in
  let x := x + fst (m_x this) in
  let y := y * (snd (m_y this) - fst (m_y this)) in
  let y := y + fst (m_y this) in
  (x, y).

Definition COLORS : list uchar4.t :=
  [ uchar4.make 66 30 15 255;
    uchar4.make 25 7 26 255;
    uchar4.make 9 1 47 255;
    uchar4.make 4 4 73 255;
    uchar4.make 0 7 100 255;
    uchar4.make 12 44 138 255;
    uchar4.make 24 82 177 255;
    uchar4.make 57 125 209 255;
    uchar4.make 134 181 229 255;
    uchar4.make 211 236 248 255;
    uchar4.make 241 233 191 255;
    uchar4.make 248 201 95 255;
    uchar4.make 255 170 0 255;
    uchar4.make 204 128 0 255;
    uchar4.make 153 87 0 255;
    uchar4.make 106 52 3 255 ].

(** The colour a work item computes from [mandelness], as the
    [sycl::vec<num_t, 4>] that is then converted to the stored
    [cl_uchar4]; [None] when [size_t(mandelness)] is undefined. *)
Definition blend (mandelness : num_t) : option vec4.t :=
  match size_t_of_num mandelness with
  | None => None
  | Some k =>
      let col_a := COLORS !!! (k mod length COLORS)%nat in
      let col_b := COLORS !!! ((k + 1) mod length COLORS)%nat in
      let fract := mandelness - INR k in
      Some (vec4.add (vec4.times (vec4.of_uchar4 col_a) (1 - fract))
                     (vec4.times (vec4.of_uchar4 col_b) fract))
  end.

(** One work item of [internal_calc], up to that conversion. *)
Definition kernel (this : t) (row col : nat) : option vec4.t :=
  let '(x, y) := sample_point this row col in
  blend (how_mandel x y).

End MandelbrotCalculator.

(** ** mandelbrot/main.cpp *)

Module MandelbrotApp.

Definition WIDTH : nat := 800.
Definition HEIGHT : nat := 600.

(** The members of [MandelbrotApp] apart from the GL texture. *)
Record t : Type := make {
  m_calc : MandelbrotCalculator.t;
  m_ctr_x : num_t;
  m_ctr_y : num_t;
  m_range : num_t;
  m_prev_mx : num_t;
  m_prev_my : num_t
}.

Definition ctor : t :=
  {| m_calc := MandelbrotCalculator.ctor WIDTH HEIGHT;
     m_ctr_x := 0; m_ctr_y := 0; m_range := 1; m_prev_mx := 0; m_prev_my := 0 |}.

(** [update()]: the centre and range become the bounds of the
    calculator.  The call of [calc()] that follows recomputes the image
    and changes none of these members. *)
Definition update (this : t) : t :=
  let range_x := m_range this * INR WIDTH / INR HEIGHT in
  let half_x := range_x / 2 in
  let min_x := m_ctr_x this - half_x in
  let max_x := m_ctr_x this + half_x in
  let half_y := m_range this / 2 in
  let min_y := m_ctr_y this - half_y in
  let max_y := m_ctr_y this + half_y in
  make (MandelbrotCalculator.set_bounds min_x max_x min_y max_y (m_calc this))
       (m_ctr_x this) (m_ctr_y this) (m_range this)
       (m_prev_mx this) (m_prev_my this).

(** [mouseWheel(event)] with [inc = event.getWheelIncrement()] *)
Definition mouseWheel (inc : num_t) (this : t) : t :=
  let range :=
    if Rgt_dec inc 0 then m_range this * (0.5 * inc)
    else m_range this / (-0.5 * inc) in
  make (m_calc this) (m_ctr_x this) (m_ctr_y this) range
       (m_prev_mx this) (m_prev_my this).


End MandelbrotApp.

(** ** game_of_life/sim.hpp *)

(** [enum class CellState : cl_uint { LIVE = 1, DEAD = 0 }] *)
Inductive CellState : Type := LIVE | DEAD.

#[global] Instance CellState_eq_dec : EqDecision CellState.
Proof. solve_decision. Defined.

(** [(int)(state)] *)
Definition int_of_CellState (s : CellState) : Z :=
  match s with LIVE => 1 | DEAD => 0 end.

(** The conversions the kernel makes between [size_t] (64 bits,
    unsigned) and [int] (32 bits, signed), with their wrap-around. *)
Definition int_of_size_t (z : Z) : Z := ((z + 2 ^ 31) mod 2 ^ 32 - 2 ^ 31)%Z.
Definition size_t_of_int (z : Z) : Z := (z mod 2 ^ 64)%Z.

(** Conversion of a floating-point value to [cl_uchar]: the fraction is
    dropped; defined only when the result fits, [None] otherwise. *)
Definition uchar_of_num (f : num_t) : option Z :=
  if Rlt_dec (-1) f then
    if Rlt_dec f 256 then Some (Z.max 0 (Int_part f)) else None
  else None.

(** [sycl::float2] with the operators the kernel uses. *)
Module float2.
Record t : Type := make { x : num_t; y : num_t }.
Definition add (a b : t) : t := make (x a + x b) (y a + y b).
Definition times (a : t) (k : num_t) : t := make (x a * k) (y a * k).
Definition over (a : t) (k : num_t) : t := make (x a / k) (y a / k).
Definition fabs (a : t) : t := make (Rabs (x a)) (Rabs (y a)).
End float2.

#[global] Instance float2_inhabited : Inhabited float2.t :=
  populate (float2.make 0 0).

(** [sycl::buffer<A, 2>]: its range and the elements written so far.  An
    element that was never written, or whose last writer had no defined
    value to store, is absent: its value is indeterminate.  Reading
    outside the range is undefined and gives [None] as well; writing
    outside the range is modelled as writing nothing. *)
Module buffer2.
Section buffer2.
Context {A : Type}.

Record t : Type := make { range0 : nat; range1 : nat; data : gmap (Z * Z) A }.

Definition ctor (r0 r1 : nat) : t :=
  {| range0 := r0; range1 := r1; data := ∅ |}.

Definition in_range (b : t) (id : Z * Z) : bool :=
  bool_decide ((0 <= id.1 < Z.of_nat (range0 b))%Z
               /\ (0 <= id.2 < Z.of_nat (range1 b))%Z).

(** [acc[id]] read and written *)
Definition get (b : t) (id : Z * Z) : option A :=
  if in_range b id then data b !! id else None.

Definition set (b : t) (id : Z * Z) (v : A) : t :=
  if in_range b id
  then {| range0 := range0 b; range1 := range1 b; data := <[id := v]> (data b) |}
  else b.

(** An accessor with [access::mode::discard_write] *)
Definition discard (b : t) : t :=
  {| range0 := range0 b; range1 := range1 b; data := ∅ |}.

End buffer2.
Arguments t : clear implicits.
End buffer2.

Module GameGrid.
Record t : Type := make {
  cells : buffer2.t CellState;
  vels : buffer2.t float2.t;
  img : buffer2.t uchar4.t
}.

(** image is flipped since OpenGL expects column-major order *)
Definition ctor (width height : nat) : t :=
  {| cells := buffer2.ctor width height;
     vels := buffer2.ctor width height;
     img := buffer2.ctor height width |}.
End GameGrid.

Module GameOfLifeSim.

Definition click_t : Type := nat * nat * CellState.

(** The members of [GameOfLifeSim] apart from the queue. *)
Record t : Type := make {
  m_width : nat;
  m_height : nat;
  m_game : DoubleBuf.t GameGrid.t;
  m_clicks : list click_t
}.

Definition ctor (width height : nat) : t :=
  {| m_width := width; m_height := height;
     m_game := DoubleBuf.ctor (GameGrid.ctor width height)
                              (GameGrid.ctor width height);
     m_clicks := [] |}.

(** Add a button press (cell spawn) to be processed *)
Definition add_click (x y : nat) (state : CellState) (this : t) : t :=
  make (m_width this) (m_height this) (m_game this)
       (m_clicks this ++ [(x, y, state)]).

(** The image an external reader is handed by [with_img]. *)
Definition with_img (this : t) : buffer2.t uchar4.t :=
  GameGrid.img (DoubleBuf.deref (m_game this) (DoubleBuf.read (m_game this))).

(** The click loop of [internal_step]: [back()], [pop_back()], store,
    until the vector is empty; [pending] is the vector last to first. *)
Fixpoint drain_clicks (pending : list click_t) (acc : buffer2.t CellState)
    : buffer2.t CellState :=
  match pending with
  | [] => acc
  | (x, y, state) :: rest =>
      drain_clicks rest (buffer2.set acc (Z.of_nat x, Z.of_nat y) state)
  end.

(** The lambda [process_index], on [int]s.  [%] truncates towards zero;
    the sum does not overflow for an index below [max_size]. *)
Definition process_index (ind offset max_size : Z) : Z :=
  Z.rem (ind + offset) max_size.

(** The offsets [(offset_i, offset_j)] in the order of the two loops. *)
Definition offsets : list (Z * Z) :=
  offset_j ← ([1; 0; -1]%Z : list Z);
  offset_i ← ([-1; 0; 1]%Z : list Z);
  if decide (offset_j <> 0%Z \/ offset_i <> 0%Z)
  then [(offset_i, offset_j)] else [].

(** The eight [sycl::id<2>(x_ind, y_ind)] a work item reads. *)
Definition neighbour_ids (width height x y : nat) : list (Z * Z) :=
  map (fun o : Z * Z =>
         let x_ind := process_index (int_of_size_t (Z.of_nat x)) o.1
                                    (int_of_size_t (Z.of_nat width)) in
         let y_ind := process_index (int_of_size_t (Z.of_nat y)) o.2
                                    (int_of_size_t (Z.of_nat height)) in
         (size_t_of_int x_ind, size_t_of_int y_ind))
      offsets.

Definition vel_consts : list float2.t :=
  [ float2.make (-0.7) 0.7; float2.make 0.0 1.7; float2.make 0.7 0.7;
    float2.make (-1.0) 0.0; float2.make 1.0 0.0; float2.make (-0.7) (-0.7);
    float2.make 0.0 (-1.0); float2.make 0.7 0.7 ].

(** Sets the "velocity" of a cell depending on which neighbour cells are
    alive *)
Definition neighbour_vel (live : list bool) : float2.t :=
  let vel :=
    for_loop 8 (fun i vel =>
      float2.add vel (float2.times (vel_consts !!! i) (num_of_bool (live !!! i))))
      (float2.make 0 0) in
  float2.over vel 8.

(** Counts the alive neighbours *)
Definition count_live (live : list bool) : nat :=
  for_loop 8 (fun i n => (n + (if (live !!! i : bool) then 1 else 0))%nat) 0%nat.

(** Advances the cell state according to Conway's rules *)
Definition advance (current : CellState) (live_neighbours : nat) : CellState :=
  if decide (current = LIVE) then
    if (live_neighbours <? 2)%nat then DEAD
    else if (live_neighbours <? 4)%nat then LIVE
    else DEAD
  else if (live_neighbours =? 3)%nat then LIVE
  else DEAD.

(** Set image pixel to new colour decided by state and "velocity" *)
Definition pixel_of (new_state : CellState) (new_vel : float2.t) : option uchar4.t :=
  let bright :=
    float2.add (float2.times (float2.fabs new_vel) 5) (float2.make 0.2 0.2) in
  r ← uchar_of_num (IZR (int_of_CellState new_state) * float2.x bright * 255);
  b ← uchar_of_num (IZR (int_of_CellState new_state) * float2.y bright * 255);
  Some (uchar4.make r 0 b 255).

(** What work item [(x, y)] computes from the read accessors [r] and
    [rv]; a result is [None] when a read it needs is not defined. *)
Definition read_live (r : buffer2.t CellState) (width height x y : nat)
    : option (list bool) :=
  mapM (fun id => s ← buffer2.get r id; Some (bool_decide (s = LIVE)))
       (neighbour_ids width height x y).

Definition item_state (r : buffer2.t CellState) (width height x y : nat)
    : option CellState :=
  live ← read_live r width height x y;
  current ← buffer2.get r (Z.of_nat x, Z.of_nat y);
  Some (advance current (count_live live)).

Definition item_vel (r : buffer2.t CellState) (rv : buffer2.t float2.t)
    (width height x y : nat) : option float2.t :=
  live ← read_live r width height x y;
  old ← buffer2.get rv (Z.of_nat x, Z.of_nat y);
  Some (float2.over (float2.add old (neighbour_vel live)) 2).

Definition item_pixel (r : buffer2.t CellState) (rv : buffer2.t float2.t)
    (width height x y : nat) : option uchar4.t :=
  new_state ← item_state r width height x y;
  new_vel ← item_vel r rv width height x y;
  pixel_of new_state new_vel.

(** The stores of work item [(x, y)]: [w[item]], [wv[item]] and
    [img[id(y, x)]]. *)
Definition store {A : Type} (b : buffer2.t A) (id : Z * Z) (v : option A)
    : buffer2.t A :=
  match v with
  | Some a => buffer2.set b id a
  | None => b
  end.

Definition kernel (reads : GameGrid.t) (width height : nat)
    (item : nat * nat) (writes : GameGrid.t) : GameGrid.t :=
  let r := GameGrid.cells reads in
  let rv := GameGrid.vels reads in
  let x := item.1 in
  let y := item.2 in
  {| GameGrid.cells :=
       store (GameGrid.cells writes) (Z.of_nat x, Z.of_nat y)
             (item_state r width height x y);
     GameGrid.vels :=
       store (GameGrid.vels writes) (Z.of_nat x, Z.of_nat y)
             (item_vel r rv width height x y);
     GameGrid.img :=
       store (GameGrid.img writes) (Z.of_nat y, Z.of_nat x)
             (item_pixel r rv width height x y) |}.

(** The work items of [parallel_for(range<2>(n0, n1), ...)] *)
Definition items (n0 n1 : nat) : list (nat * nat) :=
  x ← seq 0 n0; y ← seq 0 n1; [(x, y)].

(** The command group: every work item of the grid, on the discarded
    write generation. *)
Definition submit (this : t) : GameGrid.t :=
  let reads := DoubleBuf.deref (m_game this) (DoubleBuf.read (m_game this)) in
  let writes := DoubleBuf.deref (m_game this) (DoubleBuf.write (m_game this)) in
  let width := m_width this in
  let height := m_height this in
  fold_left (fun w item => kernel reads width height item w)
            (items width height)
            {| GameGrid.cells := buffer2.discard (GameGrid.cells writes);
               GameGrid.vels := buffer2.discard (GameGrid.vels writes);
               GameGrid.img := buffer2.discard (GameGrid.img writes) |}.

(** Executes an update frame *)
Definition internal_step (this : t) : t :=
  (* Read mouse clicks since last frame and apply them to the game. *)
  let rd := DoubleBuf.read (m_game this) in
  let grid := DoubleBuf.deref (m_game this) rd in
  let acc := drain_clicks (rev (m_clicks this)) (GameGrid.cells grid) in
  let grid := GameGrid.make acc (GameGrid.vels grid) (GameGrid.img grid) in
  let this := make (m_width this) (m_height this)
                   (DoubleBuf.assign (m_game this) rd grid) [] in
  let written := submit this in
  let this := make (m_width this) (m_height this)
                   (DoubleBuf.assign (m_game this)
                                     (DoubleBuf.write (m_game this)) written)
                   (m_clicks this) in
  (* Swap read-buffer with write-buffer *)
  make (m_width this) (m_height this) (DoubleBuf.swap (m_game this))
       (m_clicks this).

End GameOfLifeSim.

(** The state of the click on cell [id] that was added first, if any. *)
Fixpoint first_click (clicks : list GameOfLifeSim.click_t) (id : Z * Z)
    : option CellState :=
  match clicks with
  | [] => None
  | (x, y, state) :: rest =>
      if decide ((Z.of_nat x, Z.of_nat y) = id) then Some state
      else first_click rest id
  end.

(** The three buffers of a grid have the ranges [GameGrid(width, height)]
    gave them. *)
Definition grid_sized (width height : nat) (g : GameGrid.t) : Prop :=
  (buffer2.range0 (GameGrid.cells g) = width
   /\ buffer2.range1 (GameGrid.cells g) = height)
  /\ (buffer2.range0 (GameGrid.vels g) = width
      /\ buffer2.range1 (GameGrid.vels g) = height)
  /\ (buffer2.range0 (GameGrid.img g) = height
      /\ buffer2.range1 (GameGrid.img g) = width).

Definition game_sized (this : GameOfLifeSim.t) : Prop :=
  forall m, grid_sized (GameOfLifeSim.m_width this) (GameOfLifeSim.m_height this)
                       (DoubleBuf.deref (GameOfLifeSim.m_game this) m).

(** The two generations of the game. *)
Definition read_grid (this : GameOfLifeSim.t) : GameGrid.t :=
  DoubleBuf.deref (GameOfLifeSim.m_game this)
                  (DoubleBuf.read (GameOfLifeSim.m_game this)).
Definition write_grid (this : GameOfLifeSim.t) : GameGrid.t :=
  DoubleBuf.deref (GameOfLifeSim.m_game this)
                  (DoubleBuf.write (GameOfLifeSim.m_game this)).

(** The cells the kernel of a step reads: the read generation with the
    pending clicks applied. *)
Definition clicked_cells (this : GameOfLifeSim.t) : buffer2.t CellState :=
  GameOfLifeSim.drain_clicks (rev (GameOfLifeSim.m_clicks this))
                             (GameGrid.cells (read_grid this)).

(** A sequence of stores, one per item of [l]: item [it] stores [out it]
    at [key it]. *)
Definition stores {A I : Type} (key : I -> Z * Z) (out : I -> option A)
    (l : list I) (b : buffer2.t A) : buffer2.t A :=
  fold_left (fun b it => GameOfLifeSim.store b (key it) (out it)) l b.

(** The calls a user of [GameOfLifeSim] can make; [step()] runs
    [internal_step]. *)
Inductive game_call_t : Type :=
  | Add_click (x y : nat) (state : CellState)
  | Game_step.

Definition game_do_call (g : GameOfLifeSim.t) (c : game_call_t) : GameOfLifeSim.t :=
  match c with
  | Add_click x y state => GameOfLifeSim.add_click x y state g
  | Game_step => GameOfLifeSim.internal_step g
  end.

Definition game_do_calls (cs : list game_call_t) (g : GameOfLifeSim.t)
    : GameOfLifeSim.t :=
  fold_left game_do_call cs g.

(** No velocity and no pixel of the grid has been given a value. *)
Definition vels_img_blank (g : GameGrid.t) : Prop :=
  buffer2.data (GameGrid.vels g) = ∅ /\ buffer2.data (GameGrid.img g) = ∅.

(** A 3 x 3 grid with every cell clicked dead, and velocities with the
    middle cell at rest. *)
Definition dead_cells : buffer2.t CellState :=
  GameOfLifeSim.drain_clicks
    (map (fun it : nat * nat => (it.1, it.2, DEAD)) (GameOfLifeSim.items 3 3))
    (buffer2.ctor 3 3).

Definition still_vels : buffer2.t float2.t :=
  buffer2.set (buffer2.ctor 3 3) (1, 1)%Z (float2.make 0 0).

(** * Proofs *)

(** ** DoubleBuf *)

Section DoubleBufFacts.
Context {T : Type}.
Implicit Types d : DoubleBuf.t T.

Lemma read_write_distinct d : DoubleBuf.read d <> DoubleBuf.write d.
Proof. unfold DoubleBuf.read, DoubleBuf.write. destruct (DoubleBuf.buffer d); discriminate. Qed.

Lemma read_swap d : DoubleBuf.read (DoubleBuf.swap d) = DoubleBuf.write d.
Proof. destruct d as [[] a b]; reflexivity. Qed.

Lemma write_swap d : DoubleBuf.write (DoubleBuf.swap d) = DoubleBuf.read d.
Proof. destruct d as [[] a b]; reflexivity. Qed.

Lemma deref_swap d m : DoubleBuf.deref (DoubleBuf.swap d) m = DoubleBuf.deref d m.
Proof. destruct d as [[] a b], m; reflexivity. Qed.

Lemma swap_swap d : DoubleBuf.swap (DoubleBuf.swap d) = d.
Proof. destruct d as [[] a b]; reflexivity. Qed.

Lemma deref_assign_same d m v : DoubleBuf.deref (DoubleBuf.assign d m v) m = v.
Proof. destruct m; reflexivity. Qed.

Lemma deref_assign_other d m m' v :
  m <> m' -> DoubleBuf.deref (DoubleBuf.assign d m v) m' = DoubleBuf.deref d m'.
Proof. destruct m, m'; intros H; try reflexivity; contradiction. Qed.

Lemma buffer_assign d m v :
  DoubleBuf.buffer (DoubleBuf.assign d m v) = DoubleBuf.buffer d.
Proof. destruct m; reflexivity. Qed.

Lemma read_assign d m v : DoubleBuf.read (DoubleBuf.assign d m v) = DoubleBuf.read d.
Proof. unfold DoubleBuf.read. rewrite buffer_assign. reflexivity. Qed.

Lemma write_assign d m v : DoubleBuf.write (DoubleBuf.assign d m v) = DoubleBuf.write d.
Proof. unfold DoubleBuf.write. rewrite buffer_assign. reflexivity. Qed.

End DoubleBufFacts.

(** C8.  After construction [read()] and [write()] designate distinct
    members (as they do in every state); one [swap()] makes the former
    write member the read member and the former read member the write
    member, moving no data; two [swap()]s restore the state, so the role
    assignment is back where it was. *)
Theorem DoubleBuf_swap_roles {T : Type} (a b : T) (d : DoubleBuf.t T) :
  (DoubleBuf.read (DoubleBuf.ctor a b) = M_a
   /\ DoubleBuf.write (DoubleBuf.ctor a b) = M_b
   /\ DoubleBuf.read (DoubleBuf.ctor a b) <> DoubleBuf.write (DoubleBuf.ctor a b))
  /\ DoubleBuf.read d <> DoubleBuf.write d
  /\ (DoubleBuf.read (DoubleBuf.swap d) = DoubleBuf.write d
      /\ DoubleBuf.write (DoubleBuf.swap d) = DoubleBuf.read d
      /\ forall m, DoubleBuf.deref (DoubleBuf.swap d) m = DoubleBuf.deref d m)
  /\ (DoubleBuf.swap (DoubleBuf.swap d) = d
      /\ DoubleBuf.read (DoubleBuf.swap (DoubleBuf.swap d)) = DoubleBuf.read d
      /\ DoubleBuf.write (DoubleBuf.swap (DoubleBuf.swap d)) = DoubleBuf.write d).
Proof.
  split; [|split; [|split]].
  - repeat split; discriminate.
  - apply read_write_distinct.
  - auto using read_swap, write_swap, deref_swap.
  - rewrite swap_swap. auto.
Qed.

(** ** Setters *)

Lemma same_bodies_intro (g g' : GravSim.t) :
  GravSim.m_bufs g' = GravSim.m_bufs g ->
  GravSim.m_n_bodies g' = GravSim.m_n_bodies g ->
  GravSim.m_time g' = GravSim.m_time g ->
  same_bodies g g'.
Proof.
  intros Hb Hn Ht. unfold same_bodies, positions, velocities, read_bufs.
  rewrite Hb. repeat split; assumption || reflexivity.
Qed.

(** C10.  Each of the six setters stores its argument in the field it
    names and leaves everything else as it was: the buffers with their
    role flag (hence every position and velocity), the number of bodies,
    the time, and each of the other selection and parameter fields. *)
Theorem setters_frame (g : GravSim.t) :
  (forall f, let g' := GravSim.set_force_type f g in
     GravSim.m_force g' = f /\ same_bodies g g'
     /\ GravSim.m_integrator g' = GravSim.m_integrator g
     /\ GravSim.m_grav_params g' = GravSim.m_grav_params g
     /\ GravSim.m_lj_params g' = GravSim.m_lj_params g)
  /\ (forall i, let g' := GravSim.set_integrator i g in
     GravSim.m_integrator g' = Some i /\ same_bodies g g'
     /\ GravSim.m_force g' = GravSim.m_force g
     /\ GravSim.m_grav_params g' = GravSim.m_grav_params g
     /\ GravSim.m_lj_params g' = GravSim.m_lj_params g)
  /\ (forall v, let g' := GravSim.set_grav_damping v g in
     GravSim.damping (GravSim.m_grav_params g') = v /\ same_bodies g g'
     /\ GravSim.G (GravSim.m_grav_params g') = GravSim.G (GravSim.m_grav_params g)
     /\ GravSim.m_force g' = GravSim.m_force g
     /\ GravSim.m_integrator g' = GravSim.m_integrator g
     /\ GravSim.m_lj_params g' = GravSim.m_lj_params g)
  /\ (forall v, let g' := GravSim.set_grav_G v g in
     GravSim.G (GravSim.m_grav_params g') = v /\ same_bodies g g'
     /\ GravSim.damping (GravSim.m_grav_params g')
        = GravSim.damping (GravSim.m_grav_params g)
     /\ GravSim.m_force g' = GravSim.m_force g
     /\ GravSim.m_integrator g' = GravSim.m_integrator g
     /\ GravSim.m_lj_params g' = GravSim.m_lj_params g)
  /\ (forall v, let g' := GravSim.set_lj_eps v g in
     GravSim.eps (GravSim.m_lj_params g') = v /\ same_bodies g g'
     /\ GravSim.sigma (GravSim.m_lj_params g')
        = GravSim.sigma (GravSim.m_lj_params g)
     /\ GravSim.m_force g' = GravSim.m_force g
     /\ GravSim.m_integrator g' = GravSim.m_integrator g
     /\ GravSim.m_grav_params g' = GravSim.m_grav_params g)
  /\ (forall v, let g' := GravSim.set_lj_sigma v g in
     GravSim.sigma (GravSim.m_lj_params g') = v /\ same_bodies g g'
     /\ GravSim.eps (GravSim.m_lj_params g')
        = GravSim.eps (GravSim.m_lj_params g)
     /\ GravSim.m_force g' = GravSim.m_force g
     /\ GravSim.m_integrator g' = GravSim.m_integrator g
     /\ GravSim.m_grav_params g' = GravSim.m_grav_params g).
Proof.
  repeat split; try reflexivity;
    apply same_bodies_intro; reflexivity.
Qed.

(** ** Euler integrator *)

(** C3.  The Euler integrator returns [v1 = v0 + dt * force_fn(v0, p0, t0)],
    [p1 = p0 + dt * v1] with that new velocity [v1], and [t1 = t0 + dt];
    at its call site in the kernels, work item [id] stores this [v1] and
    [p1], taken at [dt = STEP_SIZE] from the read generation, at index
    [id] of the write generation. *)
Theorem euler_step_semi_implicit
    (force_fn : vec3 -> vec3 -> num_t -> vec3) (dt : num_t)
    (v0 p0 : vec3) (t0 : num_t) :
  (exists v1 p1 t1,
     integrate_step_euler force_fn dt v0 p0 t0 = (v1, p1, t1)
     /\ v1 = (v0 + dt *^ force_fn v0 p0 t0)%V
     /\ p1 = (p0 + dt *^ v1)%V
     /\ t1 = t0 + dt)
  /\ (forall rk4 vel pos id writes,
        let v1 := (vel !!! id
                   + GravSim.STEP_SIZE *^ force_fn (vel !!! id) (pos !!! id) t0)%V in
        let p1 := (pos !!! id + GravSim.STEP_SIZE *^ v1)%V in
        GravSim.integrate rk4 (Some EULER) force_fn vel pos t0 id writes
        = SyclBufs.set_pos id p1 (SyclBufs.set_vel id v1 writes)).
Proof.
  split.
  - eexists _, _, _. split; [reflexivity|]. auto.
  - reflexivity.
Qed.

(** ** The step *)

Section StepFacts.
Variable rk4 :
  (vec3 -> vec3 -> num_t -> vec3) -> num_t -> vec3 -> vec3 -> num_t ->
  vec3 * vec3 * num_t.

Lemma internal_step_bufs (g : GravSim.t) :
  GravSim.m_bufs (GravSim.internal_step rk4 g)
  = DoubleBuf.swap
      (DoubleBuf.assign (GravSim.m_bufs g) (DoubleBuf.write (GravSim.m_bufs g))
                        (GravSim.submit rk4 g)).
Proof. reflexivity. Qed.

Lemma internal_step_time (g : GravSim.t) :
  GravSim.m_time (GravSim.internal_step rk4 g) = GravSim.m_time g + GravSim.STEP_SIZE.
Proof. reflexivity. Qed.

Lemma internal_step_read (g : GravSim.t) :
  DoubleBuf.read (GravSim.m_bufs (GravSim.internal_step rk4 g))
  = DoubleBuf.write (GravSim.m_bufs g).
Proof. rewrite internal_step_bufs, read_swap, write_assign. reflexivity. Qed.

Lemma internal_step_write (g : GravSim.t) :
  DoubleBuf.write (GravSim.m_bufs (GravSim.internal_step rk4 g))
  = DoubleBuf.read (GravSim.m_bufs g).
Proof. rewrite internal_step_bufs, write_swap, read_assign. reflexivity. Qed.

Lemma steps_S (k : nat) (g : GravSim.t) :
  steps rk4 (S k) g = GravSim.internal_step rk4 (steps rk4 k g).
Proof. reflexivity. Qed.

Lemma steps_time (k : nat) (g : GravSim.t) :
  GravSim.m_time (steps rk4 k g) = GravSim.m_time g + INR k * GravSim.STEP_SIZE.
Proof.
  induction k as [|k IH].
  - simpl. lra.
  - rewrite steps_S, internal_step_time, IH, S_INR. lra.
Qed.

Lemma steps_time_lt (j k : nat) (g : GravSim.t) :
  (j < k)%nat -> GravSim.m_time (steps rk4 j g) < GravSim.m_time (steps rk4 k g).
Proof.
  intros Hjk. rewrite !steps_time. apply lt_INR in Hjk.
  unfold GravSim.STEP_SIZE. nra.
Qed.

Lemma steps_read (k : nat) (g : GravSim.t) :
  DoubleBuf.read (GravSim.m_bufs (steps rk4 k g))
  = (if Nat.even k then DoubleBuf.read (GravSim.m_bufs g)
     else DoubleBuf.write (GravSim.m_bufs g))
  /\ DoubleBuf.write (GravSim.m_bufs (steps rk4 k g))
  = (if Nat.even k then DoubleBuf.write (GravSim.m_bufs g)
     else DoubleBuf.read (GravSim.m_bufs g)).
Proof.
  induction k as [|k [IHr IHw]]; [split; reflexivity|].
  rewrite steps_S, internal_step_read, internal_step_write, IHr, IHw.
  rewrite Nat.even_succ, <- Nat.negb_even. destruct (Nat.even k); split; reflexivity.
Qed.

End StepFacts.

Lemma ctor_cylinder_time n params rng u :
  GravSim.m_time (GravSim.ctor_cylinder n params rng u) = 0.
Proof.
  unfold GravSim.ctor_cylinder.
  destruct (for_loop _ _ _) as [rng' accs]. reflexivity.
Qed.

Lemma ctor_sphere_time n params rng u :
  GravSim.m_time (GravSim.ctor_sphere n params rng u) = 0.
Proof.
  unfold GravSim.ctor_sphere.
  destruct (for_loop _ _ _) as [rng' accs]. reflexivity.
Qed.

(** C9.  One step swaps the generations exactly once (the buffers after
    the step are one [swap()] of the buffers the kernel wrote, so the
    written generation becomes the read one and the former read one the
    write target) and adds [STEP_SIZE] to the time.  Hence after [k]
    steps the roles are the original ones for even [k] and the exchanged
    ones for odd [k], the time has grown by [k * STEP_SIZE], it is
    strictly larger than after any smaller number of steps, and counted
    from either constructor it equals [k * STEP_SIZE]. *)
Theorem step_swaps_once_and_advances_time
    (rk4 : (vec3 -> vec3 -> num_t -> vec3) -> num_t -> vec3 -> vec3 -> num_t ->
           vec3 * vec3 * num_t)
    (g : GravSim.t) (k : nat) :
  (GravSim.m_bufs (GravSim.internal_step rk4 g)
   = DoubleBuf.swap
       (DoubleBuf.assign (GravSim.m_bufs g) (DoubleBuf.write (GravSim.m_bufs g))
                         (GravSim.submit rk4 g))
   /\ DoubleBuf.read (GravSim.m_bufs (GravSim.internal_step rk4 g))
      = DoubleBuf.write (GravSim.m_bufs g)
   /\ DoubleBuf.write (GravSim.m_bufs (GravSim.internal_step rk4 g))
      = DoubleBuf.read (GravSim.m_bufs g)
   /\ GravSim.m_time (GravSim.internal_step rk4 g)
      = GravSim.m_time g + GravSim.STEP_SIZE)
  /\ DoubleBuf.read (GravSim.m_bufs (steps rk4 k g))
     = (if Nat.even k then DoubleBuf.read (GravSim.m_bufs g)
        else DoubleBuf.write (GravSim.m_bufs g))
  /\ GravSim.m_time (steps rk4 k g) = GravSim.m_time g + INR k * GravSim.STEP_SIZE
  /\ (forall j, (j < k)%nat ->
        GravSim.m_time (steps rk4 j g) < GravSim.m_time (steps rk4 k g))
  /\ (forall n params rng u,
        GravSim.m_time (steps rk4 k (GravSim.ctor_cylinder n params rng u))
        = INR k * GravSim.STEP_SIZE)
  /\ (forall n params rng u,
        GravSim.m_time (steps rk4 k (GravSim.ctor_sphere n params rng u))
        = INR k * GravSim.STEP_SIZE).
Proof.
  split; [|split; [|split; [|split; [|split]]]].
  - auto using internal_step_bufs, internal_step_read, internal_step_write,
      internal_step_time.
  - apply steps_read.
  - apply steps_time.
  - intros j. apply steps_time_lt.
  - intros. rewrite steps_time, ctor_cylinder_time. lra.
  - intros. rewrite steps_time, ctor_sphere_time. lra.
Qed.

(** ** Vector algebra and loops that accumulate a sum *)

Lemma vec3_eq (a b : vec3) :
  sycl.vec3.x a = sycl.vec3.x b -> sycl.vec3.y a = sycl.vec3.y b -> sycl.vec3.z a = sycl.vec3.z b -> a = b.
Proof. destruct a, b; simpl; intros; subst; reflexivity. Qed.

Lemma vec3_add_assoc (a b c : vec3) : (a + (b + c) = a + b + c)%V.
Proof. apply vec3_eq; simpl; ring. Qed.

Lemma vec3_add_0_l (a : vec3) : (sycl.vec3.splat 0 + a)%V = a.
Proof. apply vec3_eq; simpl; ring. Qed.

Lemma vec3_add_0_r (a : vec3) : (a + sycl.vec3.splat 0)%V = a.
Proof. apply vec3_eq; simpl; ring. Qed.

Lemma vec3_over_ext (a : vec3) (k k' : num_t) : k = k' -> a ^/ k = a ^/ k'.
Proof. intros ->. reflexivity. Qed.

(** An accumulating [fold_left] is the accumulator plus the right-nested
    sum of the terms. *)
Lemma fold_left_add (f : nat -> vec3) (l : list nat) (acc : vec3) :
  fold_left (fun a i => (a + f i)%V) l acc
  = (acc + fold_right sycl.vec3.add (sycl.vec3.splat 0) (map f l))%V.
Proof.
  revert acc. induction l as [|i l IH]; intros acc; simpl.
  - symmetry. apply vec3_add_0_r.
  - rewrite IH. symmetry. apply vec3_add_assoc.
Qed.

Lemma for_loop_ext {S : Type} (n : nat) (body body' : nat -> S -> S) (init : S) :
  (forall i st, (i < n)%nat -> body i st = body' i st) ->
  for_loop n body init = for_loop n body' init.
Proof.
  unfold for_loop. intros Hext.
  assert (Hin : forall i, In i (seq 0 n) -> (i < n)%nat)
    by (intros i Hi; apply in_seq in Hi; lia).
  revert init Hin. generalize (seq 0 n) as l.
  induction l as [|i l IH]; intros init Hin; simpl; [reflexivity|].
  rewrite Hext by (apply Hin; left; reflexivity).
  apply IH. intros j Hj. apply Hin. right. exact Hj.
Qed.

Lemma for_loop_sum (n : nat) (f : nat -> vec3) :
  for_loop n (fun i acc => (acc + f i)%V) (sycl.vec3.splat 0) = vsum n f.
Proof. unfold for_loop, vsum. rewrite fold_left_add. apply vec3_add_0_l. Qed.

Lemma vsum_ext (n : nat) (f f' : nat -> vec3) :
  (forall j, (j < n)%nat -> f j = f' j) -> vsum n f = vsum n f'.
Proof.
  intros Hext. unfold vsum. f_equal. apply map_ext_in.
  intros j Hj. apply in_seq in Hj. apply Hext. lia.
Qed.

Lemma num_of_bool_iverson (j i : nat) : num_of_bool (j =? i)%nat = iverson j i.
Proof.
  unfold num_of_bool, iverson.
  destruct (Nat.eqb_spec j i); destruct (decide (j = i)); congruence.
Qed.

Lemma iverson_range (j i : nat) : 0 <= iverson j i <= 1.
Proof. unfold iverson. destruct (decide (j = i)); lra. Qed.

(** ** Gravity *)

(** The lambda [grav] at an arbitrary evaluation point [x0]. *)
Lemma grav_sum (n : nat) (p : list vec3) (id : nat) (G damping : num_t)
    (v x0 : vec3) (t : num_t) :
  GravSim.grav n p id G damping v x0 t
  = G *^ vsum n (fun j =>
      let d := (p !!! j - x0)%V in
      d ^/ (norm d ^ 3 + damping + HUGE * iverson j id)).
Proof.
  unfold GravSim.grav. f_equal.
  rewrite <- for_loop_sum. apply for_loop_ext. intros j acc _. cbv zeta.
  f_equal. apply vec3_over_ext.
  rewrite num_of_bool_iverson. unfold norm, HUGE, sycl.sqrt. ring.
Qed.

Lemma grav_sum_own (n : nat) (p : list vec3) (i : nat) (G damping : num_t)
    (v : vec3) (t : num_t) :
  length p = n ->
  GravSim.grav n p i G damping v (p !!! i) t = gravity_acc G damping p i.
Proof.
  intros Hn. rewrite grav_sum. unfold gravity_acc. rewrite Hn. reflexivity.
Qed.

(** C4.  For a body index [i] of a position array [p] of length [n], the
    gravity lambda of work item [i], evaluated at the body's own position
    as the kernel's Euler branch does, returns
    [G * sum_j (p_j - p_i) / (|p_j - p_i|^3 + damping + HUGE * [j == i])]
    over [j = 0 .. n-1]; the velocity and time arguments are ignored. *)
Theorem grav_formula (n : nat) (p : list vec3) (i : nat) (G damping : num_t)
    (v : vec3) (t : num_t) :
  length p = n -> (i < n)%nat ->
  GravSim.grav n p i G damping v (p !!! i) t = gravity_acc G damping p i.
Proof.
  intros Hn _. apply grav_sum_own. exact Hn.
Qed.

Lemma grav_formula_witness :
  GravSim.grav 2 two_bodies 0 1e-5 1e-5 (sycl.vec3.splat 0) (two_bodies !!! 0%nat) 0
  = gravity_acc 1e-5 1e-5 two_bodies 0.
Proof. apply (grav_formula 2 two_bodies 0); [reflexivity | lia]. Defined.

(** The gravity lambda on two bodies one unit apart, with [G = 1] and no
    damping: the self term vanishes and the other body pulls with unit
    acceleration along the axis. *)
Example grav_two_bodies :
  GravSim.grav 2 two_bodies 0 1 0 (sycl.vec3.splat 0) (sycl.vec3.make 0 0 0) 0
  = sycl.vec3.make 1 0 0.
Proof.
  unfold GravSim.grav, for_loop, two_bodies, sycl.sqrt. simpl.
  replace ((0 - 0) * (0 - 0) + (0 - 0) * (0 - 0) + (0 - 0) * (0 - 0)) with 0 by ring.
  replace ((1 - 0) * (1 - 0) + (0 - 0) * (0 - 0) + (0 - 0) * (0 - 0)) with 1 by ring.
  rewrite sqrt_0, sqrt_1. apply vec3_eq; simpl; field.
Qed.

(** ** Lennard-Jones *)

(** [sycl::pow] with a negative whole exponent on a base that is not
    negative is the reciprocal of the power. *)
Lemma pow_neg_nat (r : num_t) (k : nat) :
  0 <= r -> (0 < k)%nat -> sycl.pow r (- INR k) = / r ^ k.
Proof.
  intros Hr Hk. unfold sycl.pow.
  assert (HINR : 0 < INR k) by (apply lt_0_INR; exact Hk).
  destruct (Req_dec_T r 0) as [->|Hne].
  - destruct (Rlt_dec 0 (- INR k)) as [Hlt|_]; [lra|].
    destruct (Req_dec_T (- INR k) 0) as [Heq|_]; [lra|].
    rewrite pow_i by exact Hk. reflexivity.
  - rewrite Rpower_Ropp, Rpower_pow by lra. reflexivity.
Qed.

Lemma pow_m8 (r : num_t) : 0 <= r -> sycl.pow r (-8) = / r ^ 8.
Proof.
  intros Hr. replace (-8) with (- INR 8) by (simpl; lra).
  apply pow_neg_nat; [exact Hr | lia].
Qed.

Lemma pow_m14 (r : num_t) : 0 <= r -> sycl.pow r (-14) = / r ^ 14.
Proof.
  intros Hr. replace (-14) with (- INR 14) by (simpl; lra).
  apply pow_neg_nat; [exact Hr | lia].
Qed.

Lemma norm_nonneg (d : vec3) : 0 <= norm d.
Proof. apply sqrt_pos. Qed.

Lemma lj_term (r : num_t) (d : vec3) :
  0 <= r ->
  (sycl.pow r (-8) *^ d - 2 * sycl.pow r (-14) *^ d)%V = (/ r ^ 8 - 2 * / r ^ 14) *^ d.
Proof.
  intros Hr. rewrite pow_m8, pow_m14 by exact Hr.
  generalize (/ r ^ 8) (/ r ^ 14). intros a b.
  apply vec3_eq; simpl; ring.
Qed.

Lemma force_sum (n : nat) (p : list vec3) (id : nat) (A : num_t)
    (v x0 : vec3) (t : num_t) :
  GravSim.force n p id A v x0 t
  = A *^ vsum n (fun j =>
      let d := (p !!! j - x0)%V in
      let r := norm d + HUGE * iverson j id in
      (/ r ^ 8 - 2 * / r ^ 14) *^ d).
Proof.
  unfold GravSim.force. f_equal.
  rewrite <- for_loop_sum. apply for_loop_ext. intros j acc _. cbv zeta.
  f_equal. rewrite num_of_bool_iverson.
  apply (lj_term (norm (p !!! j - x0)%V + HUGE * iverson j id)).
  pose proof (norm_nonneg (p !!! j - x0)%V). pose proof (iverson_range j id).
  unfold HUGE. nra.
Qed.

Lemma force_sum_own (n : nat) (p : list vec3) (i : nat) (eps sigma : num_t)
    (v : vec3) (t : num_t) :
  length p = n ->
  GravSim.force n p i (24 * eps * sigma) v (p !!! i) t
  = lennard_jones_acc eps sigma p i.
Proof.
  intros Hn. rewrite force_sum. unfold lennard_jones_acc. rewrite Hn. reflexivity.
Qed.

(** C5.  For a body index [i] of a position array [p] of length [n], the
    Lennard-Jones lambda of work item [i], called with the constant
    [A = 24 * eps * sigma] the kernel passes and evaluated at the body's
    own position, returns
    [A * sum_j (r^-8 - 2 * r^-14) * (p_j - p_i)] over [j = 0 .. n-1],
    with [r = |p_j - p_i| + HUGE * [j == i]]. *)
Theorem lennard_jones_formula (n : nat) (p : list vec3) (i : nat)
    (eps sigma : num_t) (v : vec3) (t : num_t) :
  length p = n -> (i < n)%nat ->
  GravSim.force n p i (24 * eps * sigma) v (p !!! i) t
  = lennard_jones_acc eps sigma p i.
Proof.
  intros Hn _. apply force_sum_own. exact Hn.
Qed.

Lemma lennard_jones_formula_witness :
  GravSim.force 2 two_bodies 1 (24 * 1 * 1e-3) (sycl.vec3.splat 0)
                (two_bodies !!! 1%nat) 0
  = lennard_jones_acc 1 1e-3 two_bodies 1.
Proof. apply (lennard_jones_formula 2 two_bodies 1); [reflexivity | lia]. Defined.

(** Two bodies one unit apart with [eps = sigma = 1]: at distance 1 the
    bracket is [1 - 2], so body 0 is pushed away from body 1 with
    acceleration 24. *)
Example force_two_bodies :
  GravSim.force 2 two_bodies 0 (24 * 1 * 1) (sycl.vec3.splat 0)
                (sycl.vec3.make 0 0 0) 0
  = sycl.vec3.make (-24) 0 0.
Proof.
  rewrite force_sum. unfold vsum, two_bodies, norm, iverson, HUGE. simpl.
  replace ((0 - 0) * (0 - 0) + (0 - 0) * (0 - 0) + (0 - 0) * (0 - 0)) with 0 by ring.
  replace ((1 - 0) * (1 - 0) + (0 - 0) * (0 - 0) + (0 - 0) * (0 - 0)) with 1 by ring.
  rewrite sqrt_0, sqrt_1. apply vec3_eq; simpl; field; lra.
Qed.

(** ** The filling loops of the constructors *)

Lemma insert_at_drop {A : Type} (pre l : list A) (k : nat) (v : A) :
  length pre = k -> (k < length l)%nat ->
  <[k := v]> (pre ++ drop k l) = (pre ++ [v]) ++ drop (S k) l.
Proof.
  intros Hpre Hk.
  rewrite insert_app_r_alt by lia.
  rewrite Hpre, Nat.sub_diag.
  destruct (lookup_lt_is_Some_2 l k Hk) as [y Hy].
  rewrite (drop_S l y k Hy). simpl. rewrite <- app_assoc. reflexivity.
Qed.

Lemma map_seq_snoc {A : Type} (f : nat -> A) (k : nat) :
  map f (seq 0 (S k)) = map f (seq 0 k) ++ [f k].
Proof. rewrite seq_S, map_app. reflexivity. Qed.

Lemma for_loop_S {S : Type} (n : nat) (body : nat -> S -> S) (init : S) :
  for_loop (Datatypes.S n) body init = body n (for_loop n body init).
Proof. unfold for_loop. rewrite seq_S, fold_left_app. reflexivity. Qed.

Section FillLoop.
Variable d : nat -> num_t.
Variables V P : nat -> vec3.
Variable body : nat -> mt19937.t * SyclBufs.t -> mt19937.t * SyclBufs.t.

Hypothesis body_stores : forall i c accs,
  (i < length (SyclBufs.vel accs))%nat ->
  body i (mt19937.make d c, accs)
  = (mt19937.make d (3 + c),
     SyclBufs.set_pos i (P c) (SyclBufs.set_vel i (V c) accs)).

(** After [k] iterations the first [k] entries are stored and the rest
    of both arrays is as before. *)
Lemma fill_loop_prefix (c : nat) (accs : SyclBufs.t) (k : nat) :
  (k <= length (SyclBufs.vel accs))%nat ->
  (k <= length (SyclBufs.pos accs))%nat ->
  for_loop k body (mt19937.make d c, accs)
  = (mt19937.make d (3 * k + c),
     {| SyclBufs.vel := SyclBufs.vel (filled V P c k) ++ drop k (SyclBufs.vel accs);
        SyclBufs.pos := SyclBufs.pos (filled V P c k) ++ drop k (SyclBufs.pos accs) |}).
Proof.
  induction k as [|k IH]; intros Hv Hp.
  - unfold for_loop. simpl. rewrite !drop_0. destruct accs; reflexivity.
  - rewrite for_loop_S, IH by lia.
    rewrite body_stores.
    2:{ cbn [SyclBufs.vel filled].
        rewrite length_app, length_map, length_seq, length_drop. lia. }
    f_equal; [f_equal; lia|].
    unfold SyclBufs.set_pos, SyclBufs.set_vel, filled.
    cbn [SyclBufs.vel SyclBufs.pos].
    rewrite !insert_at_drop by (rewrite ?length_map, ?length_seq; lia).
    rewrite !map_seq_snoc. reflexivity.
Qed.

Lemma fill_loop_all (c n : nat) (accs : SyclBufs.t) :
  length (SyclBufs.vel accs) = n -> length (SyclBufs.pos accs) = n ->
  for_loop n body (mt19937.make d c, accs)
  = (mt19937.make d (3 * n + c), filled V P c n).
Proof.
  intros Hv Hp. rewrite fill_loop_prefix by lia.
  rewrite !drop_ge, !app_nil_r by lia. reflexivity.
Qed.

End FillLoop.

Lemma SyclBufs_ctor_lengths (n : nat) (raw : nat -> vec3 * vec3) :
  length (SyclBufs.vel (SyclBufs.ctor n raw)) = n
  /\ length (SyclBufs.pos (SyclBufs.ctor n raw)) = n.
Proof. unfold SyclBufs.ctor. simpl. rewrite !length_map, !length_seq. auto. Qed.

Lemma set_vel_twice (i : nat) (v v' : vec3) (accs : SyclBufs.t) :
  SyclBufs.set_vel i v' (SyclBufs.set_vel i v accs) = SyclBufs.set_vel i v' accs.
Proof. unfold SyclBufs.set_vel. simpl. rewrite list_insert_insert_eq. reflexivity. Qed.

Lemma vel_set_vel (i : nat) (v : vec3) (accs : SyclBufs.t) :
  (i < length (SyclBufs.vel accs))%nat ->
  SyclBufs.vel (SyclBufs.set_vel i v accs) !!! i = v.
Proof. intros Hi. simpl. apply list_lookup_total_insert_eq. exact Hi. Qed.

(** Resolves which member the constructors write, swap to and read. *)
Ltac ctor_roles :=
  cbn [GravSim.base GravSim.with_bufs GravSim.with_time GravSim.m_bufs
       GravSim.m_n_bodies DoubleBuf.ctor DoubleBuf.write DoubleBuf.read
       DoubleBuf.swap DoubleBuf.assign DoubleBuf.buffer DoubleBuf.deref
       DoubleBuf.m_a DoubleBuf.m_b].

(** What the loop bodies of the two constructors do with the generator
    and the accessors. *)
Lemma cylinder_body_stores (p : distrib_cylinder.t) (d : nat -> num_t)
    (i c : nat) (accs : SyclBufs.t) :
  let rmin := sycl.vec2.x (distrib_cylinder.radius p) in
  let rmax := sycl.vec2.y (distrib_cylinder.radius p) in
  (i < length (SyclBufs.vel accs))%nat ->
  GravSim.cylinder_body p
    (uniform_real_distribution.make (rmin * rmin) (rmax * rmax))
    (uniform_real_distribution.make (sycl.vec2.x (distrib_cylinder.angle p))
                                    (sycl.vec2.y (distrib_cylinder.angle p)))
    (uniform_real_distribution.make (sycl.vec2.x (distrib_cylinder.height p))
                                    (sycl.vec2.y (distrib_cylinder.height p)))
    i (mt19937.make d c, accs)
  = (mt19937.make d (3 + c),
     SyclBufs.set_pos i (cylinder_pos p d c)
       (SyclBufs.set_vel i (cylinder_vel p d c) accs)).
Proof.
  intros rmin rmax Hi.
  unfold GravSim.cylinder_body, uniform_real_distribution.call,
    mt19937.generate_canonical.
  cbn [mt19937.draws mt19937.consumed uniform_real_distribution.a
       uniform_real_distribution.b].
  rewrite vel_set_vel by exact Hi. rewrite set_vel_twice. reflexivity.
Qed.

Lemma sphere_body_stores (p : distrib_sphere.t) (d : nat -> num_t)
    (i c : nat) (accs : SyclBufs.t) :
  let rmin := sycl.vec2.x (distrib_sphere.radius p) in
  let rmax := sycl.vec2.y (distrib_sphere.radius p) in
  GravSim.sphere_body
    (uniform_real_distribution.make 0 (2 * 3.141592))
    (uniform_real_distribution.make (-1) 1)
    (uniform_real_distribution.make (rmin * rmin * rmin) (rmax * rmax * rmax))
    i (mt19937.make d c, accs)
  = (mt19937.make d (3 + c),
     SyclBufs.set_pos i (sphere_pos p d c)
       (SyclBufs.set_vel i (sycl.vec3.make 0 0 0) accs)).
Proof. reflexivity. Qed.

(** The body arrays a constructor hands to the reader: entry [i] is made
    from the draws [3 i], [3 i + 1] and [3 i + 2] after the generator's
    starting position, whatever the storage held before. *)
Lemma ctor_cylinder_bufs (n : nat) (p : distrib_cylinder.t) (g : mt19937.t)
    (u : GravSim.uninit_t) :
  read_bufs (GravSim.ctor_cylinder n p g u)
  = filled (cylinder_vel p (mt19937.draws g)) (cylinder_pos p (mt19937.draws g))
           (mt19937.consumed g) n.
Proof.
  unfold GravSim.ctor_cylinder. destruct g as [d c].
  ctor_roles.
  destruct (SyclBufs_ctor_lengths n (GravSim.raw_b u)) as [Hv Hp].
  rewrite (fill_loop_all d _ _ _
             (fun i c accs => cylinder_body_stores p d i c accs) c n _ Hv Hp).
  reflexivity.
Qed.

Lemma ctor_sphere_bufs (n : nat) (p : distrib_sphere.t) (g : mt19937.t)
    (u : GravSim.uninit_t) :
  read_bufs (GravSim.ctor_sphere n p g u)
  = filled (fun _ => sycl.vec3.make 0 0 0) (sphere_pos p (mt19937.draws g))
           (mt19937.consumed g) n.
Proof.
  unfold GravSim.ctor_sphere. destruct g as [d c].
  ctor_roles.
  destruct (SyclBufs_ctor_lengths n (GravSim.raw_b u)) as [Hv Hp].
  rewrite (fill_loop_all d _ _ _
             (fun i c accs _ => sphere_body_stores p d i c accs) c n _ Hv Hp).
  reflexivity.
Qed.

Lemma filled_lookup (V P : nat -> vec3) (c n i : nat) :
  (i < n)%nat ->
  SyclBufs.vel (filled V P c n) !!! i = V (3 * i + c)%nat
  /\ SyclBufs.pos (filled V P c n) !!! i = P (3 * i + c)%nat.
Proof.
  intros Hi. unfold filled. cbn [SyclBufs.vel SyclBufs.pos].
  rewrite !list_lookup_total_alt, !list_lookup_fmap, !lookup_seq_lt by exact Hi.
  split; reflexivity.
Qed.

Lemma filled_ext (V P V' P' : nat -> vec3) (c c' n : nat) :
  (forall i, (i < n)%nat -> V (3 * i + c)%nat = V' (3 * i + c')%nat) ->
  (forall i, (i < n)%nat -> P (3 * i + c)%nat = P' (3 * i + c')%nat) ->
  filled V P c n = filled V' P' c' n.
Proof.
  intros HV HP. unfold filled.
  f_equal; apply map_ext_in; intros i Hi; apply in_seq in Hi;
    [apply HV | apply HP]; lia.
Qed.

(** ** Determinism of the samplers *)

Lemma cylinder_vel_ext (p : distrib_cylinder.t) (d d' : nat -> num_t) (k k' : nat) :
  d k = d' k' -> d (S k) = d' (S k') ->
  cylinder_vel p d k = cylinder_vel p d' k'.
Proof.
  intros H0 H1. unfold cylinder_vel, cylinder_r, cylinder_phi.
  rewrite H0, H1. reflexivity.
Qed.

Lemma cylinder_pos_ext (p : distrib_cylinder.t) (d d' : nat -> num_t) (k k' : nat) :
  d k = d' k' -> d (S k) = d' (S k') -> d (S (S k)) = d' (S (S k')) ->
  cylinder_pos p d k = cylinder_pos p d' k'.
Proof.
  intros H0 H1 H2. unfold cylinder_pos, cylinder_r, cylinder_phi, cylinder_h.
  rewrite H0, H1, H2. reflexivity.
Qed.

Lemma sphere_pos_ext (p : distrib_sphere.t) (d d' : nat -> num_t) (k k' : nat) :
  d k = d' k' -> d (S k) = d' (S k') -> d (S (S k)) = d' (S (S k')) ->
  sphere_pos p d k = sphere_pos p d' k'.
Proof.
  intros H0 H1 H2. unfold sphere_pos, sphere_r, sphere_cost, sphere_phi.
  rewrite H0, H1, H2. reflexivity.
Qed.

(** The three draws of body [i] under [same_draws]. *)
Lemma same_draws_body (n : nat) (g1 g2 : mt19937.t) (i : nat) :
  same_draws (3 * n) g1 g2 -> (i < n)%nat ->
  let d1 := mt19937.draws g1 in
  let d2 := mt19937.draws g2 in
  let k1 := (3 * i + mt19937.consumed g1)%nat in
  let k2 := (3 * i + mt19937.consumed g2)%nat in
  d1 k1 = d2 k2 /\ d1 (S k1) = d2 (S k2) /\ d1 (S (S k1)) = d2 (S (S k2)).
Proof.
  intros Hsame Hi d1 d2 k1 k2. subst d1 d2 k1 k2.
  pose proof (Hsame (3 * i)%nat ltac:(lia)) as H0.
  pose proof (Hsame (3 * i + 1)%nat ltac:(lia)) as H1.
  pose proof (Hsame (3 * i + 2)%nat ltac:(lia)) as H2.
  replace (mt19937.consumed g1 + 3 * i)%nat
    with (3 * i + mt19937.consumed g1)%nat in H0 by lia.
  replace (mt19937.consumed g2 + 3 * i)%nat
    with (3 * i + mt19937.consumed g2)%nat in H0 by lia.
  replace (mt19937.consumed g1 + (3 * i + 1))%nat
    with (S (3 * i + mt19937.consumed g1)) in H1 by lia.
  replace (mt19937.consumed g2 + (3 * i + 1))%nat
    with (S (3 * i + mt19937.consumed g2)) in H1 by lia.
  replace (mt19937.consumed g1 + (3 * i + 2))%nat
    with (S (S (3 * i + mt19937.consumed g1))) in H2 by lia.
  replace (mt19937.consumed g2 + (3 * i + 2))%nat
    with (S (S (3 * i + mt19937.consumed g2))) in H2 by lia.
  auto.
Qed.

(** C2.  Two runs of a constructor with the same [n] and parameters whose
    generators deliver the same next [3 n] draws (all the loop consumes)
    produce identical position and velocity arrays, for the cylinder and
    for the sphere, whatever else differs between the runs (the rest of
    the streams, the previous contents of the storage). *)
Theorem samplers_deterministic (n : nat) (pc : distrib_cylinder.t)
    (ps : distrib_sphere.t) (g1 g2 : mt19937.t) (u1 u2 : GravSim.uninit_t) :
  same_draws (3 * n) g1 g2 ->
  (positions (GravSim.ctor_cylinder n pc g1 u1)
   = positions (GravSim.ctor_cylinder n pc g2 u2)
   /\ velocities (GravSim.ctor_cylinder n pc g1 u1)
      = velocities (GravSim.ctor_cylinder n pc g2 u2))
  /\ (positions (GravSim.ctor_sphere n ps g1 u1)
      = positions (GravSim.ctor_sphere n ps g2 u2)
      /\ velocities (GravSim.ctor_sphere n ps g1 u1)
         = velocities (GravSim.ctor_sphere n ps g2 u2)).
Proof.
  intros Hsame. unfold positions, velocities.
  rewrite !ctor_cylinder_bufs, !ctor_sphere_bufs.
  assert (Hc : filled (cylinder_vel pc (mt19937.draws g1))
                      (cylinder_pos pc (mt19937.draws g1)) (mt19937.consumed g1) n
             = filled (cylinder_vel pc (mt19937.draws g2))
                      (cylinder_pos pc (mt19937.draws g2)) (mt19937.consumed g2) n).
  { apply filled_ext; intros i Hi;
      destruct (same_draws_body n g1 g2 i Hsame Hi) as (H0 & H1 & H2).
    - apply cylinder_vel_ext; assumption.
    - apply cylinder_pos_ext; assumption. }
  assert (Hs : filled (fun _ => sycl.vec3.make 0 0 0)
                      (sphere_pos ps (mt19937.draws g1)) (mt19937.consumed g1) n
             = filled (fun _ => sycl.vec3.make 0 0 0)
                      (sphere_pos ps (mt19937.draws g2)) (mt19937.consumed g2) n).
  { apply filled_ext; intros i Hi; [reflexivity|].
    destruct (same_draws_body n g1 g2 i Hsame Hi) as (H0 & H1 & H2).
    apply sphere_pos_ext; assumption. }
  rewrite Hc, Hs. repeat split; reflexivity.
Qed.

Lemma samplers_deterministic_witness :
  same_draws 3 (three_then_zero (/ 2)) (constant_rng (/ 2))
  /\ positions (GravSim.ctor_cylinder 1 ring_cylinder (three_then_zero (/ 2)) zeroed)
     = positions (GravSim.ctor_cylinder 1 ring_cylinder (constant_rng (/ 2)) stale).
Proof.
  assert (H : same_draws (3 * 1) (three_then_zero (/ 2)) (constant_rng (/ 2))).
  { intros k Hk. simpl. destruct k as [|[|[|k]]]; try reflexivity. simpl in Hk. lia. }
  split; [exact H|].
  exact (proj1 (proj1 (samplers_deterministic 1 ring_cylinder shell_sphere
                         (three_then_zero (/ 2)) (constant_rng (/ 2))
                         zeroed stale H))).
Defined.

(** ** Ranges of the sampled bodies *)

Lemma uniform_range (a b u : num_t) :
  a <= b -> 0 <= u < 1 -> a <= uniform a b u <= b.
Proof. unfold uniform. intros Hab Hu. split; nra. Qed.

Lemma sin_cos_sq (phi : num_t) : cos phi * cos phi + sin phi * sin phi = 1.
Proof.
  pose proof (sin2_cos2 phi) as H. unfold Rsqr in H. lra.
Qed.

Lemma cylinder_r_range (p : distrib_cylinder.t) (d : nat -> num_t) (k : nat) :
  let rmin := sycl.vec2.x (distrib_cylinder.radius p) in
  let rmax := sycl.vec2.y (distrib_cylinder.radius p) in
  0 <= rmin -> rmin <= rmax -> 0 <= d k < 1 ->
  rmin <= cylinder_r p d k <= rmax.
Proof.
  intros rmin rmax H0 Hle Hu. unfold cylinder_r. fold rmin rmax.
  assert (Hsq : rmin * rmin <= rmax * rmax) by nra.
  destruct (uniform_range _ _ _ Hsq Hu) as [Hlo Hhi].
  split.
  - apply Rle_trans with (sqrt (rmin * rmin)).
    + rewrite sqrt_square by exact H0. lra.
    + apply sqrt_le_1_alt. exact Hlo.
  - apply Rle_trans with (sqrt (rmax * rmax)).
    + apply sqrt_le_1_alt. exact Hhi.
    + rewrite sqrt_square by lra. lra.
Qed.

Lemma cylinder_r_nonneg (p : distrib_cylinder.t) (d : nat -> num_t) (k : nat) :
  0 <= cylinder_r p d k.
Proof. apply sqrt_pos. Qed.

Lemma radial_cylinder_pos (p : distrib_cylinder.t) (d : nat -> num_t) (k : nat) :
  radial (cylinder_pos p d k) = cylinder_r p d k.
Proof.
  unfold radial, cylinder_pos. cbn [sycl.vec3.x sycl.vec3.z].
  set (r := cylinder_r p d k). set (phi := cylinder_phi p d k).
  replace (r * cos phi * (r * cos phi) + r * sin phi * (r * sin phi))
    with (r * r * (cos phi * cos phi + sin phi * sin phi)) by ring.
  rewrite sin_cos_sq, Rmult_1_r.
  apply sqrt_square, cylinder_r_nonneg.
Qed.

Lemma cylinder_vel_tangent (p : distrib_cylinder.t) (d : nat -> num_t) (k : nat) :
  cylinder_vel p d k
  = (distrib_cylinder.speed p * cylinder_r p d k
     / sycl.vec2.y (distrib_cylinder.radius p))
    *^ sycl.vec3.make (- sin (cylinder_phi p d k)) 0 (cos (cylinder_phi p d k)).
Proof.
  unfold cylinder_vel. apply vec3_eq; simpl; unfold Rdiv; ring.
Qed.

Lemma norm_scale_tangent (a phi : num_t) :
  norm (a *^ sycl.vec3.make (- sin phi) 0 (cos phi)) = Rabs a.
Proof.
  unfold norm. cbn [sycl.vec3.scale sycl.vec3.x sycl.vec3.y sycl.vec3.z].
  replace (a * - sin phi * (a * - sin phi) + a * 0 * (a * 0)
           + a * cos phi * (a * cos phi))
    with (a * a * (cos phi * cos phi + sin phi * sin phi)) by ring.
  rewrite sin_cos_sq, Rmult_1_r. apply sqrt_Rsqr_abs.
Qed.

Lemma positions_ctor_cylinder (n : nat) (p : distrib_cylinder.t) (g : mt19937.t)
    (u : GravSim.uninit_t) (i : nat) :
  (i < n)%nat ->
  let k := (3 * i + mt19937.consumed g)%nat in
  velocities (GravSim.ctor_cylinder n p g u) !!! i
  = cylinder_vel p (mt19937.draws g) k
  /\ positions (GravSim.ctor_cylinder n p g u) !!! i
     = cylinder_pos p (mt19937.draws g) k.
Proof.
  intros Hi k. unfold velocities, positions. rewrite ctor_cylinder_bufs.
  apply filled_lookup. exact Hi.
Qed.

Lemma positions_ctor_sphere (n : nat) (p : distrib_sphere.t) (g : mt19937.t)
    (u : GravSim.uninit_t) (i : nat) :
  (i < n)%nat ->
  let k := (3 * i + mt19937.consumed g)%nat in
  velocities (GravSim.ctor_sphere n p g u) !!! i = sycl.vec3.make 0 0 0
  /\ positions (GravSim.ctor_sphere n p g u) !!! i
     = sphere_pos p (mt19937.draws g) k.
Proof.
  intros Hi k. unfold velocities, positions. rewrite ctor_sphere_bufs.
  apply (filled_lookup (fun _ => sycl.vec3.make 0 0 0)). exact Hi.
Qed.

(** C6, as the code has it.  For a cylinder with [0 <= rmin <= rmax],
    [0 < rmax] and [height_min <= height_max], every sampled body has its
    radial component [sqrt (x^2 + z^2)] in [[rmin, rmax]] and its height
    in [[height_min, height_max]]; its velocity is
    [(speed * r / rmax) * (- sin phi, 0, cos phi)] for the body's own
    radius [r] and angle [phi], hence orthogonal to the radial direction
    and of magnitude [|speed| * r / rmax]: for [speed >= 0] that is
    [speed * r / rmax], and [speed] itself for a body at [r = rmax]. *)
Theorem cylinder_sampler_bounds (n : nat) (p : distrib_cylinder.t)
    (g : mt19937.t) (u : GravSim.uninit_t) (i : nat) :
  let rmin := sycl.vec2.x (distrib_cylinder.radius p) in
  let rmax := sycl.vec2.y (distrib_cylinder.radius p) in
  let hmin := sycl.vec2.x (distrib_cylinder.height p) in
  let hmax := sycl.vec2.y (distrib_cylinder.height p) in
  0 <= rmin -> rmin <= rmax -> 0 < rmax -> hmin <= hmax ->
  canonical g -> (i < n)%nat ->
  let pos := positions (GravSim.ctor_cylinder n p g u) !!! i in
  let vel := velocities (GravSim.ctor_cylinder n p g u) !!! i in
  let phi := cylinder_phi p (mt19937.draws g) (3 * i + mt19937.consumed g) in
  rmin <= radial pos <= rmax
  /\ hmin <= sycl.vec3.y pos <= hmax
  /\ pos = sycl.vec3.make (radial pos * cos phi) (sycl.vec3.y pos)
                          (radial pos * sin phi)
  /\ vel = (distrib_cylinder.speed p * radial pos / rmax)
           *^ sycl.vec3.make (- sin phi) 0 (cos phi)
  /\ dot vel (sycl.vec3.make (sycl.vec3.x pos) 0 (sycl.vec3.z pos)) = 0
  /\ norm vel = Rabs (distrib_cylinder.speed p) * radial pos / rmax
  /\ (0 <= distrib_cylinder.speed p ->
      norm vel = distrib_cylinder.speed p * radial pos / rmax
      /\ (radial pos = rmax -> norm vel = distrib_cylinder.speed p)).
Proof.
  intros rmin rmax hmin hmax H0 Hr Hmax Hh Hcan Hi pos vel phi.
  destruct (positions_ctor_cylinder n p g u i Hi) as [Hvel Hpos].
  fold pos in Hpos. fold vel in Hvel. cbv beta zeta in Hvel, Hpos.
  set (k := (3 * i + mt19937.consumed g)%nat) in *.
  set (d := mt19937.draws g) in *.
  assert (Hrad : radial pos = cylinder_r p d k)
    by (rewrite Hpos; apply radial_cylinder_pos).
  pose proof (cylinder_r_range p d k H0 Hr (Hcan k)) as Hrange.
  pose proof (cylinder_r_nonneg p d k) as Hnn.
  assert (Hv : vel = (distrib_cylinder.speed p * radial pos / rmax)
                     *^ sycl.vec3.make (- sin phi) 0 (cos phi))
    by (rewrite Hvel, Hrad; apply cylinder_vel_tangent).
  split; [rewrite Hrad; exact Hrange|].
  split.
  { rewrite Hpos. unfold cylinder_pos, cylinder_h. cbn [sycl.vec3.y].
    apply uniform_range; [exact Hh | apply Hcan]. }
  split.
  { rewrite Hrad. rewrite Hpos at 1. rewrite Hpos at 1. reflexivity. }
  split; [exact Hv|].
  split.
  { rewrite Hv. unfold dot. rewrite Hpos. unfold cylinder_pos.
    cbn [sycl.vec3.scale sycl.vec3.x sycl.vec3.y sycl.vec3.z]. fold phi. ring. }
  assert (Hnorm : norm vel
                  = Rabs (distrib_cylinder.speed p) * radial pos / rmax).
  { rewrite Hv, norm_scale_tangent, Hrad.
    unfold Rdiv. rewrite !Rabs_mult.
    rewrite (Rabs_right (cylinder_r p d k)) by lra.
    rewrite (Rabs_right (/ rmax)) by (left; apply Rinv_0_lt_compat; exact Hmax).
    reflexivity. }
  split; [exact Hnorm|].
  intros Hs. rewrite Hnorm, (Rabs_right (distrib_cylinder.speed p)) by lra.
  split; [reflexivity|].
  intros ->. field. lra.
Qed.

Lemma cylinder_sampler_bounds_witness :
  1 <= radial (positions (GravSim.ctor_cylinder 1 ring_cylinder
                            (constant_rng 0) zeroed) !!! 0%nat) <= 2.
Proof.
  refine (proj1 (cylinder_sampler_bounds 1 ring_cylinder (constant_rng 0)
                   zeroed 0 _ _ _ _ _ _)); simpl; try lra; try lia.
  intros k. simpl. lra.
Defined.

(** C6 as stated fails: with the ordered radius range [[-1, -1]] the one
    sampled body lies at radius 1, outside the range. *)
Lemma cylinder_negative_radius_escapes :
  let p := negative_cylinder in
  let sim := GravSim.ctor_cylinder 1 p (constant_rng 0) zeroed in
  (sycl.vec2.x (distrib_cylinder.radius p) <= sycl.vec2.y (distrib_cylinder.radius p)
   /\ sycl.vec2.x (distrib_cylinder.height p) <= sycl.vec2.y (distrib_cylinder.height p)
   /\ canonical (constant_rng 0))
  /\ radial (positions sim !!! 0%nat) = 1
  /\ ~ (sycl.vec2.x (distrib_cylinder.radius p) <= radial (positions sim !!! 0%nat)
        <= sycl.vec2.y (distrib_cylinder.radius p)).
Proof.
  intros p sim.
  assert (Hrad : radial (positions sim !!! 0%nat) = 1).
  { unfold sim.
    destruct (positions_ctor_cylinder 1 p (constant_rng 0) zeroed 0 ltac:(lia))
      as [_ Hpos].
    rewrite Hpos, radial_cylinder_pos.
    unfold cylinder_r, uniform. simpl.
    replace (0 * (-1 * -1 - -1 * -1) + -1 * -1) with 1 by ring.
    apply sqrt_1. }
  split; [|split; [exact Hrad|]].
  - split; [simpl; lra | split; [simpl; lra | intros k; simpl; lra]].
  - rewrite Hrad. simpl. lra.
Qed.

(** [sycl::pow(x, 1/3)] is the cube root on a base that is not negative. *)
Lemma pow_third (x : num_t) :
  0 <= x -> 0 <= sycl.pow x (1 / 3) /\ sycl.pow x (1 / 3) ^ 3 = x.
Proof.
  intros Hx. unfold sycl.pow.
  destruct (Req_dec_T x 0) as [->|Hne].
  - destruct (Rlt_dec 0 (1 / 3)) as [_|Hn]; [|lra]. split; [lra | ring].
  - assert (Hpos : 0 < x) by lra.
    assert (Hr : 0 < Rpower x (1 / 3)) by (unfold Rpower; apply exp_pos).
    split; [lra|].
    rewrite <- (Rpower_pow 3 _ Hr), Rpower_mult.
    replace (1 / 3 * INR 3) with 1 by (simpl; lra).
    apply Rpower_1. exact Hpos.
Qed.

Lemma cube_le_inv (a b : num_t) : 0 <= a -> 0 <= b -> a ^ 3 <= b ^ 3 -> a <= b.
Proof.
  intros Ha Hb Hcube. destruct (Rle_lt_dec a b) as [Hle|Hlt]; [exact Hle|].
  exfalso.
  assert (Hq : 0 < a * a + a * b + b * b) by nra.
  assert (Hd : 0 < (a - b) * (a * a + a * b + b * b))
    by (apply Rmult_lt_0_compat; lra).
  nra.
Qed.

Lemma sphere_r_range (p : distrib_sphere.t) (d : nat -> num_t) (k : nat) :
  let rmin := sycl.vec2.x (distrib_sphere.radius p) in
  let rmax := sycl.vec2.y (distrib_sphere.radius p) in
  0 <= rmin -> rmin <= rmax -> 0 <= d k < 1 ->
  rmin <= sphere_r p d k <= rmax.
Proof.
  intros rmin rmax H0 Hle Hu. unfold sphere_r. fold rmin rmax.
  set (a := rmin * rmin * rmin). set (b := rmax * rmax * rmax).
  assert (Hab : a <= b).
  { unfold a, b. assert (rmin * rmin <= rmax * rmax) by nra. nra. }
  destruct (uniform_range a b (d k) Hab Hu) as [Hlo Hhi].
  assert (Ha : 0 <= a).
  { unfold a. assert (0 <= rmin * rmin) by nra. nra. }
  destruct (pow_third (uniform a b (d k)) ltac:(lra)) as [Hnn Hcube].
  split; apply cube_le_inv; try lra.
  - rewrite Hcube. replace (rmin ^ 3) with a by (unfold a; ring). exact Hlo.
  - rewrite Hcube. replace (rmax ^ 3) with b by (unfold b; ring). exact Hhi.
Qed.

Lemma norm_sphere_pos (p : distrib_sphere.t) (d : nat -> num_t) (k : nat) :
  0 <= sphere_r p d k -> 0 <= d (S k) < 1 ->
  norm (sphere_pos p d k) = sphere_r p d k.
Proof.
  intros Hr Hu. unfold norm, sphere_pos. cbn [sycl.vec3.x sycl.vec3.y sycl.vec3.z].
  set (r := sphere_r p d k) in *. set (cost := sphere_cost d k).
  set (phi := sphere_phi d k).
  assert (Hc : 0 <= 1 - cost * cost).
  { destruct (uniform_range (-1) 1 (d (S k)) ltac:(lra) Hu) as [Hlo Hhi].
    fold (sphere_cost d k) in Hlo, Hhi. fold cost in Hlo, Hhi. nra. }
  pose proof (sqrt_sqrt _ Hc) as Hs.
  set (sint := sqrt (1 - cost * cost)) in *.
  replace (r * sint * cos phi * (r * sint * cos phi)
           + r * sint * sin phi * (r * sint * sin phi) + r * cost * (r * cost))
    with (r * r * ((sint * sint) * (cos phi * cos phi + sin phi * sin phi)
                   + cost * cost)) by ring.
  rewrite sin_cos_sq, Hs.
  replace (r * r * ((1 - cost * cost) * 1 + cost * cost)) with (r * r) by ring.
  apply sqrt_square. exact Hr.
Qed.

(** C7.  For a sphere with [0 <= rmin <= rmax], every sampled body has
    [rmin <= |p| <= rmax] and the zero vector as velocity. *)
Theorem sphere_sampler_bounds (n : nat) (p : distrib_sphere.t)
    (g : mt19937.t) (u : GravSim.uninit_t) (i : nat) :
  let rmin := sycl.vec2.x (distrib_sphere.radius p) in
  let rmax := sycl.vec2.y (distrib_sphere.radius p) in
  0 <= rmin -> rmin <= rmax -> canonical g -> (i < n)%nat ->
  rmin <= norm (positions (GravSim.ctor_sphere n p g u) !!! i) <= rmax
  /\ velocities (GravSim.ctor_sphere n p g u) !!! i = sycl.vec3.make 0 0 0.
Proof.
  intros rmin rmax H0 Hle Hcan Hi.
  destruct (positions_ctor_sphere n p g u i Hi) as [Hvel Hpos].
  cbv beta zeta in Hpos. rewrite Hpos.
  set (k := (3 * i + mt19937.consumed g)%nat).
  pose proof (sphere_r_range p (mt19937.draws g) k H0 Hle (Hcan k)) as Hrange.
  cbv zeta in Hrange. fold rmin rmax in Hrange.
  rewrite norm_sphere_pos by (try apply Hcan; lra).
  split; [exact Hrange | exact Hvel].
Qed.

Lemma sphere_sampler_bounds_witness :
  1 <= norm (positions (GravSim.ctor_sphere 2 shell_sphere
                          (constant_rng (/ 2)) stale) !!! 1%nat) <= 2
  /\ velocities (GravSim.ctor_sphere 2 shell_sphere
                   (constant_rng (/ 2)) stale) !!! 1%nat
     = sycl.vec3.make 0 0 0.
Proof.
  refine (sphere_sampler_bounds 2 shell_sphere (constant_rng (/ 2)) stale 1
            _ _ _ _); simpl; try lra; try lia.
  intros k. simpl. lra.
Defined.

(** ** Construction and configuration errors *)

Lemma filled_lengths (V P : nat -> vec3) (c n : nat) :
  length (SyclBufs.vel (filled V P c n)) = n
  /\ length (SyclBufs.pos (filled V P c n)) = n.
Proof. unfold filled. simpl. rewrite !length_map, !length_seq. auto. Qed.

Lemma ctor_cylinder_fields (n : nat) (p : distrib_cylinder.t) (g : mt19937.t)
    (u : GravSim.uninit_t) :
  let sim := GravSim.ctor_cylinder n p g u in
  GravSim.m_n_bodies sim = n /\ GravSim.m_force sim = GRAVITY
  /\ GravSim.m_time sim = 0.
Proof.
  unfold GravSim.ctor_cylinder.
  destruct (for_loop _ _ _) as [rng' accs]. repeat split.
Qed.

Lemma ctor_sphere_fields (n : nat) (p : distrib_sphere.t) (g : mt19937.t)
    (u : GravSim.uninit_t) :
  let sim := GravSim.ctor_sphere n p g u in
  GravSim.m_n_bodies sim = n /\ GravSim.m_force sim = GRAVITY
  /\ GravSim.m_time sim = 0.
Proof.
  unfold GravSim.ctor_sphere.
  destruct (for_loop _ _ _) as [rng' accs]. repeat split.
Qed.

(** C1 as stated fails: constructing with [n_bodies == 0] is an invalid
    configuration by the spec, and both constructors return an instance
    instead of reporting a [ConfigurationError]; nor is one reported for
    a height range with [min > max]. *)
Lemma zero_bodies_construct_without_error :
  (cylinder_config_invalid 0 ring_cylinder
   /\ construct_cylinder 0 ring_cylinder (constant_rng 0) zeroed
      <> Raised ConfigurationError)
  /\ (sphere_config_invalid 0 shell_sphere
      /\ construct_sphere 0 shell_sphere (constant_rng 0) zeroed
         <> Raised ConfigurationError)
  /\ (cylinder_config_invalid 1 inverted_cylinder
      /\ construct_cylinder 1 inverted_cylinder (constant_rng 0) zeroed
         <> Raised ConfigurationError).
Proof.
  split; [|split].
  - split; [left; reflexivity | discriminate].
  - split; [left; reflexivity | discriminate].
  - split; [|discriminate].
    right. right. right. unfold range_inverted. simpl. lra.
Qed.

(** C1, as the code has it.  No constructor and no setter validates
    anything or reports an error.  With the preconditions of the three
    (cylinder) or one (sphere) [std::uniform_real_distribution] met,
    construction returns an instance for every [n_bodies], zero included:
    it holds [n_bodies] positions and velocities, time 0 and force
    GRAVITY.  The setters take one value and no range, and store it
    whatever it is. *)
Theorem construction_reports_no_error (n : nat) (pc : distrib_cylinder.t)
    (ps : distrib_sphere.t) (g : mt19937.t) (u : GravSim.uninit_t) :
  let cmin := sycl.vec2.x (distrib_cylinder.radius pc) in
  let cmax := sycl.vec2.y (distrib_cylinder.radius pc) in
  let smin := sycl.vec2.x (distrib_sphere.radius ps) in
  let smax := sycl.vec2.y (distrib_sphere.radius ps) in
  distribution_ok (uniform_real_distribution.make (cmin * cmin) (cmax * cmax)) ->
  distribution_ok (uniform_real_distribution.make
                     (sycl.vec2.x (distrib_cylinder.angle pc))
                     (sycl.vec2.y (distrib_cylinder.angle pc))) ->
  distribution_ok (uniform_real_distribution.make
                     (sycl.vec2.x (distrib_cylinder.height pc))
                     (sycl.vec2.y (distrib_cylinder.height pc))) ->
  distribution_ok (uniform_real_distribution.make
                     (smin * smin * smin) (smax * smax * smax)) ->
  (exists sim, construct_cylinder n pc g u = Returned sim
     /\ GravSim.m_n_bodies sim = n
     /\ length (positions sim) = n /\ length (velocities sim) = n
     /\ GravSim.m_time sim = 0 /\ GravSim.m_force sim = GRAVITY)
  /\ (exists sim, construct_sphere n ps g u = Returned sim
     /\ GravSim.m_n_bodies sim = n
     /\ length (positions sim) = n /\ length (velocities sim) = n
     /\ GravSim.m_time sim = 0 /\ GravSim.m_force sim = GRAVITY)
  /\ (forall v sim,
        GravSim.G (GravSim.m_grav_params (GravSim.set_grav_G v sim)) = v
        /\ GravSim.damping (GravSim.m_grav_params (GravSim.set_grav_damping v sim)) = v
        /\ GravSim.eps (GravSim.m_lj_params (GravSim.set_lj_eps v sim)) = v
        /\ GravSim.sigma (GravSim.m_lj_params (GravSim.set_lj_sigma v sim)) = v).
Proof.
  intros cmin cmax smin smax _ _ _ _.
  split; [|split].
  - exists (GravSim.ctor_cylinder n pc g u).
    destruct (ctor_cylinder_fields n pc g u) as (Hn & Hf & Ht).
    unfold positions, velocities. rewrite ctor_cylinder_bufs.
    destruct (filled_lengths (cylinder_vel pc (mt19937.draws g))
                (cylinder_pos pc (mt19937.draws g)) (mt19937.consumed g) n)
      as [Hv Hp].
    repeat split; assumption.
  - exists (GravSim.ctor_sphere n ps g u).
    destruct (ctor_sphere_fields n ps g u) as (Hn & Hf & Ht).
    unfold positions, velocities. rewrite ctor_sphere_bufs.
    destruct (filled_lengths (fun _ => sycl.vec3.make 0 0 0)
                (sphere_pos ps (mt19937.draws g)) (mt19937.consumed g) n)
      as [Hv Hp].
    repeat split; assumption.
  - intros v sim. repeat split.
Qed.

Lemma construction_reports_no_error_witness :
  exists sim,
    construct_cylinder 0 ring_cylinder (constant_rng 0) zeroed = Returned sim
    /\ GravSim.m_n_bodies sim = 0%nat
    /\ length (positions sim) = 0%nat /\ length (velocities sim) = 0%nat
    /\ GravSim.m_time sim = 0 /\ GravSim.m_force sim = GRAVITY.
Proof.
  refine (proj1 (construction_reports_no_error 0 ring_cylinder shell_sphere
                   (constant_rng 0) zeroed _ _ _ _));
    unfold distribution_ok; simpl; lra.
Defined.

(** ** The kernels write the whole write generation *)

(** Work items touch disjoint indices, so the order in which
    [parallel_for] runs them is immaterial. *)
Lemma set_commute (i j : nat) (vi pi vj pj : vec3) (w : SyclBufs.t) :
  i <> j ->
  SyclBufs.set_pos i pi (SyclBufs.set_vel i vi
    (SyclBufs.set_pos j pj (SyclBufs.set_vel j vj w)))
  = SyclBufs.set_pos j pj (SyclBufs.set_vel j vj
      (SyclBufs.set_pos i pi (SyclBufs.set_vel i vi w))).
Proof.
  intros Hij. unfold SyclBufs.set_pos, SyclBufs.set_vel. simpl.
  rewrite (list_insert_insert_ne (SyclBufs.vel w) i j) by exact Hij.
  rewrite (list_insert_insert_ne (SyclBufs.pos w) i j) by exact Hij.
  reflexivity.
Qed.

Lemma work_items_commute rk4 integrator (f f' : vec3 -> vec3 -> num_t -> vec3)
    (vel pos : list vec3) (t : num_t) (i j : nat) (w : SyclBufs.t) :
  i <> j ->
  GravSim.integrate rk4 integrator f vel pos t i
    (GravSim.integrate rk4 integrator f' vel pos t j w)
  = GravSim.integrate rk4 integrator f' vel pos t j
      (GravSim.integrate rk4 integrator f vel pos t i w).
Proof.
  intros Hij. unfold GravSim.integrate.
  destruct integrator as [[|]|]; [| |reflexivity].
  - destruct (integrate_step_euler f _ _ _ _) as [[v1 p1] t1].
    destruct (integrate_step_euler f' _ _ _ _) as [[v1' p1'] t1'].
    apply set_commute. exact Hij.
  - destruct (rk4 f _ _ _ _) as [[v1 p1] t1].
    destruct (rk4 f' _ _ _ _) as [[v1' p1'] t1'].
    apply set_commute. exact Hij.
Qed.

Section StoreLoop.
Variables V P : nat -> vec3.
Variable kernel : nat -> SyclBufs.t -> SyclBufs.t.
Hypothesis kernel_stores : forall id w,
  kernel id w = SyclBufs.set_pos id (P id) (SyclBufs.set_vel id (V id) w).

Lemma store_loop_prefix (w : SyclBufs.t) (k : nat) :
  (k <= length (SyclBufs.vel w))%nat -> (k <= length (SyclBufs.pos w))%nat ->
  for_loop k kernel w
  = {| SyclBufs.vel := map V (seq 0 k) ++ drop k (SyclBufs.vel w);
       SyclBufs.pos := map P (seq 0 k) ++ drop k (SyclBufs.pos w) |}.
Proof.
  induction k as [|k IH]; intros Hv Hp.
  - unfold for_loop. simpl. rewrite !drop_0. destruct w; reflexivity.
  - rewrite for_loop_S, IH, kernel_stores by lia.
    unfold SyclBufs.set_pos, SyclBufs.set_vel. cbn [SyclBufs.vel SyclBufs.pos].
    rewrite !insert_at_drop by (rewrite ?length_map, ?length_seq; lia).
    rewrite !map_seq_snoc. reflexivity.
Qed.

Lemma store_loop_all (w : SyclBufs.t) (n : nat) :
  length (SyclBufs.vel w) = n -> length (SyclBufs.pos w) = n ->
  GravSim.parallel_for n kernel w
  = {| SyclBufs.vel := map V (seq 0 n); SyclBufs.pos := map P (seq 0 n) |}.
Proof.
  intros Hv Hp. unfold GravSim.parallel_for.
  rewrite store_loop_prefix by lia.
  rewrite !drop_ge, !app_nil_r by lia. reflexivity.
Qed.

End StoreLoop.

Lemma ctor_cylinder_sized (n : nat) (p : distrib_cylinder.t) (g : mt19937.t)
    (u : GravSim.uninit_t) :
  sized (GravSim.ctor_cylinder n p g u)
  /\ GravSim.m_n_bodies (GravSim.ctor_cylinder n p g u) = n.
Proof.
  pose proof (ctor_cylinder_bufs n p g u) as Hread.
  destruct (ctor_cylinder_fields n p g u) as (Hn & _ & _).
  split; [|exact Hn].
  intros m. rewrite Hn. revert Hread.
  unfold read_bufs, GravSim.ctor_cylinder.
  destruct (for_loop _ _ _) as [rng' accs].
  ctor_roles.
  intros ->. destruct m; cbn [DoubleBuf.deref DoubleBuf.m_a DoubleBuf.m_b].
  - apply SyclBufs_ctor_lengths.
  - apply filled_lengths.
Qed.

Lemma ctor_sphere_sized (n : nat) (p : distrib_sphere.t) (g : mt19937.t)
    (u : GravSim.uninit_t) :
  sized (GravSim.ctor_sphere n p g u)
  /\ GravSim.m_n_bodies (GravSim.ctor_sphere n p g u) = n.
Proof.
  pose proof (ctor_sphere_bufs n p g u) as Hread.
  destruct (ctor_sphere_fields n p g u) as (Hn & _ & _).
  split; [|exact Hn].
  intros m. rewrite Hn. revert Hread.
  unfold read_bufs, GravSim.ctor_sphere.
  destruct (for_loop _ _ _) as [rng' accs].
  ctor_roles.
  intros ->. destruct m; cbn [DoubleBuf.deref DoubleBuf.m_a DoubleBuf.m_b].
  - apply SyclBufs_ctor_lengths.
  - apply filled_lengths.
Qed.

(** With the Euler integrator selected, the command group leaves in the
    write generation, at every index, the Euler update of that body
    under the selected force. *)
Lemma submit_euler rk4 (g : GravSim.t) :
  sized g -> GravSim.m_integrator g = Some EULER ->
  let v1 := fun id =>
    (velocities g !!! id
     + GravSim.STEP_SIZE
       *^ force_of g id (velocities g !!! id) (positions g !!! id)
                   (GravSim.m_time g))%V in
  let p1 := fun id => (positions g !!! id + GravSim.STEP_SIZE *^ v1 id)%V in
  GravSim.submit rk4 g
  = {| SyclBufs.vel := map v1 (seq 0 (GravSim.m_n_bodies g));
       SyclBufs.pos := map p1 (seq 0 (GravSim.m_n_bodies g)) |}.
Proof.
  intros Hsized Hint v1 p1.
  destruct (Hsized (DoubleBuf.write (GravSim.m_bufs g))) as [Hv Hp].
  unfold GravSim.submit. rewrite Hint.
  subst v1 p1. unfold force_of, positions, velocities, read_bufs.
  destruct (GravSim.m_force g);
    apply store_loop_all; try assumption; intros id w; reflexivity.
Qed.

(** One Euler step, body by body: the new velocity is the old one plus
    [STEP_SIZE] times the selected force at the old state, the new
    position the old one plus [STEP_SIZE] times the new velocity. *)
Lemma euler_step_body rk4 (g : GravSim.t) (i : nat) :
  sized g -> GravSim.m_integrator g = Some EULER ->
  (i < GravSim.m_n_bodies g)%nat ->
  let g' := GravSim.internal_step rk4 g in
  velocities g' !!! i
  = (velocities g !!! i
     + GravSim.STEP_SIZE
       *^ force_of g i (velocities g !!! i) (positions g !!! i)
                   (GravSim.m_time g))%V
  /\ positions g' !!! i
     = (positions g !!! i + GravSim.STEP_SIZE *^ velocities g' !!! i)%V.
Proof.
  intros Hsized Hint Hi g'.
  assert (Hread : read_bufs g' = GravSim.submit rk4 g).
  { unfold g', read_bufs. rewrite internal_step_read, internal_step_bufs.
    rewrite deref_swap, deref_assign_same. reflexivity. }
  rewrite (submit_euler rk4 g Hsized Hint) in Hread.
  assert (Hlook : forall (f : nat -> vec3),
             map f (seq 0 (GravSim.m_n_bodies g)) !!! i = f i).
  { intros f.
    rewrite list_lookup_total_alt, list_lookup_fmap, lookup_seq_lt by exact Hi.
    reflexivity. }
  assert (Hv : velocities g' !!! i
               = (velocities g !!! i
                  + GravSim.STEP_SIZE
                    *^ force_of g i (velocities g !!! i) (positions g !!! i)
                                (GravSim.m_time g))%V).
  { unfold velocities at 1. rewrite Hread. cbn [SyclBufs.vel]. apply Hlook. }
  split; [exact Hv|].
  rewrite Hv. unfold positions at 1. rewrite Hread. cbn [SyclBufs.pos].
  apply Hlook.
Qed.

(** Under gravity the force is the gravity sum over the old positions. *)
Lemma euler_gravity_step rk4 (g : GravSim.t) (i : nat) :
  sized g -> GravSim.m_integrator g = Some EULER ->
  GravSim.m_force g = GRAVITY -> (i < GravSim.m_n_bodies g)%nat ->
  velocities (GravSim.internal_step rk4 g) !!! i
  = (velocities g !!! i
     + GravSim.STEP_SIZE
       *^ gravity_acc (GravSim.G (GravSim.m_grav_params g))
                      (GravSim.damping (GravSim.m_grav_params g))
                      (positions g) i)%V.
Proof.
  intros Hsized Hint Hforce Hi.
  destruct (euler_step_body rk4 g i Hsized Hint Hi) as [Hv _].
  rewrite Hv. unfold force_of. rewrite Hforce, grav_sum_own; [reflexivity|].
  apply (Hsized (DoubleBuf.read (GravSim.m_bufs g))).
Qed.

(** Under Lennard-Jones it is the Lennard-Jones sum. *)
Lemma euler_lennard_jones_step rk4 (g : GravSim.t) (i : nat) :
  sized g -> GravSim.m_integrator g = Some EULER ->
  GravSim.m_force g = LENNARD_JONES -> (i < GravSim.m_n_bodies g)%nat ->
  velocities (GravSim.internal_step rk4 g) !!! i
  = (velocities g !!! i
     + GravSim.STEP_SIZE
       *^ lennard_jones_acc (GravSim.eps (GravSim.m_lj_params g))
                            (GravSim.sigma (GravSim.m_lj_params g))
                            (positions g) i)%V.
Proof.
  intros Hsized Hint Hforce Hi.
  destruct (euler_step_body rk4 g i Hsized Hint Hi) as [Hv _].
  rewrite Hv. unfold force_of. rewrite Hforce, force_sum_own; [reflexivity|].
  apply (Hsized (DoubleBuf.read (GravSim.m_bufs g))).
Qed.

(** ** The sizes of the generations are invariant *)

Lemma integrate_lengths rk4 integrator (f : vec3 -> vec3 -> num_t -> vec3)
    (vel pos : list vec3) (t : num_t) (id : nat) (w : SyclBufs.t) :
  let w' := GravSim.integrate rk4 integrator f vel pos t id w in
  length (SyclBufs.vel w') = length (SyclBufs.vel w)
  /\ length (SyclBufs.pos w') = length (SyclBufs.pos w).
Proof.
  unfold GravSim.integrate. destruct integrator as [[|]|]; [| |split; reflexivity].
  - destruct (integrate_step_euler f _ _ _ _) as [[v1 p1] t1].
    simpl. rewrite !length_insert. split; reflexivity.
  - destruct (rk4 f _ _ _ _) as [[v1 p1] t1].
    simpl. rewrite !length_insert. split; reflexivity.
Qed.

Lemma parallel_for_lengths (n : nat) (kernel : nat -> SyclBufs.t -> SyclBufs.t)
    (w : SyclBufs.t) :
  (forall id w0,
      length (SyclBufs.vel (kernel id w0)) = length (SyclBufs.vel w0)
      /\ length (SyclBufs.pos (kernel id w0)) = length (SyclBufs.pos w0)) ->
  length (SyclBufs.vel (GravSim.parallel_for n kernel w)) = length (SyclBufs.vel w)
  /\ length (SyclBufs.pos (GravSim.parallel_for n kernel w)) = length (SyclBufs.pos w).
Proof.
  intros Hk. unfold GravSim.parallel_for.
  induction n as [|n [IHv IHp]]; [split; reflexivity|].
  rewrite for_loop_S. destruct (Hk n (for_loop n kernel w)) as [Hv Hp].
  rewrite Hv, Hp. split; assumption.
Qed.

Lemma submit_lengths rk4 (g : GravSim.t) :
  length (SyclBufs.vel (GravSim.submit rk4 g)) = length (SyclBufs.vel (write_bufs g))
  /\ length (SyclBufs.pos (GravSim.submit rk4 g)) = length (SyclBufs.pos (write_bufs g)).
Proof.
  unfold GravSim.submit, write_bufs.
  destruct (GravSim.m_force g); apply parallel_for_lengths;
    intros id w0; apply integrate_lengths.
Qed.

Lemma internal_step_sized rk4 (g : GravSim.t) :
  sized g ->
  sized (GravSim.internal_step rk4 g)
  /\ GravSim.m_n_bodies (GravSim.internal_step rk4 g) = GravSim.m_n_bodies g.
Proof.
  intros Hsized. split; [|reflexivity].
  intros m. rewrite internal_step_bufs, deref_swap.
  change (GravSim.m_n_bodies (GravSim.internal_step rk4 g))
    with (GravSim.m_n_bodies g).
  destruct (member_eq_dec (DoubleBuf.write (GravSim.m_bufs g)) m) as [<-|Hne].
  - rewrite deref_assign_same.
    destruct (submit_lengths rk4 g) as [Hv Hp]. rewrite Hv, Hp.
    apply Hsized.
  - rewrite deref_assign_other by exact Hne. apply Hsized.
Qed.

Lemma steps_sized rk4 (k : nat) (g : GravSim.t) :
  sized g ->
  sized (steps rk4 k g) /\ GravSim.m_n_bodies (steps rk4 k g) = GravSim.m_n_bodies g.
Proof.
  intros Hsized. induction k as [|k [IHs IHn]]; [split; [exact Hsized | reflexivity]|].
  rewrite steps_S. destruct (internal_step_sized rk4 _ IHs) as [Hs Hn].
  split; [exact Hs | rewrite Hn; exact IHn].
Qed.


(** * Further properties of the code *)

(** ** DoubleBuf: writing, then swapping *)

(** X1.  Storing a value through [write()] leaves what [read()] returns
    untouched; after the next [swap()], [read()] returns the stored value
    and [write()] designates the value that was read before. *)
Theorem DoubleBuf_write_then_swap {T : Type} (d : DoubleBuf.t T) (v : T) :
  let d' := DoubleBuf.assign d (DoubleBuf.write d) v in
  DoubleBuf.deref d' (DoubleBuf.read d') = DoubleBuf.deref d (DoubleBuf.read d)
  /\ DoubleBuf.deref (DoubleBuf.swap d') (DoubleBuf.read (DoubleBuf.swap d')) = v
  /\ DoubleBuf.deref (DoubleBuf.swap d') (DoubleBuf.write (DoubleBuf.swap d'))
     = DoubleBuf.deref d (DoubleBuf.read d).
Proof.
  intros d'. subst d'.
  rewrite read_swap, write_swap, !deref_swap, read_assign, write_assign.
  rewrite deref_assign_same.
  rewrite deref_assign_other by (apply not_eq_sym, read_write_distinct).
  auto.
Qed.

(** ** Invariants over every sequence of calls *)

Lemma setter_sized rk4 (g : GravSim.t) (c : call_t) :
  is_step c = false -> sized g ->
  sized (do_call rk4 g c)
  /\ GravSim.m_n_bodies (do_call rk4 g c) = GravSim.m_n_bodies g
  /\ GravSim.m_time (do_call rk4 g c) = GravSim.m_time g
  /\ GravSim.m_bufs (do_call rk4 g c) = GravSim.m_bufs g.
Proof.
  intros Hc Hsized.
  destruct c; try discriminate;
    (split; [exact Hsized | split; [reflexivity | split; reflexivity]]).
Qed.

Lemma do_calls_snoc rk4 (cs : list call_t) (c : call_t) (g : GravSim.t) :
  do_calls rk4 (cs ++ [c]) g = do_call rk4 (do_calls rk4 cs g) c.
Proof. unfold do_calls. rewrite fold_left_app. reflexivity. Qed.

Lemma count_steps_snoc (cs : list call_t) (c : call_t) :
  count_steps (cs ++ [c]) = (count_steps cs + (if is_step c then 1 else 0))%nat.
Proof.
  unfold count_steps. rewrite List.filter_app, length_app. simpl.
  destruct (is_step c); reflexivity.
Qed.

Lemma do_calls_invariant rk4 (cs : list call_t) (g : GravSim.t) :
  sized g ->
  let g' := do_calls rk4 cs g in
  sized g'
  /\ GravSim.m_n_bodies g' = GravSim.m_n_bodies g
  /\ GravSim.m_time g' = GravSim.m_time g + INR (count_steps cs) * GravSim.STEP_SIZE
  /\ DoubleBuf.read (GravSim.m_bufs g')
     = (if Nat.even (count_steps cs) then DoubleBuf.read (GravSim.m_bufs g)
        else DoubleBuf.write (GravSim.m_bufs g))
  /\ DoubleBuf.write (GravSim.m_bufs g')
     = (if Nat.even (count_steps cs) then DoubleBuf.write (GravSim.m_bufs g)
        else DoubleBuf.read (GravSim.m_bufs g)).
Proof.
  intros Hsized. induction cs as [|c cs IH] using rev_ind.
  - simpl. split; [exact Hsized|]. split; [reflexivity|]. split; [lra|].
    split; reflexivity.
  - cbv zeta in IH |- *. rewrite do_calls_snoc, count_steps_snoc.
    destruct IH as (Hs & Hn & Ht & Hr & Hw).
    destruct (is_step c) eqn:Hc.
    + destruct c; try discriminate. cbn [do_call].
      destruct (internal_step_sized rk4 _ Hs) as [Hs' Hn'].
      rewrite internal_step_time, internal_step_read, internal_step_write.
      rewrite Hn', Hn, Ht, Hr, Hw, Nat.add_1_r, S_INR, Nat.even_succ.
      rewrite <- Nat.negb_even.
      split; [exact Hs'|]. split; [reflexivity|]. split; [lra|].
      destruct (Nat.even (count_steps cs)); split; reflexivity.
    + destruct (setter_sized rk4 _ c Hc Hs) as (Hs' & Hn' & Ht' & Hb').
      rewrite Hn', Ht', Hb', Nat.add_0_r.
      split; [exact Hs'|]. split; [exact Hn|]. split; [exact Ht|].
      split; assumption.
Qed.

Lemma do_calls_from_ctor rk4 (n : nat) (cs : list call_t) (g0 : GravSim.t) :
  sized g0 -> GravSim.m_n_bodies g0 = n -> GravSim.m_time g0 = 0 ->
  DoubleBuf.read (GravSim.m_bufs g0) = M_b ->
  DoubleBuf.write (GravSim.m_bufs g0) = M_a ->
  let g := do_calls rk4 cs g0 in
  length (positions g) = n /\ length (velocities g) = n
  /\ GravSim.m_n_bodies g = n
  /\ GravSim.m_time g = INR (count_steps cs) * GravSim.STEP_SIZE
  /\ DoubleBuf.read (GravSim.m_bufs g)
     = (if Nat.even (count_steps cs) then M_b else M_a).
Proof.
  intros Hs0 Hn0 Ht0 Hr0 Hw0 g.
  destruct (do_calls_invariant rk4 cs g0 Hs0) as (Hs & Hn & Ht & Hr & _).
  fold g in Hs, Hn, Ht, Hr.
  destruct (Hs (DoubleBuf.read (GravSim.m_bufs g))) as [Hv Hp].
  unfold positions, velocities, read_bufs.
  rewrite Hp, Hv, Hn, Hn0, Ht, Ht0, Hr, Hr0, Hw0.
  repeat split; try reflexivity. lra.
Qed.

Lemma ctor_cylinder_roles (n : nat) (p : distrib_cylinder.t) (g : mt19937.t)
    (u : GravSim.uninit_t) :
  DoubleBuf.read (GravSim.m_bufs (GravSim.ctor_cylinder n p g u)) = M_b
  /\ DoubleBuf.write (GravSim.m_bufs (GravSim.ctor_cylinder n p g u)) = M_a.
Proof.
  unfold GravSim.ctor_cylinder. destruct (for_loop _ _ _) as [r a].
  split; reflexivity.
Qed.

Lemma ctor_sphere_roles (n : nat) (p : distrib_sphere.t) (g : mt19937.t)
    (u : GravSim.uninit_t) :
  DoubleBuf.read (GravSim.m_bufs (GravSim.ctor_sphere n p g u)) = M_b
  /\ DoubleBuf.write (GravSim.m_bufs (GravSim.ctor_sphere n p g u)) = M_a.
Proof.
  unfold GravSim.ctor_sphere. destruct (for_loop _ _ _) as [r a].
  split; reflexivity.
Qed.

(** X2.  In every state reached from either constructor by any sequence
    of setter calls and steps, both arrays an external reader sees hold
    exactly the [n_bodies] given at construction, the time is the number
    of steps taken times [STEP_SIZE], and the read generation is member
    [m_b] after an even number of steps and [m_a] after an odd number. *)
Theorem engine_invariant (rk4 : rk4_t) (n : nat) (pc : distrib_cylinder.t)
    (ps : distrib_sphere.t) (rng : mt19937.t) (u : GravSim.uninit_t)
    (cs : list call_t) :
  (let g := do_calls rk4 cs (GravSim.ctor_cylinder n pc rng u) in
   length (positions g) = n /\ length (velocities g) = n
   /\ GravSim.m_n_bodies g = n
   /\ GravSim.m_time g = INR (count_steps cs) * GravSim.STEP_SIZE
   /\ DoubleBuf.read (GravSim.m_bufs g)
      = (if Nat.even (count_steps cs) then M_b else M_a))
  /\ (let g := do_calls rk4 cs (GravSim.ctor_sphere n ps rng u) in
      length (positions g) = n /\ length (velocities g) = n
      /\ GravSim.m_n_bodies g = n
      /\ GravSim.m_time g = INR (count_steps cs) * GravSim.STEP_SIZE
      /\ DoubleBuf.read (GravSim.m_bufs g)
         = (if Nat.even (count_steps cs) then M_b else M_a)).
Proof.
  split.
  - destruct (ctor_cylinder_sized n pc rng u) as [Hs Hn].
    destruct (ctor_cylinder_roles n pc rng u) as [Hr Hw].
    apply do_calls_from_ctor; auto using ctor_cylinder_time.
  - destruct (ctor_sphere_sized n ps rng u) as [Hs Hn].
    destruct (ctor_sphere_roles n ps rng u) as [Hr Hw].
    apply do_calls_from_ctor; auto using ctor_sphere_time.
Qed.

(** ** What a step does to the two generations *)

Lemma read_bufs_internal_step rk4 (g : GravSim.t) :
  read_bufs (GravSim.internal_step rk4 g) = GravSim.submit rk4 g.
Proof.
  unfold read_bufs. rewrite internal_step_read, internal_step_bufs.
  rewrite deref_swap, deref_assign_same. reflexivity.
Qed.

Lemma write_bufs_internal_step rk4 (g : GravSim.t) :
  write_bufs (GravSim.internal_step rk4 g) = read_bufs g.
Proof.
  unfold write_bufs, read_bufs. rewrite internal_step_write, internal_step_bufs.
  rewrite deref_swap.
  apply deref_assign_other, not_eq_sym, read_write_distinct.
Qed.

(** X3.  A step never modifies the arrays it reads: whatever force and
    integrator are selected, the velocities and positions that were
    readable before the step are, unchanged, the contents of the write
    generation after it, and the readable arrays after the step are
    exactly what the kernel left in the former write generation. *)
Theorem step_keeps_previous_generation (rk4 : rk4_t) (g : GravSim.t) :
  write_bufs (GravSim.internal_step rk4 g) = read_bufs g
  /\ SyclBufs.vel (write_bufs (GravSim.internal_step rk4 g)) = velocities g
  /\ SyclBufs.pos (write_bufs (GravSim.internal_step rk4 g)) = positions g
  /\ read_bufs (GravSim.internal_step rk4 g) = GravSim.submit rk4 g.
Proof.
  unfold velocities, positions.
  rewrite write_bufs_internal_step, read_bufs_internal_step. auto.
Qed.

Lemma for_loop_id {S : Type} (n : nat) (init : S) :
  for_loop n (fun _ st => st) init = init.
Proof.
  induction n as [|n IH]; [reflexivity|]. rewrite for_loop_S. exact IH.
Qed.

Lemma submit_no_integrator rk4 (g : GravSim.t) :
  GravSim.m_integrator g = None -> GravSim.submit rk4 g = write_bufs g.
Proof.
  intros Hint. unfold GravSim.submit, GravSim.parallel_for, write_bufs.
  rewrite Hint. destruct (GravSim.m_force g); apply for_loop_id.
Qed.

(** X4.  When [m_integrator] holds neither [EULER] nor [RK4] (no
    constructor initialises it), neither branch of the kernels' [if] /
    [else if] runs: a step stores no body, so what becomes readable is
    the previous write generation as it was, the swap and the time
    advance still happen, and a second step brings the original arrays
    back. *)
Theorem step_without_integrator (rk4 : rk4_t) (g : GravSim.t) :
  GravSim.m_integrator g = None ->
  let g1 := GravSim.internal_step rk4 g in
  let g2 := GravSim.internal_step rk4 g1 in
  read_bufs g1 = write_bufs g /\ write_bufs g1 = read_bufs g
  /\ GravSim.m_time g1 = GravSim.m_time g + GravSim.STEP_SIZE
  /\ read_bufs g2 = read_bufs g /\ write_bufs g2 = write_bufs g.
Proof.
  intros Hint g1 g2.
  assert (H1 : read_bufs g1 = write_bufs g).
  { unfold g1. rewrite read_bufs_internal_step. apply submit_no_integrator, Hint. }
  assert (H2 : write_bufs g1 = read_bufs g)
    by apply write_bufs_internal_step.
  split; [exact H1|]. split; [exact H2|]. split; [reflexivity|].
  unfold g2. rewrite read_bufs_internal_step, write_bufs_internal_step.
  rewrite submit_no_integrator by exact Hint. auto.
Qed.

Lemma step_without_integrator_witness :
  let g := GravSim.ctor_sphere 1 shell_sphere (constant_rng 0) zeroed in
  read_bufs (GravSim.internal_step integrate_step_euler g) = write_bufs g.
Proof.
  intros g.
  refine (proj1 (step_without_integrator integrate_step_euler g _)).
  reflexivity.
Defined.

Lemma submit_rk4 (rk4 : rk4_t) (g : GravSim.t) :
  sized g -> GravSim.m_integrator g = Some RK4 ->
  let out := fun id =>
    rk4 (force_of g id) GravSim.STEP_SIZE (velocities g !!! id)
        (positions g !!! id) (GravSim.m_time g) in
  GravSim.submit rk4 g
  = {| SyclBufs.vel := map (fun id => fst (fst (out id)))
                           (seq 0 (GravSim.m_n_bodies g));
       SyclBufs.pos := map (fun id => snd (fst (out id)))
                           (seq 0 (GravSim.m_n_bodies g)) |}.
Proof.
  intros Hsized Hint out.
  destruct (Hsized (DoubleBuf.write (GravSim.m_bufs g))) as [Hv Hp].
  unfold GravSim.submit. rewrite Hint.
  subst out. unfold force_of, positions, velocities, read_bufs.
  destruct (GravSim.m_force g);
    apply store_loop_all; try assumption; intros id w;
    unfold GravSim.integrate;
    destruct (rk4 _ _ _ _ _) as [[v1 p1] t1]; reflexivity.
Qed.

(** X5.  With [RK4] selected, a step gives every body [i] the velocity
    and the position that [integrate_step_rk4] returns for the selected
    force lambda of work item [i], the step size 0.5 and the body's
    velocity and position and the time before the step: every index is
    written, from the read generation alone. *)
Theorem step_rk4_writes_every_body (rk4 : rk4_t) (g : GravSim.t) (i : nat) :
  sized g -> GravSim.m_integrator g = Some RK4 ->
  (i < GravSim.m_n_bodies g)%nat ->
  let out := rk4 (force_of g i) GravSim.STEP_SIZE (velocities g !!! i)
                 (positions g !!! i) (GravSim.m_time g) in
  velocities (GravSim.internal_step rk4 g) !!! i = fst (fst out)
  /\ positions (GravSim.internal_step rk4 g) !!! i = snd (fst out)
  /\ length (velocities (GravSim.internal_step rk4 g)) = GravSim.m_n_bodies g
  /\ length (positions (GravSim.internal_step rk4 g)) = GravSim.m_n_bodies g.
Proof.
  intros Hsized Hint Hi out.
  unfold velocities at 1 2, positions at 1 2.
  rewrite read_bufs_internal_step, (submit_rk4 rk4 g Hsized Hint).
  cbn [SyclBufs.vel SyclBufs.pos].
  rewrite !length_map, !length_seq.
  assert (Hlook : forall (f : nat -> vec3),
             map f (seq 0 (GravSim.m_n_bodies g)) !!! i = f i).
  { intros f.
    rewrite list_lookup_total_alt, list_lookup_fmap, lookup_seq_lt by exact Hi.
    reflexivity. }
  rewrite !Hlook. auto.
Qed.

Lemma set_integrator_sized (i : integrator_t) (g : GravSim.t) :
  sized g -> sized (GravSim.set_integrator i g).
Proof. intros Hs m. apply Hs. Qed.

Lemma step_rk4_writes_every_body_witness :
  let g := GravSim.set_integrator RK4
             (GravSim.ctor_sphere 2 shell_sphere (constant_rng (/ 2)) zeroed) in
  length (positions (GravSim.internal_step integrate_step_euler g)) = 2%nat.
Proof.
  intros g.
  refine (proj2 (proj2 (proj2
    (step_rk4_writes_every_body integrate_step_euler g 0 _ _ _)))).
  - apply set_integrator_sized, ctor_sphere_sized.
  - reflexivity.
  - unfold g. cbn [GravSim.set_integrator GravSim.m_n_bodies].
    rewrite (proj2 (ctor_sphere_sized 2 shell_sphere (constant_rng (/ 2)) zeroed)).
    lia.
Defined.

(** ** Sums of vectors *)

Lemma vsum_S (n : nat) (f : nat -> vec3) :
  vsum (S n) f = (vsum n f + f n)%V.
Proof. rewrite <- !for_loop_sum, for_loop_S. reflexivity. Qed.

Lemma vsum_zero (n : nat) : vsum n (fun _ => sycl.vec3.splat 0) = sycl.vec3.splat 0.
Proof.
  induction n as [|n IH]; [reflexivity|].
  rewrite vsum_S, IH. apply vec3_add_0_l.
Qed.

Lemma vsum_add (n : nat) (f h : nat -> vec3) :
  vsum n (fun j => (f j + h j)%V) = (vsum n f + vsum n h)%V.
Proof.
  induction n as [|n IH]; [symmetry; apply vec3_add_0_l|].
  rewrite !vsum_S, IH. apply vec3_eq; simpl; ring.
Qed.

Lemma vsum_scale (n : nat) (k : num_t) (f : nat -> vec3) :
  vsum n (fun j => k *^ f j) = k *^ vsum n f.
Proof.
  induction n as [|n IH]; [apply vec3_eq; simpl; ring|].
  rewrite !vsum_S, IH. apply vec3_eq; simpl; ring.
Qed.

Lemma vsum_swap (n m : nat) (f : nat -> nat -> vec3) :
  vsum n (fun i => vsum m (fun j => f i j))
  = vsum m (fun j => vsum n (fun i => f i j)).
Proof.
  induction n as [|n IH].
  - simpl. symmetry. apply vsum_zero.
  - rewrite vsum_S, IH, <- vsum_add. apply vsum_ext. intros j _.
    rewrite vsum_S. reflexivity.
Qed.

(** A double sum of pairwise opposite terms vanishes. *)
Lemma vsum_antisymmetric (n : nat) (f : nat -> nat -> vec3) :
  (forall i j, (f i j + f j i)%V = sycl.vec3.splat 0) ->
  vsum n (fun i => vsum n (fun j => f i j)) = sycl.vec3.splat 0.
Proof.
  intros Hanti.
  set (T := vsum n (fun i => vsum n (fun j => f i j))).
  assert (Hdouble : (T + T)%V = sycl.vec3.splat 0).
  { unfold T at 2. rewrite vsum_swap. unfold T. rewrite <- vsum_add.
    rewrite <- (vsum_zero n). apply vsum_ext. intros i _.
    rewrite <- vsum_add, <- (vsum_zero n). apply vsum_ext. intros j _.
    apply Hanti. }
  apply (f_equal sycl.vec3.x) in Hdouble as Hx.
  apply (f_equal sycl.vec3.y) in Hdouble as Hy.
  apply (f_equal sycl.vec3.z) in Hdouble as Hz.
  simpl in Hx, Hy, Hz. apply vec3_eq; simpl; lra.
Qed.

Lemma norm_sub_sym (a b : vec3) : norm (a - b)%V = norm (b - a)%V.
Proof. unfold norm. f_equal. simpl. ring. Qed.

Lemma iverson_sym (i j : nat) : iverson i j = iverson j i.
Proof. unfold iverson. destruct (decide (i = j)), (decide (j = i)); congruence. Qed.

Lemma over_opposite (a b : vec3) (k : num_t) :
  ((a - b) ^/ k + (b - a) ^/ k)%V = sycl.vec3.splat 0.
Proof. apply vec3_eq; simpl; unfold Rdiv; ring. Qed.

Lemma scale_opposite (a b : vec3) (k : num_t) :
  (k *^ (a - b) + k *^ (b - a))%V = sycl.vec3.splat 0.
Proof. apply vec3_eq; simpl; ring. Qed.

Lemma scale_zero (k : num_t) : k *^ sycl.vec3.splat 0 = sycl.vec3.splat 0.
Proof. apply vec3_eq; simpl; ring. Qed.

(** ** The forces: self term, action and reaction, translation *)

(** X6.  Evaluated at a body's own position, as the kernels do, both
    force lambdas get nothing from the body itself: with a damping that
    is not negative the term [j = i] is the zero vector, and the
    constant 1e24 enters no other term.  The gravity lambda is [G] times the sum over the
    other bodies of [(p_j - p_i) / (|p_j - p_i|^3 + damping)], the
    Lennard-Jones lambda [A] times the sum over the other bodies of
    [(r^-8 - 2 r^-14) (p_j - p_i)] with [r = |p_j - p_i|]. *)
Theorem forces_exclude_self (n : nat) (p : list vec3) (i : nat)
    (G damping A : num_t) (v : vec3) (t : num_t) :
  0 <= damping ->
  GravSim.grav n p i G damping v (p !!! i) t
  = G *^ vsum n (fun j =>
      if decide (j = i) then sycl.vec3.splat 0
      else let d := (p !!! j - p !!! i)%V in d ^/ (norm d ^ 3 + damping))
  /\ GravSim.force n p i A v (p !!! i) t
     = A *^ vsum n (fun j =>
         if decide (j = i) then sycl.vec3.splat 0
         else let d := (p !!! j - p !!! i)%V in
              (/ norm d ^ 8 - 2 * / norm d ^ 14) *^ d).
Proof.
  intros _. split.
  - rewrite grav_sum. f_equal. apply vsum_ext. intros j _. cbv zeta.
    unfold iverson. destruct (decide (j = i)) as [->|Hne].
    + apply vec3_eq; simpl; unfold Rdiv; ring.
    + apply vec3_over_ext. ring.
  - rewrite force_sum. f_equal. apply vsum_ext. intros j _. cbv zeta.
    unfold iverson. destruct (decide (j = i)) as [->|Hne].
    + apply vec3_eq; simpl; ring.
    + replace (norm (p !!! j - p !!! i)%V + HUGE * 0)
        with (norm (p !!! j - p !!! i)%V) by ring.
      reflexivity.
Qed.

Lemma forces_exclude_self_witness :
  GravSim.grav 1 [sycl.vec3.make 1 2 3] 0 1e-5 1e-5 (sycl.vec3.splat 0)
               ([sycl.vec3.make 1 2 3] !!! 0%nat) 0
  = 1e-5 *^ vsum 1 (fun j =>
      if decide (j = 0%nat) then sycl.vec3.splat 0
      else let d := ([sycl.vec3.make 1 2 3] !!! j
                     - [sycl.vec3.make 1 2 3] !!! 0%nat)%V in
           d ^/ (norm d ^ 3 + 1e-5)).
Proof.
  refine (proj1 (forces_exclude_self 1 [sycl.vec3.make 1 2 3] 0 1e-5 1e-5 24
                   (sycl.vec3.splat 0) 0 _)).
  lra.
Defined.

(** X7.  Action and reaction under gravity: with a positive damping (so
    that no denominator vanishes) the accelerations the gravity kernel
    computes for the bodies of one step add up to the zero vector, for
    every position array. *)
Theorem gravity_accelerations_cancel (n : nat) (p vel : list vec3)
    (G damping t : num_t) :
  0 < damping ->
  vsum n (fun i => GravSim.grav n p i G damping (vel !!! i) (p !!! i) t)
  = sycl.vec3.splat 0.
Proof.
  intros _.
  rewrite (vsum_ext n _ (fun i => G *^ vsum n (fun j =>
             let d := (p !!! j - p !!! i)%V in
             d ^/ (norm d ^ 3 + damping + HUGE * iverson j i))))
    by (intros i _; apply grav_sum).
  rewrite vsum_scale.
  rewrite (vsum_antisymmetric n (fun i j =>
             let d := (p !!! j - p !!! i)%V in
             d ^/ (norm d ^ 3 + damping + HUGE * iverson j i))).
  - apply scale_zero.
  - intros i j. cbv zeta.
    rewrite (norm_sub_sym (p !!! i) (p !!! j)), (iverson_sym i j).
    apply over_opposite.
Qed.

Lemma gravity_accelerations_cancel_witness :
  vsum 2 (fun i => GravSim.grav 2 two_bodies i 1e-5 1e-5
                     ([sycl.vec3.splat 0; sycl.vec3.splat 0] !!! i)
                     (two_bodies !!! i) 0)
  = sycl.vec3.splat 0.
Proof.
  refine (gravity_accelerations_cancel 2 two_bodies
            [sycl.vec3.splat 0; sycl.vec3.splat 0] 1e-5 1e-5 0 _).
  lra.
Defined.

(** X8.  Action and reaction under the Lennard-Jones force: for bodies
    at pairwise different positions (so that no distance vanishes) the
    accelerations its kernel computes for the bodies of one step add up
    to the zero vector as well. *)
Theorem lennard_jones_accelerations_cancel (n : nat) (p vel : list vec3)
    (A t : num_t) :
  (forall i j, (i < n)%nat -> (j < n)%nat -> i <> j -> p !!! i <> p !!! j) ->
  vsum n (fun i => GravSim.force n p i A (vel !!! i) (p !!! i) t)
  = sycl.vec3.splat 0.
Proof.
  intros _.
  rewrite (vsum_ext n _ (fun i => A *^ vsum n (fun j =>
             let d := (p !!! j - p !!! i)%V in
             let r := norm d + HUGE * iverson j i in
             (/ r ^ 8 - 2 * / r ^ 14) *^ d)))
    by (intros i _; apply force_sum).
  rewrite vsum_scale.
  rewrite (vsum_antisymmetric n (fun i j =>
             let d := (p !!! j - p !!! i)%V in
             let r := norm d + HUGE * iverson j i in
             (/ r ^ 8 - 2 * / r ^ 14) *^ d)).
  - apply scale_zero.
  - intros i j. cbv zeta.
    rewrite (norm_sub_sym (p !!! i) (p !!! j)), (iverson_sym i j).
    apply scale_opposite.
Qed.

Lemma lennard_jones_accelerations_cancel_witness :
  vsum 2 (fun i => GravSim.force 2 two_bodies i 24
                     ([sycl.vec3.splat 0; sycl.vec3.splat 0] !!! i)
                     (two_bodies !!! i) 0)
  = sycl.vec3.splat 0.
Proof.
  refine (lennard_jones_accelerations_cancel 2 two_bodies
            [sycl.vec3.splat 0; sycl.vec3.splat 0] 24 0 _).
  intros i j Hi Hj Hij Heq.
  destruct i as [|[|i]], j as [|[|j]]; try lia;
    apply (f_equal sycl.vec3.x) in Heq; simpl in Heq; lra.
Defined.

Lemma shifted_lookup (d : vec3) (p : list vec3) (j : nat) :
  (j < length p)%nat -> shifted d p !!! j = (p !!! j + d)%V.
Proof.
  intros Hj. unfold shifted.
  change (map (fun q => (q + d)%V) p) with ((fun q => (q + d)%V) <$> p).
  apply (list_lookup_total_fmap (fun q => (q + d)%V)). exact Hj.
Qed.

Lemma sub_shift (a b d : vec3) : (a + d - (b + d))%V = (a - b)%V.
Proof. apply vec3_eq; simpl; ring. Qed.

(** X9.  Both forces depend on relative positions only: moving every
    body (and the evaluation point) by the same vector changes neither
    the gravity nor the Lennard-Jones acceleration of any work item. *)
Theorem forces_translation_invariant (n : nat) (p : list vec3) (i : nat)
    (d x0 : vec3) (G damping A : num_t) (v : vec3) (t : num_t) :
  length p = n ->
  GravSim.grav n (shifted d p) i G damping v (x0 + d)%V t
  = GravSim.grav n p i G damping v x0 t
  /\ GravSim.force n (shifted d p) i A v (x0 + d)%V t
     = GravSim.force n p i A v x0 t.
Proof.
  intros Hn. rewrite !grav_sum, !force_sum.
  split; f_equal; apply vsum_ext; intros j Hj; cbv zeta;
    rewrite shifted_lookup by lia; rewrite sub_shift; reflexivity.
Qed.

Lemma forces_translation_invariant_witness :
  GravSim.grav 2 (shifted (sycl.vec3.make 1 2 3) two_bodies) 0 1 0
               (sycl.vec3.splat 0) (sycl.vec3.make 0 0 0 + sycl.vec3.make 1 2 3)%V 0
  = GravSim.grav 2 two_bodies 0 1 0 (sycl.vec3.splat 0) (sycl.vec3.make 0 0 0) 0.
Proof.
  refine (proj1 (forces_translation_invariant 2 two_bodies 0
                   (sycl.vec3.make 1 2 3) (sycl.vec3.make 0 0 0) 1 0 24
                   (sycl.vec3.splat 0) 0 _)).
  reflexivity.
Defined.

(** ** Mandelbrot: the escape loop *)

(** One iteration [z := z^2 + c] keeps [|z|^2 <= 1/4] when
    [|c|^2 <= 1/16]. *)
Lemma mandel_step_inside (re im a b : num_t) :
  re * re + im * im <= / 16 -> a * a + b * b <= / 4 ->
  let a' := a * a - b * b + re in
  let b' := 2 * a * b + im in
  a' * a' + b' * b' <= / 4.
Proof.
  intros Hc Hz a' b'. subst a' b'.
  set (u := a * a - b * b). set (v := 2 * a * b).
  assert (Huv : u * u + v * v = (a * a + b * b) * (a * a + b * b))
    by (unfold u, v; ring).
  assert (Hnn : 0 <= a * a + b * b) by nra.
  assert (Hsq : (a * a + b * b) * (a * a + b * b) <= / 16) by nra.
  clearbody u v.
  pose proof (Rle_0_sqr (u - re)) as Hu. pose proof (Rle_0_sqr (v - im)) as Hv.
  unfold Rsqr in Hu, Hv.
  lra.
Qed.

Lemma how_mandel_loop_inside (fuel i : nat) (re im z_re z_im : num_t) :
  re * re + im * im <= / 16 -> z_re * z_re + z_im * z_im <= / 4 ->
  MandelbrotCalculator.how_mandel_loop fuel i re im z_re z_im = 1.
Proof.
  intros Hc. revert i z_re z_im.
  induction fuel as [|fuel IH]; intros i z_re z_im Hz; [reflexivity|].
  pose proof (mandel_step_inside re im z_re z_im Hc Hz) as Hstep.
  cbv zeta in Hstep. cbn [MandelbrotCalculator.how_mandel_loop].
  destruct (Rge_dec _ MandelbrotCalculator.DIVERGENCE_LIMIT) as [Hge|_].
  - unfold MandelbrotCalculator.DIVERGENCE_LIMIT in Hge. lra.
  - apply IH. exact Hstep.
Qed.

Lemma ln_2_pos : 0 < ln 2.
Proof. pose proof ln_lt_2. lra. Qed.

Lemma ln_le_mono (x y : num_t) : 0 < x -> x <= y -> ln x <= ln y.
Proof.
  intros Hx [Hlt| ->]; [|lra]. left. apply ln_increasing; assumption.
Qed.

(** The correction [nu] is at least 2 once [|z|^2] has passed 256. *)
Lemma nu_at_least_2 (abs_sq : num_t) :
  abs_sq >= 256 -> 2 <= ln (ln abs_sq / 2 / ln 2) / ln 2.
Proof.
  intros Hge. pose proof ln_2_pos as H2.
  assert (H256 : ln 256 = 8 * ln 2).
  { replace 256 with (2 ^ 8) by lra. rewrite ln_pow by lra. simpl. lra. }
  assert (H4 : ln 4 = 2 * ln 2).
  { replace 4 with (2 ^ 2) by lra. rewrite ln_pow by lra. simpl. lra. }
  assert (Hln : 8 * ln 2 <= ln abs_sq).
  { rewrite <- H256. apply ln_le_mono; lra. }
  assert (Hratio : 4 <= ln abs_sq / 2 / ln 2).
  { unfold Rdiv. rewrite Rmult_assoc.
    apply Rmult_le_reg_r with (ln 2); [exact H2|].
    rewrite !Rmult_assoc, Rinv_l by lra. lra. }
  assert (Hln2 : 2 * ln 2 <= ln (ln abs_sq / 2 / ln 2)).
  { rewrite <- H4. apply ln_le_mono; lra. }
  apply Rmult_le_reg_r with (ln 2); [exact H2|].
  unfold Rdiv. rewrite Rmult_assoc, Rinv_l by lra. lra.
Qed.

Lemma how_mandel_loop_bound (fuel i : nat) (re im z_re z_im : num_t) :
  (2 <= i + fuel)%nat ->
  MandelbrotCalculator.how_mandel_loop fuel i re im z_re z_im
  <= INR (i + fuel) - 2 \/
  MandelbrotCalculator.how_mandel_loop fuel i re im z_re z_im = 1.
Proof.
  revert i z_re z_im.
  induction fuel as [|fuel IH]; intros i z_re z_im Hsum; [right; reflexivity|].
  cbn [MandelbrotCalculator.how_mandel_loop].
  destruct (Rge_dec _ MandelbrotCalculator.DIVERGENCE_LIMIT) as [Hge|_].
  - left. cbv zeta. pose proof (nu_at_least_2 _ Hge) as Hnu.
    rewrite plus_INR, S_INR. pose proof (pos_INR fuel). lra.
  - replace (i + S fuel)%nat with (S i + fuel)%nat by lia.
    apply IH. lia.
Qed.

(** X10.  Points with [|c| <= 1/4] never leave the disc of radius 1/2:
    for them [how_mandel] runs all 500 iterations and returns 1, and the
    work item blends palette entry 1 with weight one, giving the colour
    (25, 7, 26, 255). *)
Theorem how_mandel_inside (re im : num_t) :
  re * re + im * im <= / 16 ->
  MandelbrotCalculator.how_mandel re im = 1
  /\ MandelbrotCalculator.blend (MandelbrotCalculator.how_mandel re im)
     = Some (vec4.make 25 7 26 255).
Proof.
  intros Hc.
  assert (H1 : MandelbrotCalculator.how_mandel re im = 1)
    by (apply how_mandel_loop_inside; [exact Hc | lra]).
  split; [exact H1|]. rewrite H1.
  unfold MandelbrotCalculator.blend, size_t_of_num.
  destruct (Rlt_dec (-1) 1) as [_|Hn]; [|lra].
  destruct (Rlt_dec 1 (2 ^ 64)) as [_|Hn]; [|exfalso; apply Hn; lra].
  replace (Int_part 1) with 1%Z
    by (apply Int_part_spec; simpl; lra).
  change (Z.to_nat 1) with 1%nat.
  unfold vec4.add, vec4.times, vec4.of_uchar4. simpl.
  f_equal. f_equal; lra.
Qed.

Lemma how_mandel_inside_witness :
  MandelbrotCalculator.how_mandel 0 0 = 1.
Proof.
  refine (proj1 (how_mandel_inside 0 0 _)). lra.
Defined.

(** X11.  The smoothed iteration count never exceeds 498: an escape at
    iteration [i < 500] returns [i + 1 - nu] with [nu >= 2], and without
    escape the result is 1. *)
Theorem how_mandel_at_most_498 (re im : num_t) :
  MandelbrotCalculator.how_mandel re im <= 498.
Proof.
  unfold MandelbrotCalculator.how_mandel.
  destruct (how_mandel_loop_bound MandelbrotCalculator.MAX_ITERS 0 re im 0 0)
    as [Hle | ->]; [unfold MandelbrotCalculator.MAX_ITERS; lia | | lra].
  replace (INR (0 + MandelbrotCalculator.MAX_ITERS)) with 500 in Hle; [lra|].
  unfold MandelbrotCalculator.MAX_ITERS. rewrite INR_IZR_INZ. reflexivity.
Qed.

(** X12.  A point with [|c|^2 >= 256] escapes in the first iteration:
    [how_mandel] returns [1 - nu] for
    [nu = ln (ln |c|^2 / 2 / ln 2) / ln 2 >= 2], a value of at most -1,
    for which the conversion [size_t(mandelness)] of the work item is
    undefined. *)
Theorem how_mandel_far (re im : num_t) :
  re * re + im * im >= 256 ->
  MandelbrotCalculator.how_mandel re im
  = 1 - ln (ln (re * re + im * im) / 2 / ln 2) / ln 2
  /\ MandelbrotCalculator.how_mandel re im <= -1
  /\ MandelbrotCalculator.blend (MandelbrotCalculator.how_mandel re im) = None.
Proof.
  intros Hfar.
  assert (Hval : MandelbrotCalculator.how_mandel re im
                 = 1 - ln (ln (re * re + im * im) / 2 / ln 2) / ln 2).
  { unfold MandelbrotCalculator.how_mandel, MandelbrotCalculator.MAX_ITERS.
    change 500%nat with (S 499). generalize 499%nat. intros fuel.
    cbn [MandelbrotCalculator.how_mandel_loop].
    replace ((0 * 0 - 0 * 0 + re) * (0 * 0 - 0 * 0 + re)
             + (2 * 0 * 0 + im) * (2 * 0 * 0 + im))
      with (re * re + im * im) by ring.
    destruct (Rge_dec _ MandelbrotCalculator.DIVERGENCE_LIMIT) as [_|Hn].
    - simpl. lra.
    - exfalso. apply Hn. exact Hfar. }
  pose proof (nu_at_least_2 _ Hfar) as Hnu.
  assert (Hle : MandelbrotCalculator.how_mandel re im <= -1)
    by (rewrite Hval; lra).
  split; [exact Hval|]. split; [exact Hle|].
  unfold MandelbrotCalculator.blend, size_t_of_num.
  destruct (Rlt_dec (-1) (MandelbrotCalculator.how_mandel re im)) as [Hlt|_];
    [lra | reflexivity].
Qed.

Lemma how_mandel_far_witness :
  MandelbrotCalculator.how_mandel 16 0 <= -1.
Proof.
  refine (proj1 (proj2 (how_mandel_far 16 0 _))). lra.
Defined.

(** ** Mandelbrot: sample points and colours *)

Lemma unit_fraction (k n : nat) : (k < n)%nat -> 0 <= INR k / INR n < 1.
Proof.
  intros Hk. assert (Hn : 0 < INR n) by (apply lt_0_INR; lia).
  pose proof (pos_INR k) as Hk0. apply lt_INR in Hk.
  split.
  - apply Rmult_le_pos; [exact Hk0 | left; apply Rinv_0_lt_compat; exact Hn].
  - apply Rmult_lt_reg_r with (INR n); [exact Hn|].
    unfold Rdiv. rewrite Rmult_assoc, Rinv_l by lra. lra.
Qed.

(** X13.  Every work item samples inside the view: for a pixel
    [(row, col)] of the image and bounds given in order, the sampled
    point has [min_x <= x <= max_x] and [min_y <= y <= max_y]; pixel
    (0, 0) samples exactly [(min_x, min_y)], and a column further right
    never samples further left. *)
Theorem sample_point_in_view (this : MandelbrotCalculator.t) (row col : nat) :
  let min_x := fst (MandelbrotCalculator.m_x this) in
  let max_x := snd (MandelbrotCalculator.m_x this) in
  let min_y := fst (MandelbrotCalculator.m_y this) in
  let max_y := snd (MandelbrotCalculator.m_y this) in
  (col < MandelbrotCalculator.m_width this)%nat ->
  (row < MandelbrotCalculator.m_height this)%nat ->
  min_x <= max_x -> min_y <= max_y ->
  (min_x <= fst (MandelbrotCalculator.sample_point this row col) <= max_x
   /\ min_y <= snd (MandelbrotCalculator.sample_point this row col) <= max_y)
  /\ MandelbrotCalculator.sample_point this 0 0 = (min_x, min_y)
  /\ (forall col', (col <= col')%nat ->
        fst (MandelbrotCalculator.sample_point this row col)
        <= fst (MandelbrotCalculator.sample_point this row col')).
Proof.
  intros min_x max_x min_y max_y Hcol Hrow Hx Hy.
  unfold MandelbrotCalculator.sample_point. cbn [fst snd].
  fold min_x max_x min_y max_y.
  pose proof (unit_fraction col _ Hcol) as Hfc.
  pose proof (unit_fraction row _ Hrow) as Hfr.
  split; [split; split; nra|].
  split.
  - f_equal; simpl; unfold Rdiv; ring.
  - intros col' Hle. apply le_INR in Hle.
    assert (Hw : 0 < INR (MandelbrotCalculator.m_width this))
      by (apply lt_0_INR; lia).
    assert (Hfrac : INR col / INR (MandelbrotCalculator.m_width this)
                    <= INR col' / INR (MandelbrotCalculator.m_width this)).
    { unfold Rdiv. apply Rmult_le_compat_r; [|exact Hle].
      left. apply Rinv_0_lt_compat. exact Hw. }
    nra.
Qed.

Lemma sample_point_in_view_witness :
  MandelbrotCalculator.sample_point (MandelbrotCalculator.ctor 800 600) 0 0
  = (-2, -1).
Proof.
  refine (proj1 (proj2 (sample_point_in_view
            (MandelbrotCalculator.ctor 800 600) 0 0 _ _ _ _)));
    simpl; try lia; lra.
Defined.

Lemma COLORS_channels (j : nat) :
  (j < 16)%nat ->
  let c := MandelbrotCalculator.COLORS !!! j in
  (0 <= uchar4.x c <= 255)%Z /\ (0 <= uchar4.y c <= 255)%Z
  /\ (0 <= uchar4.z c <= 255)%Z /\ uchar4.w c = 255%Z.
Proof.
  intros Hj.
  do 16 (destruct j as [|j]; [simpl; lia|]). lia.
Qed.

Lemma size_t_of_num_fract (m : num_t) :
  0 <= m < 2 ^ 64 ->
  exists k, size_t_of_num m = Some k /\ 0 <= m - INR k < 1.
Proof.
  intros [H0 Hmax]. unfold size_t_of_num.
  destruct (Rlt_dec (-1) m) as [_|Hn]; [|lra].
  destruct (Rlt_dec m (2 ^ 64)) as [_|Hn]; [|contradiction].
  exists (Z.to_nat (Int_part m)). split; [reflexivity|].
  destruct (base_Int_part m) as [Hlo Hhi].
  assert (Hz : (0 <= Int_part m)%Z).
  { destruct (Z_lt_le_dec (Int_part m) 0) as [Hneg|Hnn]; [|exact Hnn].
    exfalso. assert (Int_part m <= -1)%Z as Hle by lia.
    apply IZR_le in Hle. lra. }
  rewrite INR_IZR_INZ, Z2Nat.id by exact Hz. lra.
Qed.

Lemma blend_channel (a b f : num_t) :
  0 <= f < 1 -> Rmin a b <= a * (1 - f) + b * f <= Rmax a b.
Proof.
  intros Hf. unfold Rmin, Rmax. destruct (Rle_dec a b); nra.
Qed.

(** X14.  For a [mandelness] that is not negative (and below 2^64) the
    work item picks two consecutive palette entries, the second one
    wrapping from 15 to 0, and blends them with weights [1 - fract] and
    [fract] for a [fract] in [[0, 1)]: every channel lies between the
    two entries' channels, hence in [[0, 255]], and alpha is exactly
    255. *)
Theorem blend_between_palette_entries (mandelness : num_t) :
  0 <= mandelness < 2 ^ 64 ->
  exists k c,
    size_t_of_num mandelness = Some k
    /\ MandelbrotCalculator.blend mandelness = Some c
    /\ 0 <= mandelness - INR k < 1
    /\ let a := vec4.of_uchar4 (MandelbrotCalculator.COLORS !!! (k mod 16)%nat) in
       let b := vec4.of_uchar4
                  (MandelbrotCalculator.COLORS !!! (S (k mod 16) mod 16)%nat) in
       (Rmin (vec4.x a) (vec4.x b) <= vec4.x c <= Rmax (vec4.x a) (vec4.x b)
        /\ Rmin (vec4.y a) (vec4.y b) <= vec4.y c <= Rmax (vec4.y a) (vec4.y b)
        /\ Rmin (vec4.z a) (vec4.z b) <= vec4.z c <= Rmax (vec4.z a) (vec4.z b))
       /\ (0 <= vec4.x c <= 255 /\ 0 <= vec4.y c <= 255 /\ 0 <= vec4.z c <= 255)
       /\ vec4.w c = 255.
Proof.
  intros Hm. destruct (size_t_of_num_fract mandelness Hm) as (k & Hk & Hf).
  unfold MandelbrotCalculator.blend. rewrite Hk.
  change (length MandelbrotCalculator.COLORS) with 16%nat.
  replace ((k + 1) mod 16)%nat with (S (k mod 16) mod 16)%nat
    by (rewrite <- Nat.add_1_r, Nat.Div0.add_mod_idemp_l; reflexivity).
  eexists k, _. split; [reflexivity|]. split; [reflexivity|].
  split; [exact Hf|].
  assert (Hi : (k mod 16 < 16)%nat) by (apply Nat.mod_upper_bound; lia).
  assert (Hj : (S (k mod 16) mod 16 < 16)%nat) by (apply Nat.mod_upper_bound; lia).
  destruct (COLORS_channels _ Hi) as (Hax & Hay & Haz & Haw).
  destruct (COLORS_channels _ Hj) as (Hbx & Hby & Hbz & Hbw).
  cbv zeta in Hax, Hay, Haz, Haw, Hbx, Hby, Hbz, Hbw |- *.
  set (ca := MandelbrotCalculator.COLORS !!! (k mod 16)%nat) in *.
  set (cb := MandelbrotCalculator.COLORS !!! (S (k mod 16) mod 16)%nat) in *.
  set (f := mandelness - INR k) in *.
  cbn [vec4.add vec4.times vec4.of_uchar4 vec4.x vec4.y vec4.z vec4.w].
  pose proof (blend_channel (IZR (uchar4.x ca)) (IZR (uchar4.x cb)) f Hf) as Bx.
  pose proof (blend_channel (IZR (uchar4.y ca)) (IZR (uchar4.y cb)) f Hf) as By.
  pose proof (blend_channel (IZR (uchar4.z ca)) (IZR (uchar4.z cb)) f Hf) as Bz.
  split; [auto|].
  assert (Hrange : forall a b : Z, (0 <= a <= 255)%Z -> (0 <= b <= 255)%Z ->
            0 <= IZR a * (1 - f) + IZR b * f <= 255).
  { intros a b [Ha0 Ha1] [Hb0 Hb1].
    apply IZR_le in Ha0, Ha1, Hb0, Hb1. nra. }
  split; [auto|].
  rewrite Haw, Hbw. ring.
Qed.

Lemma blend_between_palette_entries_witness :
  exists k c,
    size_t_of_num 15.5 = Some k
    /\ MandelbrotCalculator.blend 15.5 = Some c
    /\ 0 <= 15.5 - INR k < 1
    /\ let a := vec4.of_uchar4 (MandelbrotCalculator.COLORS !!! (k mod 16)%nat) in
       let b := vec4.of_uchar4
                  (MandelbrotCalculator.COLORS !!! (S (k mod 16) mod 16)%nat) in
       (Rmin (vec4.x a) (vec4.x b) <= vec4.x c <= Rmax (vec4.x a) (vec4.x b)
        /\ Rmin (vec4.y a) (vec4.y b) <= vec4.y c <= Rmax (vec4.y a) (vec4.y b)
        /\ Rmin (vec4.z a) (vec4.z b) <= vec4.z c <= Rmax (vec4.z a) (vec4.z b))
       /\ (0 <= vec4.x c <= 255 /\ 0 <= vec4.y c <= 255 /\ 0 <= vec4.z c <= 255)
       /\ vec4.w c = 255.
Proof.
  apply (blend_between_palette_entries 15.5). lra.
Defined.

(** ** Mandelbrot application: view, zoom and drag *)

(** X15.  [update()] hands the calculator a view centred at
    [(m_ctr_x, m_ctr_y)], of height [m_range] and of width
    [m_range * 800 / 600], so always in the aspect ratio of the window;
    centre, range and the recorded mouse position are left alone, and
    for a range that is not negative the bounds are in order. *)
Theorem update_view (app : MandelbrotApp.t) :
  let app' := MandelbrotApp.update app in
  let bx := MandelbrotCalculator.m_x (MandelbrotApp.m_calc app') in
  let by_ := MandelbrotCalculator.m_y (MandelbrotApp.m_calc app') in
  (fst bx + snd bx) / 2 = MandelbrotApp.m_ctr_x app
  /\ (fst by_ + snd by_) / 2 = MandelbrotApp.m_ctr_y app
  /\ snd by_ - fst by_ = MandelbrotApp.m_range app
  /\ (snd bx - fst bx) * 600 = (snd by_ - fst by_) * 800
  /\ (0 <= MandelbrotApp.m_range app -> fst bx <= snd bx /\ fst by_ <= snd by_)
  /\ MandelbrotApp.m_ctr_x app' = MandelbrotApp.m_ctr_x app
  /\ MandelbrotApp.m_ctr_y app' = MandelbrotApp.m_ctr_y app
  /\ MandelbrotApp.m_range app' = MandelbrotApp.m_range app
  /\ MandelbrotCalculator.m_width (MandelbrotApp.m_calc app')
     = MandelbrotCalculator.m_width (MandelbrotApp.m_calc app)
  /\ MandelbrotCalculator.m_height (MandelbrotApp.m_calc app')
     = MandelbrotCalculator.m_height (MandelbrotApp.m_calc app).
Proof.
  intros app' bx by_. subst app' bx by_.
  unfold MandelbrotApp.update, MandelbrotCalculator.set_bounds.
  cbn [MandelbrotApp.m_calc MandelbrotApp.m_ctr_x MandelbrotApp.m_ctr_y
       MandelbrotApp.m_range MandelbrotCalculator.m_x MandelbrotCalculator.m_y
       MandelbrotCalculator.m_width MandelbrotCalculator.m_height fst snd].
  replace (INR MandelbrotApp.WIDTH) with 800
    by (unfold MandelbrotApp.WIDTH; rewrite INR_IZR_INZ; reflexivity).
  replace (INR MandelbrotApp.HEIGHT) with 600
    by (unfold MandelbrotApp.HEIGHT; rewrite INR_IZR_INZ; reflexivity).
  repeat split; try reflexivity; try lra.
Qed.

(** X16.  Zooming: a wheel increment that is not zero keeps a positive
    range positive, and turning the wheel by [inc > 0] and then by
    [- inc] (or the other way round) restores the range. *)
Theorem mouseWheel_zoom (inc : num_t) (app : MandelbrotApp.t) :
  (inc <> 0 -> 0 < MandelbrotApp.m_range app ->
   0 < MandelbrotApp.m_range (MandelbrotApp.mouseWheel inc app))
  /\ (0 < inc ->
      MandelbrotApp.m_range
        (MandelbrotApp.mouseWheel (- inc) (MandelbrotApp.mouseWheel inc app))
      = MandelbrotApp.m_range app
      /\ MandelbrotApp.m_range
           (MandelbrotApp.mouseWheel inc (MandelbrotApp.mouseWheel (- inc) app))
         = MandelbrotApp.m_range app).
Proof.
  unfold MandelbrotApp.mouseWheel. cbn [MandelbrotApp.m_range].
  split.
  - intros Hne Hr. destruct (Rgt_dec inc 0) as [Hpos|Hneg].
    + apply Rmult_lt_0_compat; lra.
    + apply Rdiv_lt_0_compat; lra.
  - intros Hpos.
    destruct (Rgt_dec inc 0) as [_|Hn]; [|lra].
    destruct (Rgt_dec (- inc) 0) as [Hn|_]; [lra|].
    replace 0.5 with (/ 2) by lra. replace (-0.5) with (- / 2) by lra.
    split; field; lra.
Qed.

Lemma mouseWheel_zoom_witness :
  MandelbrotApp.m_range
    (MandelbrotApp.mouseWheel (- 1) (MandelbrotApp.mouseWheel 1 MandelbrotApp.ctor))
  = MandelbrotApp.m_range MandelbrotApp.ctor.
Proof.
  refine (proj1 (proj2 (mouseWheel_zoom 1 MandelbrotApp.ctor) _)). lra.
Defined.


Lemma update_view_witness :
  fst (MandelbrotCalculator.m_x
         (MandelbrotApp.m_calc (MandelbrotApp.update MandelbrotApp.ctor)))
  <= snd (MandelbrotCalculator.m_x
            (MandelbrotApp.m_calc (MandelbrotApp.update MandelbrotApp.ctor))).
Proof.
  refine (proj1 (proj1 (proj2 (proj2 (proj2 (proj2
            (update_view MandelbrotApp.ctor))))) _)).
  simpl. lra.
Defined.


(** ** Game of Life: indices, rules, colours *)

Lemma rem_minus_one (m : Z) : (1 < m)%Z -> Z.rem (-1) m = (-1)%Z.
Proof.
  intros Hm. change (-1)%Z with (- (1))%Z at 1.
  rewrite Z.rem_opp_l', Z.rem_small by lia. reflexivity.
Qed.

Lemma process_index_cases (ind max_size : Z) :
  (0 <= ind < max_size)%Z ->
  GameOfLifeSim.process_index ind 0 max_size = ind
  /\ GameOfLifeSim.process_index ind 1 max_size = ((ind + 1) mod max_size)%Z
  /\ (0 <= GameOfLifeSim.process_index ind 1 max_size < max_size)%Z
  /\ ((0 < ind)%Z ->
      GameOfLifeSim.process_index ind (-1) max_size = (ind - 1)%Z)
  /\ (ind = 0%Z -> (1 < max_size)%Z ->
      GameOfLifeSim.process_index ind (-1) max_size = (-1)%Z
      /\ size_t_of_int (GameOfLifeSim.process_index ind (-1) max_size)
         = (2 ^ 64 - 1)%Z).
Proof.
  intros Hind. unfold GameOfLifeSim.process_index.
  split; [rewrite Z.add_0_r; apply Z.rem_small; lia|].
  assert (H1 : Z.rem (ind + 1) max_size = ((ind + 1) mod max_size)%Z)
    by (apply Z.rem_mod_nonneg; lia).
  split; [exact H1|].
  split; [rewrite H1; apply Z.mod_pos_bound; lia|].
  split.
  - intros Hpos. apply Z.rem_small. lia.
  - intros -> Hm. rewrite Z.add_0_l, rem_minus_one by exact Hm.
    split; reflexivity.
Qed.

(** X18.  [process_index] wraps around at the upper edge only.  For an
    index [0 <= ind < max_size]: offset 0 returns [ind]; offset 1
    returns [(ind + 1) mod max_size], so 0 at the last index; offset -1
    returns [ind - 1] when [ind > 0], but at [ind = 0] (and
    [max_size > 1]) it returns -1, not [max_size - 1]: C++'s [%]
    truncates towards zero.  Converted to the [size_t] of [sycl::id]
    that -1 is 2^64 - 1. *)
Theorem process_index_wrap (ind max_size : Z) :
  (0 <= ind < max_size)%Z ->
  GameOfLifeSim.process_index ind 0 max_size = ind
  /\ GameOfLifeSim.process_index ind 1 max_size = ((ind + 1) mod max_size)%Z
  /\ (0 <= GameOfLifeSim.process_index ind 1 max_size < max_size)%Z
  /\ ((0 < ind)%Z ->
      GameOfLifeSim.process_index ind (-1) max_size = (ind - 1)%Z)
  /\ (ind = 0%Z -> (1 < max_size)%Z ->
      GameOfLifeSim.process_index ind (-1) max_size = (-1)%Z
      /\ size_t_of_int (GameOfLifeSim.process_index ind (-1) max_size)
         = (2 ^ 64 - 1)%Z).
Proof. exact (process_index_cases ind max_size). Qed.

Lemma process_index_wrap_witness :
  GameOfLifeSim.process_index 0 (-1) 800 = (-1)%Z
  /\ size_t_of_int (GameOfLifeSim.process_index 0 (-1) 800) = (2 ^ 64 - 1)%Z.
Proof.
  refine (proj2 (proj2 (proj2 (proj2 (process_index_wrap 0 800 _)))) _ _); lia.
Defined.

(** X19.  The rule of the kernel is Conway's: whatever the count, the
    new state is [LIVE] exactly when the cell has three live neighbours,
    or is alive and has two. *)
Theorem advance_is_conway (current : CellState) (live_neighbours : nat) :
  GameOfLifeSim.advance current live_neighbours = LIVE
  <-> live_neighbours = 3%nat \/ (current = LIVE /\ live_neighbours = 2%nat).
Proof.
  unfold GameOfLifeSim.advance.
  destruct (decide (current = LIVE)) as [Hc|Hc].
  - destruct (Nat.ltb_spec live_neighbours 2) as [H2|H2].
    { split; [discriminate | intros [Hg | [_ Hg]]; lia]. }
    destruct (Nat.ltb_spec live_neighbours 4) as [H4|H4].
    + split; [|reflexivity]. intros _.
      destruct (decide (live_neighbours = 3%nat)) as [H3|H3]; [left; exact H3|].
      right. split; [exact Hc | lia].
    + split; [discriminate | intros [Hg | [_ Hg]]; lia].
  - destruct (Nat.eqb_spec live_neighbours 3) as [H3|H3].
    + split; [intros _; left; exact H3 | reflexivity].
    + split; [discriminate | intros [Hg | [Hg _]]; contradiction].
Qed.

Lemma uchar_of_num_0 : uchar_of_num 0 = Some 0%Z.
Proof.
  unfold uchar_of_num.
  destruct (Rlt_dec (-1) 0) as [_|Hn]; [|lra].
  destruct (Rlt_dec 0 256) as [_|Hn]; [|lra].
  replace (Int_part 0) with 0%Z by (apply Int_part_spec; simpl; lra).
  reflexivity.
Qed.

(** X20.  A cell that ends the step dead is painted black and opaque,
    whatever its velocity.  A cell that ends it alive has green 0 and
    alpha 255, and red and blue of at least 51 when they are defined;
    they are not once a velocity component reaches 0.161 in magnitude,
    since the value to convert to [cl_uchar] is then 256 or more. *)
Theorem pixel_of_state (new_vel : float2.t) :
  GameOfLifeSim.pixel_of DEAD new_vel = Some (uchar4.make 0 0 0 255)
  /\ (forall p, GameOfLifeSim.pixel_of LIVE new_vel = Some p ->
        (51 <= uchar4.x p <= 255)%Z /\ uchar4.y p = 0%Z
        /\ (51 <= uchar4.z p <= 255)%Z /\ uchar4.w p = 255%Z)
  /\ (0.161 <= Rabs (float2.x new_vel) \/ 0.161 <= Rabs (float2.y new_vel) ->
      GameOfLifeSim.pixel_of LIVE new_vel = None).
Proof.
  unfold GameOfLifeSim.pixel_of.
  cbn [float2.add float2.times float2.fabs float2.x float2.y int_of_CellState].
  set (bx := Rabs (float2.x new_vel) * 5 + 0.2).
  set (by_ := Rabs (float2.y new_vel) * 5 + 0.2).
  pose proof (Rabs_pos (float2.x new_vel)) as Hx.
  pose proof (Rabs_pos (float2.y new_vel)) as Hy.
  assert (Hconv : forall f c, 51 <= f -> uchar_of_num f = Some c -> (51 <= c <= 255)%Z).
  { intros f c Hf. unfold uchar_of_num.
    destruct (Rlt_dec (-1) f) as [_|_]; [|discriminate].
    destruct (Rlt_dec f 256) as [Hlt|_]; [|discriminate].
    intros [= <-]. destruct (base_Int_part f) as [Hlo Hhi].
    assert (H1 : (50 < Int_part f)%Z) by (apply lt_IZR; lra).
    assert (H2 : (Int_part f < 256)%Z) by (apply lt_IZR; lra).
    lia. }
  assert (Hover : forall f, 256 <= f -> uchar_of_num f = None).
  { intros f Hf. unfold uchar_of_num.
    destruct (Rlt_dec (-1) f) as [_|_]; [|reflexivity].
    destruct (Rlt_dec f 256) as [Hlt|_]; [lra | reflexivity]. }
  split; [|split].
  - replace (0 * bx * 255) with 0 by ring. replace (0 * by_ * 255) with 0 by ring.
    rewrite uchar_of_num_0. reflexivity.
  - intros p.
    destruct (uchar_of_num (1 * bx * 255)) as [r|] eqn:Hr; [|discriminate].
    destruct (uchar_of_num (1 * by_ * 255)) as [b|] eqn:Hb; [|discriminate].
    cbn. intros [= <-]. cbn.
    apply Hconv in Hr; [|unfold bx; lra]. apply Hconv in Hb; [|unfold by_; lra].
    auto.
  - intros [Hbig | Hbig].
    + rewrite (Hover (1 * bx * 255)) by (unfold bx; lra). reflexivity.
    + rewrite (Hover (1 * by_ * 255)) by (unfold by_; lra).
      destruct (uchar_of_num (1 * bx * 255)); reflexivity.
Qed.

Lemma pixel_of_state_witness :
  GameOfLifeSim.pixel_of LIVE (float2.make 0.2 0) = None.
Proof.
  refine (proj2 (proj2 (pixel_of_state (float2.make 0.2 0))) _).
  left. simpl. unfold Rabs. destruct (Rcase_abs _); lra.
Defined.

(** ** Game of Life: what a work item reads *)

Lemma offsets_eq :
  GameOfLifeSim.offsets
  = [(-1, 1); (0, 1); (1, 1); (-1, 0); (1, 0); (-1, -1); (0, -1); (1, -1)]%Z.
Proof. reflexivity. Qed.

Lemma int_of_size_t_small (z : Z) :
  (0 <= z < 2 ^ 31)%Z -> int_of_size_t z = z.
Proof. intros Hz. unfold int_of_size_t. rewrite Z.mod_small; lia. Qed.

Lemma size_t_of_int_small (z : Z) :
  (0 <= z < 2 ^ 64)%Z -> size_t_of_int z = z.
Proof. intros Hz. unfold size_t_of_int. apply Z.mod_small. exact Hz. Qed.

(** Away from index 0 the index a work item computes is the neighbour on
    the torus. *)
Lemma wrapped_index (n k : nat) (o : Z) :
  (1 <= k < n)%nat -> (Z.of_nat n < 2 ^ 31)%Z -> (o = -1 \/ o = 0 \/ o = 1)%Z ->
  size_t_of_int
    (GameOfLifeSim.process_index (int_of_size_t (Z.of_nat k)) o
                                 (int_of_size_t (Z.of_nat n)))
  = ((Z.of_nat k + o) mod Z.of_nat n)%Z.
Proof.
  intros Hk Hn Ho.
  rewrite !int_of_size_t_small by lia.
  destruct (process_index_cases (Z.of_nat k) (Z.of_nat n) ltac:(lia))
    as (H0 & H1 & H1r & Hm & _).
  destruct Ho as [-> | [-> | ->]].
  - rewrite Hm by lia. rewrite size_t_of_int_small by lia.
    rewrite Z.mod_small by lia. lia.
  - rewrite H0, Z.add_0_r, size_t_of_int_small, Z.mod_small by lia. reflexivity.
  - rewrite size_t_of_int_small by lia. exact H1.
Qed.

Lemma offsets_range (o : Z * Z) :
  o ∈ GameOfLifeSim.offsets ->
  (o.1 = -1 \/ o.1 = 0 \/ o.1 = 1)%Z /\ (o.2 = -1 \/ o.2 = 0 \/ o.2 = 1)%Z.
Proof.
  rewrite offsets_eq. intros Ho.
  repeat (apply elem_of_cons in Ho as [-> | Ho]; [simpl; lia|]).
  apply elem_of_nil in Ho. contradiction.
Qed.

Lemma count_live_states (states : list CellState) :
  length states = 8%nat ->
  GameOfLifeSim.count_live (map (fun s => bool_decide (s = LIVE)) states)
  = length (filter (fun s => s = LIVE) states).
Proof.
  intros Hlen.
  do 8 (destruct states as [|? states]; [discriminate|]).
  destruct states; [|discriminate].
  repeat match goal with s : CellState |- _ => destruct s end; reflexivity.
Qed.

(** X21.  A work item with [x >= 1] and [y >= 1] reads the eight
    neighbours of its cell on the torus, [((x + i) mod width,
    (y + j) mod height)], all inside the grid; when these and the cell
    itself hold defined states, the state it stores is Conway's rule
    applied to the cell and the number of [LIVE] states among the
    eight. *)
Theorem interior_item_follows_conway (r : buffer2.t CellState)
    (width height x y : nat) :
  buffer2.range0 r = width -> buffer2.range1 r = height ->
  (1 <= x < width)%nat -> (1 <= y < height)%nat ->
  (Z.of_nat width < 2 ^ 31)%Z -> (Z.of_nat height < 2 ^ 31)%Z ->
  let ids := map (fun o : Z * Z =>
                    (((Z.of_nat x + o.1) mod Z.of_nat width)%Z,
                     ((Z.of_nat y + o.2) mod Z.of_nat height)%Z))
                 GameOfLifeSim.offsets in
  GameOfLifeSim.neighbour_ids width height x y = ids
  /\ Forall (fun id => buffer2.in_range r id = true) ids
  /\ (forall current states,
        buffer2.get r (Z.of_nat x, Z.of_nat y) = Some current ->
        Forall2 (fun id s => buffer2.get r id = Some s) ids states ->
        GameOfLifeSim.item_state r width height x y
        = Some (GameOfLifeSim.advance current
                  (length (filter (fun s => s = LIVE) states)))).
Proof.
  intros Hr0 Hr1 Hx Hy Hw Hh ids.
  assert (Hids : GameOfLifeSim.neighbour_ids width height x y = ids).
  { unfold GameOfLifeSim.neighbour_ids, ids. apply map_ext_in.
    intros o Ho. apply list_elem_of_In, offsets_range in Ho as [Ho1 Ho2].
    cbv zeta. rewrite !wrapped_index by assumption. reflexivity. }
  split; [exact Hids|]. split.
  - unfold ids. apply Forall_forall. intros id Hid.
    apply list_elem_of_In, in_map_iff in Hid as (o & <- & _).
    unfold buffer2.in_range. apply bool_decide_eq_true. rewrite Hr0, Hr1.
    cbn [fst snd].
    split; apply Z.mod_pos_bound; lia.
  - intros current states Hcur Hstates.
    unfold GameOfLifeSim.item_state, GameOfLifeSim.read_live. rewrite Hids.
    assert (Hlive :
      mapM (fun id => s ← buffer2.get r id; Some (bool_decide (s = LIVE))) ids
      = Some (map (fun s => bool_decide (s = LIVE)) states)).
    { apply mapM_Some_2. apply Forall2_fmap_r.
      eapply Forall2_impl; [exact Hstates|].
      intros id s Hget. cbn beta. rewrite Hget. reflexivity. }
    rewrite Hlive. cbn [mbind option_bind]. rewrite Hcur. cbn [mbind option_bind].
    rewrite count_live_states; [reflexivity|].
    apply Forall2_length in Hstates. rewrite <- Hstates. unfold ids.
    rewrite length_map. reflexivity.
Qed.

(** X22.  A work item in column 0 of a grid at least two cells wide, or
    in row 0 of a grid at least two cells high, reads outside the
    buffer: the index one step down from 0 is 2^64 - 1, not the far edge
    of the torus.  Such an item has no defined state, velocity or pixel
    to store. *)
Theorem lower_edge_item_undefined (r : buffer2.t CellState)
    (rv : buffer2.t float2.t) (width height x y : nat) :
  buffer2.range0 r = width -> buffer2.range1 r = height ->
  (x < width)%nat -> (y < height)%nat ->
  (Z.of_nat width < 2 ^ 31)%Z -> (Z.of_nat height < 2 ^ 31)%Z ->
  (x = 0%nat /\ 2 <= width)%nat \/ (y = 0%nat /\ 2 <= height)%nat ->
  Exists (fun id => buffer2.in_range r id = false
                    /\ (id.1 = 2 ^ 64 - 1 \/ id.2 = 2 ^ 64 - 1)%Z)
         (GameOfLifeSim.neighbour_ids width height x y)
  /\ GameOfLifeSim.item_state r width height x y = None
  /\ GameOfLifeSim.item_vel r rv width height x y = None
  /\ GameOfLifeSim.item_pixel r rv width height x y = None.
Proof.
  intros Hr0 Hr1 Hx Hy Hw Hh Hedge.
  assert (Hout : Exists (fun id => buffer2.in_range r id = false
                                   /\ (id.1 = 2 ^ 64 - 1 \/ id.2 = 2 ^ 64 - 1)%Z)
                        (GameOfLifeSim.neighbour_ids width height x y)).
  { unfold GameOfLifeSim.neighbour_ids. rewrite offsets_eq. cbn [map fst snd].
    destruct Hedge as [[-> Hw2] | [-> Hh2]].
    - apply Exists_cons_hd.
      destruct (process_index_cases 0 (int_of_size_t (Z.of_nat width)))
        as (_ & _ & _ & _ & Hm);
        [rewrite int_of_size_t_small; lia|].
      rewrite (int_of_size_t_small (Z.of_nat 0)) by (simpl; lia).
      destruct (Hm eq_refl) as [_ Hs]; [rewrite int_of_size_t_small; lia|].
      change (Z.of_nat 0) with 0%Z. rewrite Hs.
      split; [|left; reflexivity].
      unfold buffer2.in_range. apply bool_decide_eq_false. cbn [fst snd]. lia.
    - do 5 apply Exists_cons_tl. apply Exists_cons_hd.
      destruct (process_index_cases 0 (int_of_size_t (Z.of_nat height)))
        as (_ & _ & _ & _ & Hm);
        [rewrite int_of_size_t_small; lia|].
      rewrite (int_of_size_t_small (Z.of_nat 0)) by (simpl; lia).
      destruct (Hm eq_refl) as [_ Hs]; [rewrite int_of_size_t_small; lia|].
      change (Z.of_nat 0) with 0%Z. rewrite Hs.
      split; [|right; reflexivity].
      unfold buffer2.in_range. apply bool_decide_eq_false. cbn [fst snd]. lia. }
  assert (Hlive : GameOfLifeSim.read_live r width height x y = None).
  { unfold GameOfLifeSim.read_live. apply mapM_None_2.
    eapply Exists_impl; [exact Hout|].
    intros id [Hid _]. cbn beta. unfold buffer2.get. rewrite Hid. reflexivity. }
  split; [exact Hout|].
  assert (Hstate : GameOfLifeSim.item_state r width height x y = None)
    by (unfold GameOfLifeSim.item_state; rewrite Hlive; reflexivity).
  split; [exact Hstate|]. split.
  - unfold GameOfLifeSim.item_vel. rewrite Hlive. reflexivity.
  - unfold GameOfLifeSim.item_pixel. rewrite Hstate. reflexivity.
Qed.

Lemma interior_item_follows_conway_witness :
  GameOfLifeSim.neighbour_ids 3 3 1 1
  = map (fun o : Z * Z => (((Z.of_nat 1 + o.1) mod Z.of_nat 3)%Z,
                           ((Z.of_nat 1 + o.2) mod Z.of_nat 3)%Z))
        GameOfLifeSim.offsets.
Proof.
  refine (proj1 (interior_item_follows_conway (buffer2.ctor 3 3) 3 3 1 1
                   eq_refl eq_refl _ _ _ _)); simpl; lia.
Defined.

Lemma lower_edge_item_undefined_witness :
  GameOfLifeSim.item_state (buffer2.ctor 3 3) 3 3 0 1 = None.
Proof.
  refine (proj1 (proj2 (lower_edge_item_undefined (buffer2.ctor 3 3)
                          (buffer2.ctor 3 3) 3 3 0 1 eq_refl eq_refl _ _ _ _ _)));
    simpl; lia.
Defined.

(** ** Game of Life: buffers, clicks and the step *)

Section Buffer2Facts.
Context {A : Type}.
Implicit Types b : buffer2.t A.

Lemma set_ranges b id (v : A) :
  buffer2.range0 (buffer2.set b id v) = buffer2.range0 b
  /\ buffer2.range1 (buffer2.set b id v) = buffer2.range1 b.
Proof. unfold buffer2.set. destruct (buffer2.in_range b id); split; reflexivity. Qed.

Lemma in_range_set b id id' (v : A) :
  buffer2.in_range (buffer2.set b id v) id' = buffer2.in_range b id'.
Proof.
  unfold buffer2.in_range. destruct (set_ranges b id v) as [-> ->]. reflexivity.
Qed.

Lemma get_set_same b id (v : A) :
  buffer2.in_range b id = true -> buffer2.get (buffer2.set b id v) id = Some v.
Proof.
  intros Hin. unfold buffer2.get. rewrite in_range_set, Hin.
  unfold buffer2.set. rewrite Hin. cbn. apply lookup_insert_eq.
Qed.

Lemma get_set_other b id id' (v : A) :
  id <> id' -> buffer2.get (buffer2.set b id v) id' = buffer2.get b id'.
Proof.
  intros Hne. unfold buffer2.get. rewrite in_range_set.
  destruct (buffer2.in_range b id'); [|reflexivity].
  unfold buffer2.set. destruct (buffer2.in_range b id); [|reflexivity].
  cbn. apply lookup_insert_ne. exact Hne.
Qed.

Lemma store_ranges b id (v : option A) :
  buffer2.range0 (GameOfLifeSim.store b id v) = buffer2.range0 b
  /\ buffer2.range1 (GameOfLifeSim.store b id v) = buffer2.range1 b.
Proof. destruct v; [apply set_ranges | split; reflexivity]. Qed.

Lemma in_range_store b id id' (v : option A) :
  buffer2.in_range (GameOfLifeSim.store b id v) id' = buffer2.in_range b id'.
Proof. destruct v; [apply in_range_set | reflexivity]. Qed.

Lemma get_store_other b id id' (v : option A) :
  id <> id' ->
  buffer2.get (GameOfLifeSim.store b id v) id' = buffer2.get b id'.
Proof. intros Hne. destruct v; [apply get_set_other; exact Hne | reflexivity]. Qed.

Lemma get_discard b id : buffer2.get (buffer2.discard b) id = None.
Proof.
  unfold buffer2.get. destruct (buffer2.in_range _ id); [|reflexivity].
  apply lookup_empty.
Qed.

Section Stores.
Context {I : Type}.
Variable key : I -> Z * Z.
Variable out : I -> option A.
Local Abbreviation stores := (stores key out).

Lemma stores_cons (it : I) (l : list I) b :
  stores (it :: l) b = stores l (GameOfLifeSim.store b (key it) (out it)).
Proof. reflexivity. Qed.

Lemma stores_ranges (l : list I) b :
  buffer2.range0 (stores l b) = buffer2.range0 b
  /\ buffer2.range1 (stores l b) = buffer2.range1 b.
Proof.
  revert b. induction l as [|it l IH]; intros b; [split; reflexivity|].
  rewrite stores_cons. destruct (IH (GameOfLifeSim.store b (key it) (out it))) as [-> ->].
  apply store_ranges.
Qed.

Lemma stores_other (l : list I) b id :
  (forall it, it ∈ l -> key it <> id) ->
  buffer2.get (stores l b) id = buffer2.get b id.
Proof.
  revert b. induction l as [|it l IH]; intros b Hne; [reflexivity|].
  rewrite stores_cons. rewrite IH by (intros it' Hit'; apply Hne; right; exact Hit').
  apply get_store_other, Hne. left.
Qed.

Lemma stores_lookup (l : list I) b (it : I) :
  NoDup l -> (forall i j, i ∈ l -> j ∈ l -> key i = key j -> i = j) ->
  it ∈ l -> buffer2.in_range b (key it) = true ->
  buffer2.get (stores l b) (key it)
  = match out it with Some v => Some v | None => buffer2.get b (key it) end.
Proof.
  revert b. induction l as [|i l IH]; intros b Hnd Hinj Hit Hin.
  { apply elem_of_nil in Hit. contradiction. }
  apply NoDup_cons in Hnd as [Hi Hnd]. rewrite stores_cons.
  apply elem_of_cons in Hit as [-> | Hit].
  - rewrite stores_other.
    + destruct (out i) as [v|]; [apply get_set_same; exact Hin | reflexivity].
    + intros j Hj Hkey. apply Hi.
      rewrite <- (Hinj j i); [exact Hj | right; exact Hj | left | exact Hkey].
  - rewrite IH.
    + destruct (out it); [reflexivity|].
      apply get_store_other. intros Hkey. apply Hi.
      rewrite (Hinj i it); [exact Hit | left | right; exact Hit | exact Hkey].
    + exact Hnd.
    + intros a c Ha Hc. apply Hinj; right; assumption.
    + exact Hit.
    + rewrite in_range_store. exact Hin.
Qed.

End Stores.
End Buffer2Facts.

Lemma items_elem (n0 n1 x y : nat) :
  (x, y) ∈ GameOfLifeSim.items n0 n1 <-> (x < n0)%nat /\ (y < n1)%nat.
Proof.
  unfold GameOfLifeSim.items. rewrite list_elem_of_bind. split.
  - intros (x' & Hxy & Hx'). apply list_elem_of_bind in Hxy as (y' & Hxy & Hy').
    apply list_elem_of_singleton in Hxy. injection Hxy as -> ->.
    apply elem_of_seq in Hx', Hy'. lia.
  - intros [Hx Hy]. exists x. split; [|apply elem_of_seq; lia].
    apply list_elem_of_bind. exists y. split; [|apply elem_of_seq; lia].
    apply list_elem_of_singleton. reflexivity.
Qed.

Lemma items_NoDup (n0 n1 : nat) : NoDup (GameOfLifeSim.items n0 n1).
Proof.
  unfold GameOfLifeSim.items. apply NoDup_bind.
  - intros x1 x2 it _ _ H1 H2.
    apply list_elem_of_bind in H1 as (y1 & H1 & _).
    apply list_elem_of_bind in H2 as (y2 & H2 & _).
    apply list_elem_of_singleton in H1, H2. congruence.
  - intros x _. apply NoDup_bind.
    + intros y1 y2 it _ _ H1 H2.
      apply list_elem_of_singleton in H1, H2. congruence.
    + intros y _. apply NoDup_singleton.
    + apply NoDup_seq.
  - apply NoDup_seq.
Qed.

Lemma drain_clicks_ranges pending (acc : buffer2.t CellState) :
  buffer2.range0 (GameOfLifeSim.drain_clicks pending acc) = buffer2.range0 acc
  /\ buffer2.range1 (GameOfLifeSim.drain_clicks pending acc) = buffer2.range1 acc.
Proof.
  revert acc. induction pending as [|[[x y] s] rest IH]; intros acc;
    [split; reflexivity|].
  cbn [GameOfLifeSim.drain_clicks].
  destruct (IH (buffer2.set acc (Z.of_nat x, Z.of_nat y) s)) as [-> ->].
  apply set_ranges.
Qed.

Lemma drain_clicks_app p1 p2 (acc : buffer2.t CellState) :
  GameOfLifeSim.drain_clicks (p1 ++ p2) acc
  = GameOfLifeSim.drain_clicks p2 (GameOfLifeSim.drain_clicks p1 acc).
Proof.
  revert acc. induction p1 as [|[[x y] s] rest IH]; intros acc; [reflexivity|].
  cbn [app GameOfLifeSim.drain_clicks]. apply IH.
Qed.

Lemma drain_clicks_rev clicks (acc : buffer2.t CellState) id :
  buffer2.in_range acc id = true ->
  buffer2.get (GameOfLifeSim.drain_clicks (rev clicks) acc) id
  = match first_click clicks id with
    | Some s => Some s
    | None => buffer2.get acc id
    end.
Proof.
  intros Hin. induction clicks as [|[[x y] s] rest IH]; [reflexivity|].
  cbn [rev first_click]. rewrite drain_clicks_app. cbn [GameOfLifeSim.drain_clicks].
  destruct (decide ((Z.of_nat x, Z.of_nat y) = id)) as [<- | Hne].
  - apply get_set_same. unfold buffer2.in_range.
    destruct (drain_clicks_ranges (rev rest) acc) as [-> ->]. exact Hin.
  - rewrite get_set_other by exact Hne. exact IH.
Qed.

Lemma read_grid_internal_step (this : GameOfLifeSim.t) :
  read_grid (GameOfLifeSim.internal_step this)
  = GameOfLifeSim.submit
      (GameOfLifeSim.make (GameOfLifeSim.m_width this)
         (GameOfLifeSim.m_height this)
         (DoubleBuf.assign (GameOfLifeSim.m_game this)
            (DoubleBuf.read (GameOfLifeSim.m_game this))
            (GameGrid.make (clicked_cells this)
               (GameGrid.vels (read_grid this))
               (GameGrid.img (read_grid this))))
         []).
Proof.
  unfold read_grid, GameOfLifeSim.internal_step.
  cbn [GameOfLifeSim.m_game GameOfLifeSim.m_width GameOfLifeSim.m_height
       GameOfLifeSim.m_clicks].
  rewrite read_swap, deref_swap, !write_assign, deref_assign_same.
  reflexivity.
Qed.

Lemma write_grid_internal_step (this : GameOfLifeSim.t) :
  write_grid (GameOfLifeSim.internal_step this)
  = GameGrid.make (clicked_cells this) (GameGrid.vels (read_grid this))
                  (GameGrid.img (read_grid this)).
Proof.
  unfold write_grid, GameOfLifeSim.internal_step.
  cbn [GameOfLifeSim.m_game GameOfLifeSim.m_width GameOfLifeSim.m_height
       GameOfLifeSim.m_clicks].
  rewrite write_swap, deref_swap, !read_assign, write_assign.
  rewrite deref_assign_other by (apply not_eq_sym, read_write_distinct).
  rewrite deref_assign_same. reflexivity.
Qed.

(** The three buffers the command group leaves in the write generation,
    as three sequences of stores. *)
Lemma kernels_stores reads width height (l : list (nat * nat)) (g0 : GameGrid.t) :
  let r := GameGrid.cells reads in
  let rv := GameGrid.vels reads in
  let g := fold_left (fun w item => GameOfLifeSim.kernel reads width height item w)
                     l g0 in
  GameGrid.cells g
  = stores (fun it : nat * nat => (Z.of_nat it.1, Z.of_nat it.2))
           (fun it => GameOfLifeSim.item_state r width height it.1 it.2)
           l (GameGrid.cells g0)
  /\ GameGrid.vels g
     = stores (fun it : nat * nat => (Z.of_nat it.1, Z.of_nat it.2))
              (fun it => GameOfLifeSim.item_vel r rv width height it.1 it.2)
              l (GameGrid.vels g0)
  /\ GameGrid.img g
     = stores (fun it : nat * nat => (Z.of_nat it.2, Z.of_nat it.1))
              (fun it => GameOfLifeSim.item_pixel r rv width height it.1 it.2)
              l (GameGrid.img g0).
Proof.
  cbv zeta. revert g0. induction l as [|it l IH]; intros g0.
  { repeat split; reflexivity. }
  cbn [fold_left]. destruct (IH (GameOfLifeSim.kernel reads width height it g0))
    as (-> & -> & ->).
  repeat split; reflexivity.
Qed.

Lemma key_xy_inj (i j : nat * nat) :
  (Z.of_nat i.1, Z.of_nat i.2) = (Z.of_nat j.1, Z.of_nat j.2) -> i = j.
Proof. destruct i, j. cbn. intros [= H1 H2]. f_equal; lia. Qed.

Lemma key_yx_inj (i j : nat * nat) :
  (Z.of_nat i.2, Z.of_nat i.1) = (Z.of_nat j.2, Z.of_nat j.1) -> i = j.
Proof. destruct i, j. cbn. intros [= H1 H2]. f_equal; lia. Qed.

Lemma in_range_discard {A : Type} (b : buffer2.t A) id :
  buffer2.in_range (buffer2.discard b) id = buffer2.in_range b id.
Proof. reflexivity. Qed.

Lemma in_range_nat {A : Type} (b : buffer2.t A) (x y : nat) :
  (x < buffer2.range0 b)%nat -> (y < buffer2.range1 b)%nat ->
  buffer2.in_range b (Z.of_nat x, Z.of_nat y) = true.
Proof.
  intros Hx Hy. unfold buffer2.in_range. apply bool_decide_eq_true. cbn. lia.
Qed.

(** X23.  The clicks pending at a step are written into the generation
    the kernel is about to read, last added first, so that of several
    clicks on one cell the one added first is the one that stays; a cell
    without a click keeps its state.  The clicks are taken to lie on the
    grid, as a store through the accessor requires. *)
Theorem clicks_first_added_wins (this : GameOfLifeSim.t) (id : Z * Z) :
  (forall x y s, (x, y, s) ∈ GameOfLifeSim.m_clicks this ->
     buffer2.in_range (GameGrid.cells (read_grid this))
                      (Z.of_nat x, Z.of_nat y) = true) ->
  buffer2.in_range (GameGrid.cells (read_grid this)) id = true ->
  buffer2.get (GameGrid.cells (write_grid (GameOfLifeSim.internal_step this))) id
  = match first_click (GameOfLifeSim.m_clicks this) id with
    | Some s => Some s
    | None => buffer2.get (GameGrid.cells (read_grid this)) id
    end.
Proof.
  intros _ Hin. rewrite write_grid_internal_step. cbn [GameGrid.cells].
  unfold clicked_cells. apply drain_clicks_rev. exact Hin.
Qed.

Lemma clicks_first_added_wins_witness :
  let g := GameOfLifeSim.add_click 1 1 DEAD
             (GameOfLifeSim.add_click 1 1 LIVE (GameOfLifeSim.ctor 3 3)) in
  buffer2.get (GameGrid.cells (write_grid (GameOfLifeSim.internal_step g)))
              (1, 1)%Z
  = Some LIVE.
Proof.
  intros g.
  refine (clicks_first_added_wins g (1, 1)%Z _ _); [|reflexivity].
  intros x y s Hin. cbn in Hin.
  apply elem_of_cons in Hin as [[= -> -> ->] | Hin]; [reflexivity|].
  apply elem_of_cons in Hin as [[= -> -> ->] | Hin]; [reflexivity|].
  apply elem_of_nil in Hin. contradiction.
Defined.

(** X24.  A step empties the list of clicks, keeps the dimensions, swaps
    the two generations once, and leaves as the new write generation the
    old read generation with the clicks applied to its cells, velocities
    and image untouched. *)
Theorem game_step_swaps_generations (this : GameOfLifeSim.t) :
  let this' := GameOfLifeSim.internal_step this in
  GameOfLifeSim.m_clicks this' = []
  /\ GameOfLifeSim.m_width this' = GameOfLifeSim.m_width this
  /\ GameOfLifeSim.m_height this' = GameOfLifeSim.m_height this
  /\ DoubleBuf.read (GameOfLifeSim.m_game this')
     = DoubleBuf.write (GameOfLifeSim.m_game this)
  /\ DoubleBuf.write (GameOfLifeSim.m_game this')
     = DoubleBuf.read (GameOfLifeSim.m_game this)
  /\ GameGrid.cells (write_grid this') = clicked_cells this
  /\ GameGrid.vels (write_grid this') = GameGrid.vels (read_grid this)
  /\ GameGrid.img (write_grid this') = GameGrid.img (read_grid this).
Proof.
  cbv zeta. rewrite write_grid_internal_step.
  unfold GameOfLifeSim.internal_step.
  cbn [GameOfLifeSim.m_game GameOfLifeSim.m_width GameOfLifeSim.m_height
       GameOfLifeSim.m_clicks GameGrid.cells GameGrid.vels GameGrid.img].
  rewrite read_swap, write_swap, !write_assign, !read_assign.
  repeat split; reflexivity.
Qed.

Lemma game_step_swaps_generations_aux (this : GameOfLifeSim.t) :
  GameOfLifeSim.m_width (GameOfLifeSim.internal_step this)
  = GameOfLifeSim.m_width this
  /\ GameOfLifeSim.m_height (GameOfLifeSim.internal_step this)
     = GameOfLifeSim.m_height this.
Proof. split; reflexivity. Qed.

Lemma submit_sized (this : GameOfLifeSim.t) :
  grid_sized (GameOfLifeSim.m_width this) (GameOfLifeSim.m_height this)
             (write_grid this) ->
  grid_sized (GameOfLifeSim.m_width this) (GameOfLifeSim.m_height this)
             (GameOfLifeSim.submit this).
Proof.
  unfold grid_sized, write_grid, GameOfLifeSim.submit.
  intros ((Hc0 & Hc1) & (Hv0 & Hv1) & (Hi0 & Hi1)).
  match goal with
  | |- context [fold_left ?f ?l ?g0] =>
      destruct (kernels_stores
                  (DoubleBuf.deref (GameOfLifeSim.m_game this)
                     (DoubleBuf.read (GameOfLifeSim.m_game this)))
                  (GameOfLifeSim.m_width this) (GameOfLifeSim.m_height this)
                  l g0) as (-> & -> & ->)
  end.
  cbn [GameGrid.cells GameGrid.vels GameGrid.img].
  repeat match goal with
  | |- context [buffer2.range0 (stores ?k ?o ?l ?b)] =>
      rewrite (proj1 (stores_ranges k o l b))
  | |- context [buffer2.range1 (stores ?k ?o ?l ?b)] =>
      rewrite (proj2 (stores_ranges k o l b))
  end.
  cbn [buffer2.discard buffer2.range0 buffer2.range1].
  split; [split; assumption|]. split; split; assumption.
Qed.

Lemma internal_step_sized_game (this : GameOfLifeSim.t) :
  game_sized this -> game_sized (GameOfLifeSim.internal_step this).
Proof.
  intros Hs m.
  assert (Hr : grid_sized (GameOfLifeSim.m_width this)
                 (GameOfLifeSim.m_height this)
                 (GameGrid.make (clicked_cells this)
                    (GameGrid.vels (read_grid this))
                    (GameGrid.img (read_grid this)))).
  { destruct (Hs (DoubleBuf.read (GameOfLifeSim.m_game this)))
      as ((Hc0 & Hc1) & Hv & Hi).
    unfold grid_sized. cbn [GameGrid.cells GameGrid.vels GameGrid.img].
    unfold clicked_cells.
    destruct (drain_clicks_ranges (rev (GameOfLifeSim.m_clicks this))
                (GameGrid.cells (read_grid this))) as [-> ->].
    split; [split; assumption|]. split; assumption. }
  pose proof (read_grid_internal_step this) as Hread.
  pose proof (write_grid_internal_step this) as Hwrite.
  destruct (game_step_swaps_generations_aux this) as (Hw & Hh).
  rewrite Hw, Hh.
  destruct (member_eq_dec m (DoubleBuf.read
                          (GameOfLifeSim.m_game (GameOfLifeSim.internal_step this))))
    as [-> | Hne].
  - fold (read_grid (GameOfLifeSim.internal_step this)). rewrite Hread.
    match goal with
    | |- grid_sized _ _ (GameOfLifeSim.submit ?t) =>
        apply (submit_sized t)
    end.
    unfold write_grid. cbn [GameOfLifeSim.m_game GameOfLifeSim.m_width
                            GameOfLifeSim.m_height].
    rewrite write_assign.
    rewrite deref_assign_other by apply read_write_distinct.
    apply Hs.
  - assert (m = DoubleBuf.write
                  (GameOfLifeSim.m_game (GameOfLifeSim.internal_step this))) as ->.
    { revert Hne. unfold DoubleBuf.read, DoubleBuf.write.
      destruct (DoubleBuf.buffer _), m; intros Hne; try reflexivity;
        contradiction. }
    fold (write_grid (GameOfLifeSim.internal_step this)). rewrite Hwrite.
    exact Hr.
Qed.

Lemma ctor_game_sized (width height : nat) :
  game_sized (GameOfLifeSim.ctor width height).
Proof. intros []; repeat split; reflexivity. Qed.

(** X25.  After a step on a grid whose buffers have the constructor's
    ranges, every cell [(x, y)] of the new read generation holds exactly
    what work item [(x, y)] computed from the old read generation with the
    clicks applied: state and velocity at [(x, y)], pixel at [(y, x)].
    Where the work item read something undefined, nothing defined is
    stored, since the write accessors discard the old contents. *)
Theorem step_computes_every_cell (this : GameOfLifeSim.t) (x y : nat) :
  game_sized this ->
  (x < GameOfLifeSim.m_width this)%nat ->
  (y < GameOfLifeSim.m_height this)%nat ->
  let width := GameOfLifeSim.m_width this in
  let height := GameOfLifeSim.m_height this in
  let r := clicked_cells this in
  let rv := GameGrid.vels (read_grid this) in
  let new := read_grid (GameOfLifeSim.internal_step this) in
  buffer2.get (GameGrid.cells new) (Z.of_nat x, Z.of_nat y)
  = GameOfLifeSim.item_state r width height x y
  /\ buffer2.get (GameGrid.vels new) (Z.of_nat x, Z.of_nat y)
     = GameOfLifeSim.item_vel r rv width height x y
  /\ buffer2.get (GameGrid.img new) (Z.of_nat y, Z.of_nat x)
     = GameOfLifeSim.item_pixel r rv width height x y.
Proof.
  intros Hs Hx Hy. cbv zeta. rewrite read_grid_internal_step.
  unfold GameOfLifeSim.submit.
  cbn [GameOfLifeSim.m_game GameOfLifeSim.m_width GameOfLifeSim.m_height].
  rewrite read_assign, write_assign, deref_assign_same.
  rewrite deref_assign_other by apply read_write_distinct.
  destruct (Hs (DoubleBuf.write (GameOfLifeSim.m_game this)))
    as ((Hc0 & Hc1) & (Hv0 & Hv1) & (Hi0 & Hi1)).
  set (wr := DoubleBuf.deref (GameOfLifeSim.m_game this)
               (DoubleBuf.write (GameOfLifeSim.m_game this))) in *.
  match goal with
  | |- context [fold_left ?f ?l ?g0] =>
      destruct (kernels_stores
                  (GameGrid.make (clicked_cells this)
                     (GameGrid.vels (read_grid this))
                     (GameGrid.img (read_grid this)))
                  (GameOfLifeSim.m_width this) (GameOfLifeSim.m_height this)
                  l g0) as (-> & -> & ->)
  end.
  cbn [GameGrid.cells GameGrid.vels GameGrid.img].
  assert (Hit : (x, y) ∈ GameOfLifeSim.items (GameOfLifeSim.m_width this)
                                             (GameOfLifeSim.m_height this))
    by (apply items_elem; split; assumption).
  pose proof (items_NoDup (GameOfLifeSim.m_width this)
                          (GameOfLifeSim.m_height this)) as Hnd.
  split; [|split].
  - pose proof (stores_lookup
                  (fun it : nat * nat => (Z.of_nat it.1, Z.of_nat it.2))
                  (fun it => GameOfLifeSim.item_state (clicked_cells this)
                               (GameOfLifeSim.m_width this)
                               (GameOfLifeSim.m_height this) it.1 it.2)
                  _ (buffer2.discard (GameGrid.cells wr)) (x, y) Hnd
                  (fun i j _ _ => key_xy_inj i j) Hit) as H.
    cbn [fst snd] in H. rewrite H.
    + rewrite get_discard. destruct (GameOfLifeSim.item_state _ _ _ _ _); reflexivity.
    + rewrite in_range_discard. apply in_range_nat; lia.
  - pose proof (stores_lookup
                  (fun it : nat * nat => (Z.of_nat it.1, Z.of_nat it.2))
                  (fun it => GameOfLifeSim.item_vel (clicked_cells this)
                               (GameGrid.vels (read_grid this))
                               (GameOfLifeSim.m_width this)
                               (GameOfLifeSim.m_height this) it.1 it.2)
                  _ (buffer2.discard (GameGrid.vels wr)) (x, y) Hnd
                  (fun i j _ _ => key_xy_inj i j) Hit) as H.
    cbn [fst snd] in H. rewrite H.
    + rewrite get_discard. destruct (GameOfLifeSim.item_vel _ _ _ _ _ _); reflexivity.
    + rewrite in_range_discard. apply in_range_nat; lia.
  - pose proof (stores_lookup
                  (fun it : nat * nat => (Z.of_nat it.2, Z.of_nat it.1))
                  (fun it => GameOfLifeSim.item_pixel (clicked_cells this)
                               (GameGrid.vels (read_grid this))
                               (GameOfLifeSim.m_width this)
                               (GameOfLifeSim.m_height this) it.1 it.2)
                  _ (buffer2.discard (GameGrid.img wr)) (x, y) Hnd
                  (fun i j _ _ => key_yx_inj i j) Hit) as H.
    cbn [fst snd] in H. rewrite H.
    + rewrite get_discard. destruct (GameOfLifeSim.item_pixel _ _ _ _ _ _); reflexivity.
    + rewrite in_range_discard. apply in_range_nat; lia.
Qed.

Lemma step_computes_every_cell_witness :
  let this := GameOfLifeSim.add_click 1 1 LIVE (GameOfLifeSim.ctor 3 3) in
  buffer2.get (GameGrid.cells (read_grid (GameOfLifeSim.internal_step this)))
              (Z.of_nat 1, Z.of_nat 1)
  = GameOfLifeSim.item_state (clicked_cells this) 3 3 1 1.
Proof.
  intros this.
  refine (proj1 (step_computes_every_cell this 1 1 _ _ _)).
  - apply (ctor_game_sized 3 3).
  - simpl; lia.
  - simpl; lia.
Defined.

Lemma neighbour_vel_bounds (live : list bool) :
  let v := GameOfLifeSim.neighbour_vel live in
  -0.3 <= float2.x v <= 0.3 /\ -0.2125 <= float2.y v <= 0.475.
Proof.
  cbv zeta. unfold GameOfLifeSim.neighbour_vel.
  cbv [for_loop seq fold_left].
  generalize (live !!! 0%nat), (live !!! 1%nat), (live !!! 2%nat),
    (live !!! 3%nat), (live !!! 4%nat), (live !!! 5%nat), (live !!! 6%nat),
    (live !!! 7%nat).
  intros b0 b1 b2 b3 b4 b5 b6 b7.
  cbv [for_loop seq fold_left GameOfLifeSim.vel_consts lookup_total
       list_lookup_total float2.add float2.times float2.over float2.x float2.y
       num_of_bool].
  destruct b0, b1, b2, b3, b4, b5, b6, b7; split; lra.
Qed.

Lemma neighbour_vel_all_dead (live : list bool) :
  (forall i, (i < 8)%nat -> live !!! i = false) ->
  GameOfLifeSim.neighbour_vel live = float2.make 0 0.
Proof.
  intros Hd. unfold GameOfLifeSim.neighbour_vel.
  rewrite (for_loop_ext 8 _ (fun _ vel => vel)).
  - rewrite for_loop_id. unfold float2.over. cbn [float2.x float2.y].
    f_equal; lra.
  - intros i [vx vy] Hi. rewrite Hd by exact Hi.
    unfold float2.add, float2.times, num_of_bool. cbn [float2.x float2.y].
    f_equal; lra.
Qed.

(** X26.  When work item [(x, y)] has a defined new velocity, it is half
    the old velocity of the cell plus a push from the live neighbours that
    lies between -0.15 and 0.15 in x and between -0.10625 and 0.2375 in y
    (the eight constants are not symmetric in y); with all eight
    neighbours dead the velocity is exactly halved. *)
Theorem item_vel_halves_and_pushes (r : buffer2.t CellState)
    (rv : buffer2.t float2.t) (width height x y : nat) (v : float2.t) :
  GameOfLifeSim.item_vel r rv width height x y = Some v ->
  exists old live,
    buffer2.get rv (Z.of_nat x, Z.of_nat y) = Some old
    /\ GameOfLifeSim.read_live r width height x y = Some live
    /\ -0.15 <= float2.x v - float2.x old / 2 <= 0.15
    /\ -0.10625 <= float2.y v - float2.y old / 2 <= 0.2375
    /\ ((forall i, (i < 8)%nat -> live !!! i = false) ->
        v = float2.over old 2).
Proof.
  unfold GameOfLifeSim.item_vel.
  destruct (GameOfLifeSim.read_live r width height x y) as [live|];
    [|discriminate].
  cbn [mbind option_bind].
  destruct (buffer2.get rv (Z.of_nat x, Z.of_nat y)) as [old|]; [|discriminate].
  cbn [mbind option_bind]. intros [= <-]. exists old, live.
  split; [reflexivity|]. split; [reflexivity|].
  destruct (neighbour_vel_bounds live) as [Hx Hy].
  unfold float2.over, float2.add. cbn [float2.x float2.y].
  split; [lra|]. split; [lra|].
  intros Hd. rewrite (neighbour_vel_all_dead live Hd). cbn [float2.x float2.y].
  f_equal; lra.
Qed.

Lemma item_vel_halves_and_pushes_witness :
  exists old live,
    buffer2.get still_vels (Z.of_nat 1, Z.of_nat 1) = Some old
    /\ GameOfLifeSim.read_live dead_cells 3 3 1 1 = Some live
    /\ -0.15 <= float2.x (float2.over (float2.add (float2.make 0 0)
                   (GameOfLifeSim.neighbour_vel (replicate 8 false))) 2)
                - float2.x old / 2 <= 0.15
    /\ -0.10625 <= float2.y (float2.over (float2.add (float2.make 0 0)
                      (GameOfLifeSim.neighbour_vel (replicate 8 false))) 2)
                   - float2.y old / 2 <= 0.2375
    /\ ((forall i, (i < 8)%nat -> live !!! i = false) ->
        float2.over (float2.add (float2.make 0 0)
          (GameOfLifeSim.neighbour_vel (replicate 8 false))) 2
        = float2.over old 2).
Proof.
  refine (item_vel_halves_and_pushes dead_cells still_vels 3 3 1 1 _ _).
  reflexivity.
Defined.

Lemma get_blank {A : Type} (b : buffer2.t A) id :
  buffer2.data b = ∅ -> buffer2.get b id = None.
Proof.
  intros Hb. unfold buffer2.get. destruct (buffer2.in_range b id); [|reflexivity].
  rewrite Hb. apply lookup_empty.
Qed.

Lemma stores_none {A I : Type} (key : I -> Z * Z) (out : I -> option A)
    (l : list I) (b : buffer2.t A) :
  (forall it, out it = None) -> stores key out l b = b.
Proof.
  intros Hn. revert b. induction l as [|it l IH]; intros b; [reflexivity|].
  rewrite stores_cons, Hn. apply IH.
Qed.

Lemma item_vel_blank r (rv : buffer2.t float2.t) width height x y :
  buffer2.data rv = ∅ -> GameOfLifeSim.item_vel r rv width height x y = None.
Proof.
  intros Hb. unfold GameOfLifeSim.item_vel.
  destruct (GameOfLifeSim.read_live r width height x y); [|reflexivity].
  cbn [mbind option_bind]. rewrite (get_blank rv _ Hb). reflexivity.
Qed.

Lemma item_pixel_blank r (rv : buffer2.t float2.t) width height x y :
  buffer2.data rv = ∅ -> GameOfLifeSim.item_pixel r rv width height x y = None.
Proof.
  intros Hb. unfold GameOfLifeSim.item_pixel.
  destruct (GameOfLifeSim.item_state r width height x y); [|reflexivity].
  cbn [mbind option_bind]. rewrite (item_vel_blank r rv _ _ _ _ Hb). reflexivity.
Qed.

Lemma submit_blank (this : GameOfLifeSim.t) :
  vels_img_blank (read_grid this) -> vels_img_blank (GameOfLifeSim.submit this).
Proof.
  unfold vels_img_blank, read_grid, GameOfLifeSim.submit. intros [Hv _].
  match goal with
  | |- context [fold_left ?f ?l ?g0] =>
      destruct (kernels_stores
                  (DoubleBuf.deref (GameOfLifeSim.m_game this)
                     (DoubleBuf.read (GameOfLifeSim.m_game this)))
                  (GameOfLifeSim.m_width this) (GameOfLifeSim.m_height this)
                  l g0) as (_ & -> & ->)
  end.
  rewrite !stores_none.
  - split; reflexivity.
  - intros it. apply item_pixel_blank, Hv.
  - intros it. apply item_vel_blank, Hv.
Qed.

Lemma internal_step_blank (this : GameOfLifeSim.t) :
  (forall m, vels_img_blank (DoubleBuf.deref (GameOfLifeSim.m_game this) m)) ->
  forall m, vels_img_blank
              (DoubleBuf.deref
                 (GameOfLifeSim.m_game (GameOfLifeSim.internal_step this)) m).
Proof.
  intros Hb m.
  pose proof (Hb (DoubleBuf.read (GameOfLifeSim.m_game this))) as Hr.
  fold (read_grid this) in Hr.
  destruct (member_eq_dec m (DoubleBuf.read
                          (GameOfLifeSim.m_game (GameOfLifeSim.internal_step this))))
    as [-> | Hne].
  - fold (read_grid (GameOfLifeSim.internal_step this)).
    rewrite read_grid_internal_step. apply submit_blank.
    unfold read_grid at 1.
    cbn [GameOfLifeSim.m_game]. rewrite read_assign, deref_assign_same.
    exact Hr.
  - assert (m = DoubleBuf.write
                  (GameOfLifeSim.m_game (GameOfLifeSim.internal_step this))) as ->.
    { revert Hne. unfold DoubleBuf.read, DoubleBuf.write.
      destruct (DoubleBuf.buffer _), m; intros Hne; try reflexivity;
        contradiction. }
    fold (write_grid (GameOfLifeSim.internal_step this)).
    rewrite write_grid_internal_step. exact Hr.
Qed.

Lemma game_do_calls_blank (cs : list game_call_t) (g : GameOfLifeSim.t) :
  (forall m, vels_img_blank (DoubleBuf.deref (GameOfLifeSim.m_game g) m)) ->
  forall m, vels_img_blank
              (DoubleBuf.deref (GameOfLifeSim.m_game (game_do_calls cs g)) m).
Proof.
  revert g. induction cs as [|c cs IH]; intros g Hb; [exact Hb|].
  unfold game_do_calls. cbn [fold_left]. apply IH.
  destruct c as [x y s|]; [exact Hb | apply internal_step_blank, Hb].
Qed.

(** X27.  Starting from the constructor, no sequence of [add_click] and
    [step] ever stores a defined velocity or pixel.  A new velocity is
    computed from the old velocity of the cell, and the constructor
    leaves the velocities uninitialised; so every velocity, and every
    pixel [with_img] hands out, stays indeterminate. *)
Theorem fresh_game_image_indeterminate (width height : nat)
    (cs : list game_call_t) (id : Z * Z) :
  let g := game_do_calls cs (GameOfLifeSim.ctor width height) in
  buffer2.get (GameGrid.vels (read_grid g)) id = None
  /\ buffer2.get (GameOfLifeSim.with_img g) id = None.
Proof.
  cbv zeta.
  pose proof (game_do_calls_blank cs (GameOfLifeSim.ctor width height)) as Hb.
  destruct (Hb (fun m => ltac:(destruct m; split; reflexivity))
               (DoubleBuf.read (GameOfLifeSim.m_game
                  (game_do_calls cs (GameOfLifeSim.ctor width height)))))
    as [Hv Hi].
  split; apply get_blank; assumption.
Qed.
